(** * symmray: lazy fermionic phases on block-sparse symmetric arrays

    A shallow embedding of [symmray/fermionic_core.py].  A [FermionicArray]
    is a [SymmetricArray] (ordered indices, a total charge, a dictionary
    from sectors to dense blocks) extended with a sparse dictionary of
    buffered signs.  Python dictionaries are finite maps ([gmap]), tuples
    are lists, exceptions are the [Raise] results of a small error monad,
    and the numeric backend reached through [autoray] is an interface. *)

From Stdlib Require Import ZArith List Lia.
From stdpp Require Import base option list list_numbers gmap fin_maps.

Local Open Scope Z_scope.

(** ** Exceptions *)

Inductive exn : Type :=
  | ValueError
  | IndexError
  | KeyError
  | ZeroDivisionError.

Inductive result (A : Type) : Type :=
  | Ok (a : A)
  | Raise (e : exn).

Arguments Ok {A} a.
Arguments Raise {A} e.

#[global] Instance result_ret : MRet result := λ A a, Ok a.
#[global] Instance result_bind : MBind result := λ A B f m,
  match m with
  | Ok a => f a
  | Raise e => Raise e
  end.
#[global] Instance result_fmap : FMap result := λ A B f m,
  match m with
  | Ok a => Ok (f a)
  | Raise e => Raise e
  end.

(** A [for] loop whose body may raise: the accumulator is threaded from
    left to right and the first exception aborts the loop. *)
Fixpoint foldM {A B : Type} (f : B → A → result B) (b : B) (l : list A)
  : result B :=
  match l with
  | [] => Ok b
  | a :: l' => b' ← f b a; foldM f b' l'
  end.

(** [it[i]] on a tuple, for a non-negative [i]. *)
Definition getitem {A : Type} (it : list A) (i : nat) : result A :=
  match it !! i with
  | Some a => Ok a
  | None => Raise IndexError
  end.

(** [d[k]] on a dictionary. *)
Definition dict_getitem `{Countable K} {A : Type} (d : gmap K A) (k : K)
  : result A :=
  match d !! k with
  | Some a => Ok a
  | None => Raise KeyError
  end.

(** The entries of a tuple at the given positions, skipping the positions
    that are out of range: the value of [tuple(it[p] for p in perm)] whenever
    that expression does not raise. *)
Definition take_at {A : Type} (it : list A) (perm : list nat) : list A :=
  omap (λ p, it !! p) perm.

(** The inverse of a permutation of [range(n)]: position [j] holds the
    place of [j] in [p]. *)
Definition inverse_perm (p : list nat) : list nat :=
  map (λ j, default 0%nat (fst <$> list_find (λ a, a = j) p))
      (seq 0 (length p)).

(** [range(n - 1, -1, -1)] *)
Fixpoint range_down (n : nat) : list nat :=
  match n with
  | O => []
  | S m => m :: range_down m
  end.

(** [p] lists every axis of [range(n)] exactly once. *)
Definition is_perm (p : list nat) (n : nat) : Prop := p ≡ₚ seq 0 n.

(** The pairs of a sequence that satisfy [R], the first standing before the
    second. *)
Fixpoint cnt (R : nat → nat → bool) (l : list nat) : nat :=
  match l with
  | [] => 0%nat
  | x :: l' => (sum_list_with (λ y, Nat.b2n (R x y)) l' + cnt R l')%nat
  end.

(** All the pairs of a sequence that satisfy [R]. *)
Definition tot (R : nat → nat → bool) (l : list nat) : nat :=
  sum_list_with (λ x, sum_list_with (λ y, Nat.b2n (R x y)) l) l.

(** One round of a loop that stores [val a] under [key a] when there is a
    value to store. *)
Definition rekey_step `{Countable K} {A V : Type} (key : A → K)
    (val : A → option V) (acc : gmap K V) (a : A) : gmap K V :=
  match val a with
  | Some v => <[key a := v]> acc
  | None => acc
  end.

(** ** The collaborators of the fermionic layer *)

(** Modelled from the spec: the symmetry objects of [symmetries], which is
    not among the sources; a conserved-charge algebra combines charges and
    projects a charge on its parity. *)
Class Symmetry (charge : Type) : Type := {
  combine : charge → charge → charge;
  parity : charge → bool;
}.

(** Modelled from the spec: [symmetries.get_symmetry] is not among the
    sources; the two-element group has charges combined modulo two and the
    parity of a charge is the charge itself. *)
Definition Z2 : Symmetry Z :=
  {| combine := λ a b, (a + b) mod 2; parity := λ q, Z.odd q |}.

(** Modelled from the spec: the integer group of [symmetries.get_symmetry],
    whose charges add and whose parity is the charge modulo two. *)
Definition U1 : Symmetry Z :=
  {| combine := λ a b, a + b; parity := λ q, Z.odd q |}.

(** The numeric backend: what [ar.get_lib_fn(backend, ...)] and the
    arithmetic of dense blocks provide.  The backend is external: its
    operations are total here and what it does on arguments that do not fit
    a block is left open. *)
Class Backend (block : Type) : Type := {
  b_ndim : block → nat;
  b_neg : block → block;
  b_conj : block → block;
  b_transpose : block → option (list nat) → block;
  b_tensordot : block → block → list nat → list nat → block;
  b_add : block → block → block;
}.

(** The law of dense transposition the round trip relies on: transposing
    by a permutation of the axes of a block and then by its inverse gives
    the block back. *)
Class BackendLaws (block : Type) `{Backend block} : Prop := {
  b_transpose_transpose b p q :
    p ≡ₚ seq 0 (b_ndim b) → q ≡ₚ seq 0 (b_ndim b) →
    (∀ i j, p !! i = Some j → q !! j = Some i) →
    b_transpose (b_transpose b (Some p)) (Some q) = b;
}.

Section Arrays.
Context {charge : Type} `{Countable charge} {Sym : Symmetry charge}.
Context {block : Type} {BE : Backend block}.

(** Modelled from the spec: the class [BlockIndex] is not among the sources;
    one axis is a charge-to-dimension mapping and a flow flag. *)
Record BlockIndex : Type := mkBlockIndex {
  chargemap : list (charge * nat);
  flow : bool;
}.

(** Modelled from the spec: [BlockIndex.conj] flips the flow only. *)
Definition ix_conj (ix : BlockIndex) : BlockIndex :=
  {| chargemap := chargemap ix; flow := negb (flow ix) |}.

(** Modelled from the spec: [BlockIndex.size_total] is the sum of the
    dimensions of the chargemap. *)
Definition size_total (ix : BlockIndex) : nat :=
  sum_list_with snd (chargemap ix).

Abbreviation sector := (list charge).

(** Modelled from the spec: the slots of [SymmetricArray], which is not
    among the sources. *)
Record SymmetricArray : Type := mkSymmetricArray {
  indices : list BlockIndex;
  charge_total : charge;
  blocks : gmap sector block;
}.

(** [FermionicArray.__slots__] adds [_phases] to the slots of the base
    class. *)
Record FermionicArray : Type := mkFermionicArray {
  base :> SymmetricArray;
  phases : gmap sector Z;
}.

Definition ndim (x : SymmetricArray) : nat := length (indices x).

(** Modelled from the spec: the stored sectors are the keys of [blocks]. *)
Definition sectors (x : SymmetricArray) : list sector :=
  (map_to_list (blocks x)).*1.

(** Modelled from the spec: the element count is the product of the total
    sizes of the indices. *)
Definition size (x : SymmetricArray) : nat :=
  foldr (λ ix acc, (size_total ix * acc)%nat) 1%nat (indices x).

(** [self._phases.get(sector, 1)] *)
Definition phases_get (ph : gmap sector Z) (s : sector) : Z :=
  default 1 (ph !! s).

(** [copy_with(phases=...)] restricted to the phase slot. *)
Definition with_phases (x : FermionicArray) (ph : gmap sector Z)
  : FermionicArray :=
  {| base := base x; phases := ph |}.

(** Modelled from the spec: [symmetric_core.permuted] is not among the
    sources; it reads the tuple at each position of the permutation. *)
Definition permuted {A : Type} (it : list A) (perm : list nat)
  : result (list A) :=
  mapM (getitem it) perm.

(** The number of pairs of a sequence that stand in decreasing order. *)
Fixpoint inversions (l : list nat) : nat :=
  match l with
  | [] => 0%nat
  | a :: l' => (length (filter (λ b, b < a)%nat l') + inversions l')%nat
  end.

(** The axes of a permutation that carry an odd parity, in the order of the
    permutation; reading a parity out of range raises. *)
Fixpoint odd_subsequence (parities : list bool) (perm : list nat)
  : result (list nat) :=
  match perm with
  | [] => Ok []
  | a :: perm' =>
      p ← getitem parities a;
      rest ← odd_subsequence parities perm';
      Ok (if p : bool then a :: rest else rest)
  end.

(** Modelled from the spec: [symmetries.calc_phase_permutation] is not among
    the sources; the sign is -1 iff the permutation restricted to the
    odd-parity axes is odd, and no permutation means the full reversal. *)
Definition calc_phase_permutation (parities : list bool)
    (perm : option (list nat)) : result Z :=
  let perm :=
    match perm with
    | Some p => p
    | None => reverse (seq 0 (length parities))
    end in
  odd_axes ← odd_subsequence parities perm;
  Ok (if Nat.odd (inversions odd_axes) then -1 else 1).

(** Modelled from the spec: [SymmetricArray.transpose] is not among the
    sources; it permutes the axis order, remaps every sector key and
    permutes each block's dense axes, without changing a value. *)
Definition SymmetricArray_transpose (x : SymmetricArray) (axes : list nat)
  : result SymmetricArray :=
  new_indices ← permuted (indices x) axes;
  new_blocks ←
    foldM (λ acc sb, k ← permuted sb.1 axes;
                     Ok (<[k := b_transpose sb.2 (Some axes)]> acc))
          ∅ (map_to_list (blocks x));
  Ok {| indices := new_indices;
        charge_total := charge_total x;
        blocks := new_blocks |}.

(** ** [FermionicArray.transpose] *)

Definition transpose (self : FermionicArray) (axes : option (list nat))
    (phase : bool) : result FermionicArray :=
  let new := self in
  let axes :=
    match axes with
    | None => range_down (ndim new)
    | Some axes => axes
    end in
  new_phases ←
    (if phase then
       foldM (λ permuted_phases sector,
                let parities := map parity sector in
                perm_phase ← calc_phase_permutation parities (Some axes);
                let new_phase := phases_get (phases new) sector * perm_phase in
                if decide (new_phase = -1) then
                  k ← permuted sector axes;
                  Ok (<[k := -1]> permuted_phases)
                else Ok permuted_phases)
             ∅ (sectors new)
     else
       foldM (λ acc sp, k ← permuted sp.1 axes; Ok (<[k := sp.2]> acc))
             ∅ (map_to_list (phases new)));
  new_base ← SymmetricArray_transpose new axes;
  Ok {| base := new_base; phases := new_phases |}.

(** ** [FermionicArray.phase_flip] *)

(** [sum(parity(sector[ax]) for ax in axs) % 2] *)
Definition parity_sum (sector : sector) (axs : list nat) : result nat :=
  ps ← mapM (λ ax, q ← getitem sector ax; Ok (parity q)) axs;
  Ok (sum_list_with Nat.b2n ps mod 2)%nat.

Definition phase_flip (self : FermionicArray) (axs : list nat)
  : result FermionicArray :=
  let new := self in
  match axs with
  | [] => Ok new
  | _ =>
      new_phases ←
        foldM (λ new_phases sector,
                 par ← parity_sum sector axs;
                 if decide (par ≠ 0%nat) then
                   let new_phase := - phases_get new_phases sector in
                   if decide (new_phase = 1) then
                     Ok (delete sector new_phases)
                   else Ok (<[sector := new_phase]> new_phases)
                 else Ok new_phases)
              (phases new) (sectors new);
      Ok (with_phases new new_phases)
  end.

(** ** [FermionicArray.phase_resolve] *)

Definition with_blocks (x : SymmetricArray) (bs : gmap sector block)
  : SymmetricArray :=
  {| indices := indices x; charge_total := charge_total x; blocks := bs |}.

Definition phase_resolve (self : FermionicArray) : result FermionicArray :=
  let new := self in
  new_blocks ←
    foldM (λ blks sp,
             if decide (sp.2 = -1) then
               array ← dict_getitem blks sp.1;
               Ok (<[sp.1 := b_neg array]> blks)
             else Ok blks)
          (blocks new) (map_to_list (phases new));
  Ok {| base := with_blocks new new_blocks; phases := ∅ |}.

(** ** [FermionicArray.phase_virtual_transpose] *)

Definition phase_virtual_transpose (self : FermionicArray)
    (axes : option (list nat)) : result FermionicArray :=
  let new := self in
  new_phases ←
    foldM (λ ph sector,
             let parities := map parity sector in
             perm_phase ← calc_phase_permutation parities axes;
             let phase_new := phases_get ph sector * perm_phase in
             if decide (phase_new = 1) then Ok (delete sector ph)
             else Ok (<[sector := phase_new]> ph))
          (phases new) (sectors new);
  Ok (with_phases new new_phases).

(** ** [FermionicArray.conj] *)

(** [tuple(ax for ax, ix in enumerate(indices) if ix.flow)] *)
Definition flow_axes (ixs : list BlockIndex) : list nat :=
  (filter (λ p, flow p.2 = true) (imap pair ixs)).*1.

(** [sum(parities[ax] for ax in axs) % 2] *)
Definition parities_sum (parities : list bool) (axs : list nat)
  : result nat :=
  ps ← mapM (getitem parities) axs;
  Ok (sum_list_with Nat.b2n ps mod 2)%nat.

Definition conj (self : FermionicArray) (phase : bool)
  : result FermionicArray :=
  let new := self in
  let new_indices := map ix_conj (indices new) in
  let axs_conj := flow_axes new_indices in
  '(new_blocks, new_phases) ←
    foldM (λ '(blks, ph) sa,
             let sector := sa.1 in
             let blks := <[sector := b_conj sa.2]> blks in
             if phase then
               let parities := map parity sector in
               rev_phase ← calc_phase_permutation parities None;
               par ← parities_sum parities axs_conj;
               let phase_new :=
                 phases_get ph sector * rev_phase
                 * (if decide (par ≠ 0%nat) then -1 else 1) in
               if decide (phase_new = 1) then Ok (blks, delete sector ph)
               else Ok (blks, <[sector := phase_new]> ph)
             else Ok (blks, ph))
          (blocks new, phases new) (map_to_list (blocks new));
  Ok {| base := {| indices := new_indices;
                   charge_total := charge_total new;
                   blocks := new_blocks |};
        phases := new_phases |}.

(** ** [FermionicArray.dagger] *)

Definition dagger (self : FermionicArray) (phase : bool)
  : result FermionicArray :=
  let new := self in
  let new_indices := map ix_conj (reverse (indices new)) in
  let '(new_blocks, new_phases, _) :=
    foldl (λ '(new_blocks, new_phases, old_phases) sa,
             let sector := sa.1 in
             let new_sector := reverse sector in
             let popped := phases_get old_phases sector in
             let old_phases := delete sector old_phases in
             let new_phases :=
               if decide (popped = -1) then <[new_sector := -1]> new_phases
               else new_phases in
             (<[new_sector := b_transpose (b_conj sa.2) None]> new_blocks,
              new_phases, old_phases))
          (∅, ∅, phases new) (map_to_list (blocks new)) in
  let new :=
    {| base := {| indices := new_indices;
                  charge_total := charge_total new;
                  blocks := new_blocks |};
       phases := new_phases |} in
  if phase then phase_flip new (flow_axes new_indices) else Ok new.

(** ** [FermionicArray.fuse] *)

(** [perm.index(ax)] *)
Definition list_index (perm : list nat) (ax : nat) : result nat :=
  match list_find (λ a, a = ax) perm with
  | Some (i, _) => Ok i
  | None => Raise ValueError
  end.

(** [virtual_perm[axi] = axj] *)
Definition setitem {A : Type} (l : list A) (i : nat) (a : A)
  : result (list A) :=
  if decide (i < length l)%nat then Ok (<[i := a]> l) else Raise IndexError.

Section Fuse.

(** [calc_fuse_info(axes_groups, flows)[2]] and [SymmetricArray.fuse] belong
    to [symmetric_core], which is not among the sources: the permutation
    that makes the groups contiguous and the sign-unaware fuse are taken as
    given. *)
Variable calc_fuse_perm : list (list nat) → list bool → list nat.
Variable SymmetricArray_fuse :
  SymmetricArray → list (list nat) → result SymmetricArray.

(** The body of the loop over the groups: the axes to flip and the virtual
    permutation collected so far. *)
Definition fuse_group (new : FermionicArray)
    (st : list nat * option (list nat)) (group : list nat)
  : result (list nat * option (list nat)) :=
  let '(axes_flip, virtual_perm) := st in
  match group with
  | [] => Ok (axes_flip, virtual_perm)
  | ax0 :: _ =>
      ix0 ← getitem (indices new) ax0;
      if flow ix0 then
        axes_flip ←
          foldM (λ axes_flip ax,
                   ix ← getitem (indices new) ax;
                   Ok (if flow ix then axes_flip else axes_flip ++ [ax]))
                axes_flip group;
        let virtual_perm :=
          match virtual_perm with
          | None => seq 0 (ndim new)
          | Some vp => vp
          end in
        virtual_perm ←
          foldM (λ vp aa, setitem vp aa.1 aa.2)
                virtual_perm (zip group (reverse group));
        Ok (axes_flip, Some virtual_perm)
      else Ok (axes_flip, virtual_perm)
  end.

(** Everything [fuse] does before it delegates: the array handed to
    [SymmetricArray.fuse] together with the renumbered groups. *)
Definition fuse_prepare (self : FermionicArray) (axes_groups : list (list nat))
  : result (FermionicArray * list (list nat)) :=
  let new := self in
  let perm := calc_fuse_perm axes_groups (map flow (indices new)) in
  new ← transpose new (Some perm) true;
  axes_groups ← mapM (mapM (list_index perm)) axes_groups;
  '(axes_flip, virtual_perm) ← foldM (fuse_group new) ([], None) axes_groups;
  new ← (match axes_flip with
         | [] => Ok new
         | _ => phase_flip new axes_flip
         end);
  new ← (match virtual_perm with
         | None => Ok new
         | Some vp => phase_virtual_transpose new (Some vp)
         end);
  new ← phase_resolve new;
  Ok (new, axes_groups).

(** The fused array is a new instance built by the sign-unaware fuse from an
    array whose phase dictionary is empty, so it carries no phases. *)
Definition fuse (self : FermionicArray) (axes_groups : list (list nat))
  : result FermionicArray :=
  prepared ← fuse_prepare self axes_groups;
  fused ← SymmetricArray_fuse (base prepared.1) prepared.2;
  Ok {| base := fused; phases := ∅ |}.

End Fuse.

(** ** [tensordot_fermionic] *)

(** The [axes] argument: one integer, or a pair of tuples of integers. *)
Inductive axes_arg : Type :=
  | AxesInt (n : Z)
  | AxesPair (axes_a axes_b : list Z).

(** [range(lo, hi)] *)
Definition zrange (lo hi : Z) : list Z :=
  map (λ i, lo + Z.of_nat i) (seq 0 (Z.to_nat (hi - lo))).

(** [tuple(x % n for x in axes)]: the remainder has the sign of [n], which
    is what [Z.modulo] computes, and a zero [n] raises. *)
Definition mod_axes (axes : list Z) (n : nat) : result (list Z) :=
  mapM (λ x, if decide (n = 0%nat) then Raise ZeroDivisionError
             else Ok (x mod Z.of_nat n)) axes.

(** The parsing of the [axes] argument. *)
Definition parse_axes (ndim_a ndim_b : nat) (axes : axes_arg)
  : result (list Z * list Z) :=
  match axes with
  | AxesInt n =>
      Ok (zrange (Z.of_nat ndim_a - n) (Z.of_nat ndim_a), zrange 0 n)
  | AxesPair axes_a axes_b =>
      axes_a ← mod_axes axes_a ndim_a;
      axes_b ← mod_axes axes_b ndim_b;
      if decide (length axes_a = length axes_b) then Ok (axes_a, axes_b)
      else Raise ValueError
  end.

(** Modelled from the spec: [symmetric_core.without] is not among the
    sources; of a range of axes it keeps those that are not contracted. *)
Definition without {A : Type} `{EqDecision A} (it remove : list A) : list A :=
  filter (λ el, el ∉ remove) it.

(** Axes as positions counted from the front.  The methods of the array
    are embedded for such positions; a negative entry, which only a
    contraction over more axes than the operand has can produce, is
    rejected here. *)
Definition as_axes (axes : list Z) : result (list nat) :=
  mapM (λ x, if decide (0 ≤ x) then Ok (Z.to_nat x) else Raise IndexError)
       axes.

(** Modelled from the spec: [symmetric_core.tensordot_symmetric] is not among
    the sources.  Sectors of the two operands whose charges agree on the
    contracted axes are matched, their blocks are contracted by the
    backend and summed into the sector made of the uncontracted charges of
    [a] followed by those of [b]; unequal lengths and axes out of range are
    argument errors. *)
Definition tensordot_symmetric (a b : SymmetricArray)
    (axes_a axes_b : list nat) : result SymmetricArray :=
  if decide (length axes_a ≠ length axes_b) then Raise ValueError
  else if decide (Forall (λ ax, ax < ndim a)%nat axes_a
                  ∧ Forall (λ ax, ax < ndim b)%nat axes_b) then
    let left_axes := without (seq 0 (ndim a)) axes_a in
    let right_axes := without (seq 0 (ndim b)) axes_b in
    new_blocks ←
      foldM (λ acc sa,
        foldM (λ acc sb,
          ka ← permuted sa.1 axes_a;
          kb ← permuted sb.1 axes_b;
          if decide (ka = kb) then
            ua ← permuted sa.1 left_axes;
            ub ← permuted sb.1 right_axes;
            let k := ua ++ ub in
            let blk := b_tensordot sa.2 sb.2 axes_a axes_b in
            Ok (match acc !! k with
                | Some old => <[k := b_add old blk]> acc
                | None => <[k := blk]> acc
                end)
          else Ok acc) acc (map_to_list (blocks b)))
        ∅ (map_to_list (blocks a));
    ixs_a ← permuted (indices a) left_axes;
    ixs_b ← permuted (indices b) right_axes;
    Ok {| indices := ixs_a ++ ixs_b;
          charge_total := combine (charge_total a) (charge_total b);
          blocks := new_blocks |}
  else Raise ValueError.

(** [tuple(ax for ax in axes if indices[ax].flow == dual)] *)
Definition axes_with_flow (ixs : list BlockIndex) (dual : bool)
    (axes : list nat) : result (list nat) :=
  foldM (λ acc ax, ix ← getitem ixs ax;
                   Ok (if decide (flow ix = dual) then acc ++ [ax] else acc))
        [] axes.

Definition tensordot_fermionic (a b : FermionicArray) (axes : axes_arg)
  : result FermionicArray :=
  let ndim_a := ndim a in
  let ndim_b := ndim b in
  parsed ← parse_axes ndim_a ndim_b axes;
  let axes_a := parsed.1 in
  let axes_b := parsed.2 in
  let left_axes := without (zrange 0 (Z.of_nat ndim_a)) axes_a in
  let right_axes := without (zrange 0 (Z.of_nat ndim_b)) axes_b in
  let ncon := length axes_a in
  perm_a ← as_axes (left_axes ++ axes_a);
  perm_b ← as_axes (axes_b ++ right_axes);
  a ← transpose a (Some perm_a) true;
  b ← transpose b (Some perm_b) true;
  new_axes_a ←
    as_axes (zrange (Z.of_nat ndim_a - Z.of_nat ncon) (Z.of_nat ndim_a));
  let new_axes_b := seq 0 ncon in
  b ← phase_virtual_transpose b
        (Some (reverse (seq 0 ncon) ++ seq ncon (ndim (base b) - ncon)));
  ab ←
    (if decide (size (base a) ≤ size (base b))%nat then
       axs_flip ← axes_with_flow (indices a) true new_axes_a;
       a ← phase_flip a axs_flip;
       Ok (a, b)
     else
       axs_flip ← axes_with_flow (indices b) false new_axes_b;
       b ← phase_flip b axs_flip;
       Ok (a, b));
  a ← phase_resolve ab.1;
  b ← phase_resolve ab.2;
  c ← tensordot_symmetric (base a) (base b) new_axes_a new_axes_b;
  Ok {| base := c; phases := ∅ |}.

(** ** The contraction procedure in the words of the specification

    The five steps of the fermionic contraction, one definition per step.
    [dual_b] is the flow that marks the contracted axes of [b] to flip when
    [b] is the smaller operand: the specification flips the dual axes of the
    operand it picks, whichever it is. *)

(** Step 1: [a] to [uncontracted, contracted] and [b] to
    [contracted, uncontracted], with phases. *)
Definition stage_transpose (a b : FermionicArray) (axes_a axes_b : list Z)
  : result (FermionicArray * FermionicArray) :=
  perm_a ← as_axes (without (zrange 0 (Z.of_nat (ndim a))) axes_a ++ axes_a);
  perm_b ← as_axes (axes_b ++ without (zrange 0 (Z.of_nat (ndim b))) axes_b);
  a' ← transpose a (Some perm_a) true;
  b' ← transpose b (Some perm_b) true;
  Ok (a', b').

(** Step 2: the contracted axes of [b], which come first, are reversed
    virtually. *)
Definition stage_virtual_reverse (b : FermionicArray) (ncon : nat)
  : result FermionicArray :=
  phase_virtual_transpose b
    (Some (reverse (seq 0 ncon) ++ seq ncon (ndim b - ncon))).

(** Step 3: the smaller operand gets a [phase_flip] on the contracted axes
    selected by their flow. *)
Definition stage_flip (dual_b : bool) (a b : FermionicArray)
    (axes_a axes_b : list nat) : result (FermionicArray * FermionicArray) :=
  if decide (size a ≤ size b)%nat then
    axs ← axes_with_flow (indices a) true axes_a;
    a' ← phase_flip a axs;
    Ok (a', b)
  else
    axs ← axes_with_flow (indices b) dual_b axes_b;
    b' ← phase_flip b axs;
    Ok (a, b').

(** Step 4: the phases of both operands are resolved. *)
Definition stage_resolve (a b : FermionicArray)
  : result (FermionicArray * FermionicArray) :=
  a' ← phase_resolve a;
  b' ← phase_resolve b;
  Ok (a', b').

Definition tensordot_staged (dual_b : bool) (a b : FermionicArray)
    (axes : axes_arg) : result FermionicArray :=
  parsed ← parse_axes (ndim a) (ndim b) axes;
  let ncon := length parsed.1 in
  let new_axes_b := seq 0 ncon in
  ab ← stage_transpose a b parsed.1 parsed.2;
  new_axes_a ←
    as_axes (zrange (Z.of_nat (ndim a) - Z.of_nat ncon) (Z.of_nat (ndim a)));
  b' ← stage_virtual_reverse ab.2 ncon;
  ab ← stage_flip dual_b ab.1 b' new_axes_a new_axes_b;
  ab ← stage_resolve ab.1 ab.2;
  c ← tensordot_symmetric (base ab.1) (base ab.2) new_axes_a new_axes_b;
  Ok {| base := c; phases := ∅ |}.

(** The procedure as the specification words it: the smaller operand is
    flipped on its contracted axes that are dual. *)
Definition tensordot_staged_spec : FermionicArray → FermionicArray →
    axes_arg → result FermionicArray :=
  tensordot_staged true.

(** An index of an explicit axis list is in range when Python accepts it
    on a tuple of length [n]. *)
Definition axis_in_range (n : nat) (x : Z) : Prop :=
  - Z.of_nat n ≤ x < Z.of_nat n.

(** ** Well-formed arrays *)

(** The sign of the permutation restricted to the odd-parity axes, as a
    total function: the value of [calc_phase_permutation] when every axis
    is in range. *)
Definition perm_sign (parities : list bool) (perm : list nat) : Z :=
  if Nat.odd (inversions (filter (λ a, parities !! a = Some true) perm))
  then -1 else 1.

(** Every stored sector has one charge per axis. *)
Definition sectors_ranked (x : SymmetricArray) : Prop :=
  ∀ s, is_Some (blocks x !! s) → length s = ndim x.

(** Every stored block has one dense axis per index. *)
Definition blocks_ranked (x : SymmetricArray) : Prop :=
  ∀ s b, blocks x !! s = Some b → b_ndim b = ndim x.

(** Every key of the phase dictionary has one charge per axis. *)
Definition phases_ranked (x : FermionicArray) : Prop :=
  ∀ s, is_Some (phases x !! s) → length s = ndim x.

(** Only non-trivial signs are stored. *)
Definition phases_sparse (ph : gmap sector Z) : Prop :=
  ∀ s v, ph !! s = Some v → v = -1.

(** The keys of the phase dictionary are stored sectors. *)
Definition phases_keyed (ph : gmap sector Z) (bs : gmap sector block) : Prop :=
  ∀ s, is_Some (ph !! s) → is_Some (bs !! s).

Definition phase_invariant (x : FermionicArray) : Prop :=
  phases_sparse (phases x) ∧ phases_keyed (phases x) (blocks x).

(** Phase values are signs. *)
Definition phases_signs (ph : gmap sector Z) : Prop :=
  ∀ s v, ph !! s = Some v → v = 1 ∨ v = -1.

(** The entry [transpose] stores for a sector when it computes phases. *)
Definition transposed_phase (ph : gmap sector Z) (axes : list nat)
    (s : sector) : option Z :=
  if decide (phases_get ph s * perm_sign (map parity s) axes = -1)
  then Some (-1) else None.

(** A sign multiplied into an entry of the phase dictionary, a trivial
    product being dropped. *)
Definition bump (c : Z) (o : option Z) : option Z :=
  let v := default 1 o * c in
  if decide (v = 1) then None else Some v.

(** What [phase_resolve] does to the block of a sector. *)
Definition resolve_block (ph : gmap sector Z) (s : sector)
    (o : option block) : option block :=
  if decide (ph !! s = Some (-1)) then b_neg <$> o else o.

End Arrays.

(** ** A reference backend: dense blocks of Gaussian integers

    A block of rank [r] is a finite map from multi-indices of length [r] to
    entries [re + i*im]; it stands for the arrays of the numeric backend
    wherever a statement has to be evaluated. *)

Module GaussBackend.

Definition entry : Type := Z * Z.

Definition e_neg (x : entry) : entry := (- x.1, - x.2).
Definition e_conj (x : entry) : entry := (x.1, - x.2).
Definition e_add (x y : entry) : entry := (x.1 + y.1, x.2 + y.2).
Definition e_mul (x y : entry) : entry :=
  (x.1 * y.1 - x.2 * y.2, x.1 * y.2 + x.2 * y.1).

Record gblock : Type := mkGBlock {
  g_rank : nat;
  g_data : gmap (list nat) entry;
}.

(** The place of a multi-index after a transposition: multi-indices of the
    rank of the block are permuted, any other key stays where it is. *)
Definition move_index (r : nat) (axes : list nat) (k : list nat) : list nat :=
  if decide (length k = r) then take_at k axes else k.

(** Axes that are no permutation of the axes of the block leave it
    alone. *)
Definition g_transpose (b : gblock) (axes : option (list nat)) : gblock :=
  let axes :=
    match axes with
    | Some axes => axes
    | None => reverse (seq 0 (g_rank b))
    end in
  if decide (axes ≡ₚ seq 0 (g_rank b)) then
    {| g_rank := g_rank b;
       g_data := kmap (move_index (g_rank b) axes) (g_data b) |}
  else b.

Definition g_tensordot (x y : gblock) (axes_x axes_y : list nat) : gblock :=
  let left_axes := filter (λ ax, ax ∉ axes_x) (seq 0 (g_rank x)) in
  let right_axes := filter (λ ax, ax ∉ axes_y) (seq 0 (g_rank y)) in
  {| g_rank := length left_axes + length right_axes;
     g_data :=
       foldl (λ acc kx,
         foldl (λ acc ky,
           if decide (take_at kx.1 axes_x = take_at ky.1 axes_y) then
             let k := take_at kx.1 left_axes ++ take_at ky.1 right_axes in
             let v := e_mul kx.2 ky.2 in
             <[k := match acc !! k with
                    | Some old => e_add old v
                    | None => v
                    end]> acc
           else acc) acc (map_to_list (g_data y)))
         ∅ (map_to_list (g_data x)) |}.

Definition g_add (x y : gblock) : gblock :=
  {| g_rank := g_rank x;
     g_data := union_with (λ u v, Some (e_add u v)) (g_data x) (g_data y) |}.

#[global] Instance gauss_backend : Backend gblock := {|
  b_ndim := g_rank;
  b_neg := λ b, {| g_rank := g_rank b; g_data := e_neg <$> g_data b |};
  b_conj := λ b, {| g_rank := g_rank b; g_data := e_conj <$> g_data b |};
  b_transpose := g_transpose;
  b_tensordot := g_tensordot;
  b_add := g_add;
|}.

End GaussBackend.

(** ** Sample arrays over the two-element group *)

Module Samples.
Import GaussBackend.

Abbreviation Z2Fermionic := (@FermionicArray Z _ _ gblock).

(** An axis with one even and one odd state. *)
Definition ix (dual : bool) : @BlockIndex Z :=
  {| chargemap := [(0, 1%nat); (1, 1%nat)]; flow := dual |}.

(** A block of rank [r] with the one entry [v] at the origin. *)
Definition point (r : nat) (v : entry) : gblock :=
  {| g_rank := r; g_data := {[ replicate r 0%nat := v ]} |}.

(** A vector of odd parity: one axis, total charge 1, the sector [(1,)]. *)
Definition odd_vector (dual : bool) : Z2Fermionic :=
  {| base := {| indices := [ix dual]; charge_total := 1;
                blocks := {[ [1] := point 1 (2, 3) ]} |};
     phases := ∅ |}.

(** A matrix of even parity with the sectors [(0,0)] and [(1,1)], the second
    one carrying a buffered sign. *)
Definition even_matrix (dual0 dual1 : bool) : Z2Fermionic :=
  {| base := {| indices := [ix dual0; ix dual1]; charge_total := 0;
                blocks := {[ [0; 0] := point 2 (1, 1);
                             [1; 1] := point 2 (5, -2) ]} |};
     phases := {[ [1; 1] := -1 ]} |}.

(** What a result shows: flows, blocks as association lists, phases. *)
Definition observe (r : result Z2Fermionic)
  : result (list bool * list (list Z * list (list nat * entry))
            * list (list Z * Z)) :=
  match r with
  | Ok x =>
      Ok (map flow (indices x),
          map_to_list (map_to_list <$> (g_data <$> blocks x)),
          map_to_list (phases x))
  | Raise e => Raise e
  end.

End Samples.

(** ** The rest of the fermionic layer *)

(** What the algebra of the operations asks of the dense arrays of the
    backend: negating twice, conjugating twice and taking the conjugate
    transpose twice give the array back. *)
Class InvolutionLaws (block : Type) `{Backend block} : Prop := {
  b_neg_neg b : b_neg (b_neg b) = b;
  b_conj_conj b : b_conj (b_conj b) = b;
  b_adjoint_adjoint b :
    b_transpose (b_conj (b_transpose (b_conj b) None)) None = b;
}.

(** Two transpositions of a dense array in a row are the transposition by
    the composed axes: axis [j] of the result is axis [p[q[j]]] of the
    array. *)
Class CompositionLaws (block : Type) `{Backend block} : Prop := {
  b_transpose_compose b p q :
    p ≡ₚ seq 0 (b_ndim b) → q ≡ₚ seq 0 (b_ndim b) →
    b_transpose (b_transpose b (Some p)) (Some q)
    = b_transpose b (Some (take_at p q));
}.

(** Negation of a dense array goes through its transposition. *)
Class LinearityLaws (block : Type) `{Backend block} : Prop := {
  b_neg_transpose b axes :
    b_neg (b_transpose b axes) = b_transpose (b_neg b) axes;
}.

Section Dense.
Context {charge : Type} `{Countable charge} {Sym : Symmetry charge}.
Context {block : Type} {BE : Backend block}.

(** [SymmetricArray.to_dense] belongs to [symmetric_core], which is not
    among the sources: the sign-unaware conversion is taken as given. *)
Variable dense : Type.
Variable SymmetricArray_to_dense :
  @SymmetricArray charge _ _ block → result dense.

(** [FermionicArray.to_dense] *)
Definition to_dense (self : @FermionicArray charge _ _ block) : result dense :=
  resolved ← phase_resolve self;
  SymmetricArray_to_dense (base resolved).

End Dense.

Section Vocabulary.
Context {charge : Type} `{Countable charge} {Sym : Symmetry charge}.
Context {block : Type} {BE : Backend block}.

(** Whether the charges of a sector at the given axes add up to an odd
    parity: the truth value of [sum(parity(sector[ax]) for ax in axs) % 2]
    when every axis is in range. *)
Definition odd_on (s : list charge) (axs : list nat) : bool :=
  Nat.odd (sum_list_with
             (λ ax, Nat.b2n (default false (parity <$> s !! ax))) axs).

(** A sign flipped in an entry of the phase dictionary: a missing entry
    counts as +1 and an entry that becomes +1 is removed. *)
Definition flipped (o : option Z) : option Z :=
  if decide (default 1 o = -1) then None else Some (- default 1 o).

(** What [phase_flip] does to the entry of a stored sector. *)
Definition flip_entry (s : list charge) (axs : list nat) (o : option Z)
  : option Z :=
  if odd_on s axs then flipped o else o.

(** The block [dagger] stores for a block: the transpose of its
    conjugate. *)
Definition b_adjoint (b : block) : block := b_transpose (b_conj b) None.

(** The sign [conj] multiplies into the phase of a sector: the sign of the
    reversal of all axes times -1 when the charges at the axes that are dual
    after the conjugation have an odd parity. *)
Definition conj_sign (ixs : list (@BlockIndex charge)) (s : list charge) : Z :=
  perm_sign (map parity s) (reverse (seq 0 (length s)))
  * (if odd_on s (flow_axes (map ix_conj ixs)) then -1 else 1).

(** Two arrays that stand for the same array once their buffered signs are
    multiplied in: both are well formed and [phase_resolve] gives the same
    array for both. *)
Definition resolves_alike (x x' : @FermionicArray charge _ _ block) : Prop :=
  (sectors_ranked x ∧ phase_invariant x)
  ∧ (sectors_ranked x' ∧ phase_invariant x')
  ∧ ∃ r, phase_resolve x = Ok r ∧ phase_resolve x' = Ok r.

End Vocabulary.

(** ** Sample arrays for the edge cases *)

Module EdgeSamples.
Import GaussBackend Samples.

(** A vector whose phase dictionary names the sector [(0,)], which has no
    block. *)
Definition stale_vector (v : Z) : Z2Fermionic :=
  {| base := {| indices := [ix false]; charge_total := 1;
                blocks := {[ [1] := point 1 (2, 3) ]} |};
     phases := {[ [0] := v ]} |}.

(** An array of rank zero: no index and one block under the empty sector. *)
Definition scalar : Z2Fermionic :=
  {| base := {| indices := []; charge_total := 0;
                blocks := {[ [] := point 0 (7, 0) ]} |};
     phases := ∅ |}.

(** A vector that stores no block. *)
Definition empty_vector : Z2Fermionic :=
  {| base := {| indices := [ix false]; charge_total := 0; blocks := ∅ |};
     phases := ∅ |}.

End EdgeSamples.

(** * Properties *)

Arguments permuted : simpl never.
Arguments calc_phase_permutation : simpl never.
Arguments SymmetricArray_transpose : simpl never.
Arguments take_at : simpl never.

(** ** Loops and tuples *)

Section Loops.
Context {A B : Type}.

Lemma foldM_pure (f : B → A → result B) (h : B → A → B) (l : list A) (b : B) :
  (∀ b a, a ∈ l → f b a = Ok (h b a)) → foldM f b l = Ok (foldl h b l).
Proof.
  revert b. induction l as [|a l IH]; intros b Hf; [done|].
  cbn. rewrite Hf by left. cbn. apply IH.
  intros b' a' Ha'. apply Hf. by right.
Qed.

Lemma foldM_pure_inv (P : B → Prop) (f : B → A → result B) (h : B → A → B)
    (l : list A) (b : B) :
  P b → (∀ b a, a ∈ l → P b → f b a = Ok (h b a) ∧ P (h b a)) →
  foldM f b l = Ok (foldl h b l) ∧ P (foldl h b l).
Proof.
  revert b. induction l as [|a l IH]; intros b Hb Hf; [done|].
  destruct (Hf b a) as [Heq Hb']; [by left|done|].
  cbn. rewrite Heq. cbn. apply IH; [done|].
  intros b' a' Ha'. apply Hf. by right.
Qed.

Lemma foldM_inv (P : B → Prop) (f : B → A → result B) (l : list A) (b r : B) :
  P b → (∀ b a b', a ∈ l → P b → f b a = Ok b' → P b') →
  foldM f b l = Ok r → P r.
Proof.
  revert b. induction l as [|a l IH]; intros b Hb Hf; cbn.
  - by intros [= <-].
  - destruct (f b a) as [b'|] eqn:Hfa; [|done]. cbn.
    apply IH; [by eapply Hf; [left|..]|].
    intros b1 a1 b2 Ha1. apply Hf. by right.
Qed.

Lemma foldl_inv (P : B → Prop) (h : B → A → B) (l : list A) (b : B) :
  P b → (∀ b a, a ∈ l → P b → P (h b a)) → P (foldl h b l).
Proof.
  revert b. induction l as [|a l IH]; intros b Hb Hh; [done|].
  cbn. apply IH; [apply Hh; [left|done]|].
  intros b1 a1 Ha1. apply Hh. by right.
Qed.

Lemma foldM_returns (f : B → A → result B) (l : list A) (b : B) :
  (∀ b a, a ∈ l → ∃ b', f b a = Ok b') → ∃ r, foldM f b l = Ok r.
Proof.
  revert b. induction l as [|a l IH]; intros b Hf; [by exists b|].
  destruct (Hf b a) as [b' Hb']; [by left|].
  cbn. rewrite Hb'. cbn. apply IH. intros b1 a1 Ha1. apply Hf. by right.
Qed.

Lemma foldl_ext_in (h h' : B → A → B) (l : list A) (b : B) :
  (∀ b a, a ∈ l → h b a = h' b a) → foldl h b l = foldl h' b l.
Proof.
  revert b. induction l as [|a l IH]; intros b Hh; [done|].
  cbn. rewrite Hh by left. apply IH. intros; apply Hh; by right.
Qed.

End Loops.

Lemma bind_Ok {A B} (m : result A) (f : A → result B) (b : B) :
  m ≫= f = Ok b → ∃ a, m = Ok a ∧ f a = Ok b.
Proof. destruct m as [a|e]; [by exists a|done]. Qed.

Lemma getitem_Some {A} (it : list A) i a : it !! i = Some a → getitem it i = Ok a.
Proof. unfold getitem. by intros ->. Qed.

Lemma getitem_lt {A} (it : list A) i :
  (i < length it)%nat → ∃ a, it !! i = Some a ∧ getitem it i = Ok a.
Proof.
  intros Hi. destruct (lookup_lt_is_Some_2 it i Hi) as [a Ha].
  exists a. split; [done|]. by apply getitem_Some.
Qed.

Lemma mapM_returns {A B} (f : A → result B) (l : list A) :
  (∀ a, a ∈ l → ∃ b, f a = Ok b) → ∃ r, mapM f l = Ok r.
Proof.
  induction l as [|a l IH]; intros Hf; [by eexists|].
  destruct (Hf a) as [b Hb]; [by left|].
  destruct IH as [r Hr]; [intros; apply Hf; by right|].
  exists (b :: r).
  change (mapM f (a :: l)) with (y ← f a; k ← mapM f l; mret (y :: k)).
  by rewrite Hb, Hr.
Qed.

Lemma mapM_Ok {A B} (f : A → result B) (g : A → B) (l : list A) :
  (∀ a, a ∈ l → f a = Ok (g a)) → mapM f l = Ok (map g l).
Proof.
  induction l as [|a l IH]; intros Hf; [done|].
  cbn. rewrite Hf by left. cbn. rewrite IH; [done|].
  intros; apply Hf; by right.
Qed.

Lemma take_at_nil {A} (it : list A) : take_at it [] = [].
Proof. done. Qed.

Lemma take_at_cons {A} (it : list A) a perm c :
  it !! a = Some c → take_at it (a :: perm) = c :: take_at it perm.
Proof. unfold take_at. cbn. by intros ->. Qed.

Lemma permuted_Ok {A} (it : list A) (perm : list nat) :
  Forall (λ a, a < length it)%nat perm → permuted it perm = Ok (take_at it perm).
Proof.
  unfold permuted. induction 1 as [|a perm Ha _ IH]; [done|].
  destruct (getitem_lt it a Ha) as (c & Hc & Hg).
  rewrite (take_at_cons _ _ _ _ Hc).
  change (mapM (getitem it) (a :: perm))
    with (y ← getitem it a; k ← mapM (getitem it) perm; mret (y :: k)).
  by rewrite Hg, IH.
Qed.

Lemma take_at_lookup {A} (it : list A) (perm : list nat) i :
  Forall (λ a, a < length it)%nat perm →
  take_at it perm !! i = perm !! i ≫= λ a, it !! a.
Proof.
  intros Hperm. revert i. induction Hperm as [|a perm Ha _ IH]; intros i.
  - done.
  - destruct (getitem_lt it a Ha) as (c & Hc & _).
    rewrite (take_at_cons _ _ _ _ Hc). destruct i as [|i]; cbn; [done|].
    apply IH.
Qed.

Lemma take_at_length {A} (it : list A) (perm : list nat) :
  Forall (λ a, a < length it)%nat perm → length (take_at it perm) = length perm.
Proof.
  induction 1 as [|a perm Ha _ IH]; [done|].
  destruct (getitem_lt it a Ha) as (c & Hc & _).
  rewrite (take_at_cons _ _ _ _ Hc). cbn. by rewrite IH.
Qed.

(** ** Permutations of [range(n)] *)

Lemma is_perm_length p n : is_perm p n → length p = n.
Proof. intros Hp. rewrite Hp. apply length_seq. Qed.

Lemma is_perm_elem p n a : is_perm p n → a ∈ p ↔ (a < n)%nat.
Proof. intros Hp. rewrite Hp, elem_of_seq. lia. Qed.

Lemma is_perm_NoDup p n : is_perm p n → NoDup p.
Proof. intros Hp. rewrite Hp. apply NoDup_seq. Qed.

Lemma is_perm_Forall p n : is_perm p n → Forall (λ a, a < n)%nat p.
Proof.
  intros Hp. apply Forall_forall. intros a Ha. by apply (is_perm_elem p n a Hp).
Qed.

Lemma is_perm_lookup_lt p n i a : is_perm p n → p !! i = Some a → (a < n)%nat.
Proof.
  intros Hp Hi. apply (is_perm_elem p n a Hp). by eapply list_elem_of_lookup_2.
Qed.

Lemma is_perm_surj p n j : is_perm p n → (j < n)%nat → ∃ i, p !! i = Some j.
Proof.
  intros Hp Hj. apply list_elem_of_lookup. by apply (is_perm_elem p n j Hp).
Qed.

Lemma inverse_perm_lookup p n i j :
  is_perm p n → p !! i = Some j → inverse_perm p !! j = Some i.
Proof.
  intros Hp Hi. unfold inverse_perm.
  pose proof (is_perm_lookup_lt _ _ _ _ Hp Hi) as Hj.
  rewrite (is_perm_length p n Hp).
  rewrite list_lookup_fmap, lookup_seq_lt by done. cbn.
  destruct (list_find (λ a, a = j) p) as [[i' a']|] eqn:Hfind.
  - apply list_find_Some in Hfind as (Hi' & -> & _). cbn. f_equal.
    eapply NoDup_lookup; eauto using is_perm_NoDup.
  - apply list_find_None in Hfind. rewrite Forall_forall in Hfind.
    exfalso. eapply Hfind; [by eapply list_elem_of_lookup_2|done].
Qed.

Lemma inverse_perm_lookup_inv p n i j :
  is_perm p n → inverse_perm p !! j = Some i → p !! i = Some j.
Proof.
  intros Hp Hj.
  assert (j < n)%nat as Hlt.
  { apply lookup_lt_Some in Hj. unfold inverse_perm in Hj.
    rewrite length_map, length_seq, (is_perm_length p n Hp) in Hj. done. }
  destruct (is_perm_surj p n j Hp Hlt) as [i' Hi'].
  pose proof (inverse_perm_lookup p n i' j Hp Hi') as Hj'.
  congruence.
Qed.

Lemma inverse_perm_is_perm p n : is_perm p n → is_perm (inverse_perm p) n.
Proof.
  intros Hp. unfold is_perm. symmetry.
  apply submseteq_length_Permutation.
  - apply NoDup_submseteq; [apply NoDup_seq|].
    intros i Hi. apply elem_of_seq in Hi as [_ Hi]. cbn in Hi.
    assert (i < length p)%nat as Hi' by (by rewrite (is_perm_length p n Hp)).
    destruct (lookup_lt_is_Some_2 p i Hi') as [j Hj].
    eapply list_elem_of_lookup_2. by eapply inverse_perm_lookup.
  - unfold inverse_perm. rewrite length_map, !length_seq.
    by rewrite (is_perm_length p n Hp).
Qed.

Lemma take_at_inverse {A} (s : list A) p q n :
  is_perm p n → length q = n → length s = n →
  (∀ i j, p !! i = Some j → q !! j = Some i) →
  take_at (take_at s p) q = s.
Proof.
  intros Hp Hq Hs Hinv.
  assert (Forall (λ a, a < length s)%nat p) as Hps.
  { rewrite Hs. by apply is_perm_Forall. }
  assert (∀ j i, q !! j = Some i → p !! i = Some j) as Hinv'.
  { intros j i Hj.
    assert (j < n)%nat as Hlt by (apply lookup_lt_Some in Hj; lia).
    destruct (is_perm_surj p n j Hp Hlt) as [i' Hi'].
    pose proof (Hinv _ _ Hi'). congruence. }
  assert (Forall (λ a, a < length (take_at s p))%nat q) as Hqs.
  { rewrite take_at_length, (is_perm_length p n Hp) by done.
    apply Forall_forall. intros i Hi.
    apply list_elem_of_lookup in Hi as [j Hj].
    apply Hinv' in Hj. apply lookup_lt_Some in Hj.
    by rewrite (is_perm_length p n Hp) in Hj. }
  apply list_eq. intros j.
  rewrite take_at_lookup by done.
  destruct (q !! j) as [i|] eqn:Hj; cbn.
  - rewrite take_at_lookup by done. rewrite (Hinv' _ _ Hj). done.
  - symmetry. apply lookup_ge_None. apply lookup_ge_None in Hj. lia.
Qed.

Lemma take_at_inj {A} (s s' : list A) p n :
  is_perm p n → length s = n → length s' = n →
  take_at s p = take_at s' p → s = s'.
Proof.
  intros Hp Hs Hs' Heq.
  rewrite <- (take_at_inverse s p (inverse_perm p) n), <- (take_at_inverse s' p (inverse_perm p) n);
    try done.
  - by rewrite Heq.
  - apply is_perm_length. by apply inverse_perm_is_perm.
  - intros; by eapply inverse_perm_lookup.
  - apply is_perm_length. by apply inverse_perm_is_perm.
  - intros; by eapply inverse_perm_lookup.
Qed.

(** ** Counting inversions *)

Section Counting.
Local Open Scope nat_scope.
Implicit Types (R : nat → nat → bool) (l : list nat).

Lemma sum_list_with_ext_in {A} (f g : A → nat) (l : list A) :
  (∀ a, a ∈ l → f a = g a) → sum_list_with f l = sum_list_with g l.
Proof.
  induction l as [|a l IH]; intros Hfg; [done|].
  cbn. rewrite Hfg by left. rewrite IH; [done|]. intros; apply Hfg; by right.
Qed.

Lemma sum_list_with_add {A} (f g : A → nat) (l : list A) :
  sum_list_with (λ a, f a + g a) l = sum_list_with f l + sum_list_with g l.
Proof. induction l as [|a l IH]; cbn; [done|]. rewrite IH. lia. Qed.

Lemma sum_list_with_zero {A} (l : list A) : sum_list_with (λ _, 0) l = 0.
Proof. induction l; cbn; auto. Qed.

Lemma sum_list_with_filter {A} (P : A → Prop) `{∀ a, Decision (P a)}
    (f : A → nat) (l : list A) :
  sum_list_with f (filter P l)
  = sum_list_with (λ a, if decide (P a) then f a else 0) l.
Proof.
  induction l as [|a l IH]; [done|].
  rewrite filter_cons. cbn. destruct (decide (P a)); cbn; by rewrite IH.
Qed.

Lemma length_filter_sum {A} (P : A → Prop) `{∀ a, Decision (P a)} (l : list A) :
  length (filter P l) = sum_list_with (λ a, Nat.b2n (bool_decide (P a))) l.
Proof.
  induction l as [|a l IH]; [done|].
  rewrite filter_cons. cbn. destruct (decide (P a)) as [Ha|Ha].
  - rewrite bool_decide_eq_true_2 by done. cbn. by rewrite IH.
  - rewrite bool_decide_eq_false_2 by done. cbn. by rewrite IH.
Qed.

Lemma sum_list_with_swap {A B} (f : A → B → nat) (l : list A) (k : list B) :
  sum_list_with (λ a, sum_list_with (λ b, f a b) k) l
  = sum_list_with (λ b, sum_list_with (λ a, f a b) l) k.
Proof.
  induction l as [|a l IH]; cbn.
  - by rewrite sum_list_with_zero.
  - by rewrite IH, sum_list_with_add.
Qed.

Lemma inversions_cnt l : inversions l = cnt (λ x y, bool_decide (y < x)) l.
Proof.
  induction l as [|x l IH]; [done|]. cbn. by rewrite IH, length_filter_sum.
Qed.

Lemma cnt_ext_in R R' l :
  (∀ x y, x ∈ l → y ∈ l → R x y = R' x y) → cnt R l = cnt R' l.
Proof.
  induction l as [|x l IH]; intros Hext; [done|]. cbn. f_equal.
  - apply sum_list_with_ext_in. intros y Hy. rewrite Hext; [done|left|by right].
  - apply IH. intros; apply Hext; by right.
Qed.

Lemma sum_list_with_map {A B} (f : B → nat) (g : A → B) (l : list A) :
  sum_list_with f (map g l) = sum_list_with (λ a, f (g a)) l.
Proof. induction l as [|a l IH]; cbn; [done|]. by rewrite IH. Qed.

Lemma cnt_map R (f : nat → nat) l :
  cnt R (map f l) = cnt (λ x y, R (f x) (f y)) l.
Proof.
  induction l as [|x l IH]; [done|]. cbn.
  by rewrite IH, sum_list_with_map.
Qed.

Lemma cnt_filter R (P : nat → Prop) `{∀ a, Decision (P a)} l :
  cnt R (filter P l)
  = cnt (λ x y, bool_decide (P x) && bool_decide (P y) && R x y) l.
Proof.
  induction l as [|x l IH]; [done|].
  rewrite filter_cons. cbn. destruct (decide (P x)) as [Hx|Hx].
  - cbn. rewrite IH. f_equal. rewrite sum_list_with_filter.
    apply sum_list_with_ext_in. intros y _.
    rewrite (bool_decide_eq_true_2 _ Hx). cbn.
    destruct (decide (P y)) as [Hy|Hy];
      [by rewrite bool_decide_eq_true_2|by rewrite bool_decide_eq_false_2].
  - rewrite IH. rewrite (bool_decide_eq_false_2 _ Hx). cbn.
    by rewrite sum_list_with_zero.
Qed.

(** With the position of every entry at hand, the pairs in list order are
    the pairs of [tot] whose positions increase. *)
Lemma cnt_tot R (pos : nat → nat) l off :
  (∀ i x, l !! i = Some x → pos x = off + i) →
  cnt R l = tot (λ x y, R x y && bool_decide (pos x < pos y)) l.
Proof.
  revert off. induction l as [|a l IH]; intros off Hpos; [done|].
  unfold tot. cbn.
  assert (pos a = off) as Ha by (rewrite (Hpos 0 a eq_refl); lia).
  assert (∀ y, y ∈ l → off < pos y) as Hl.
  { intros y [j Hj]%list_elem_of_lookup. rewrite (Hpos (S j) y Hj). lia. }
  rewrite bool_decide_eq_false_2 by lia. rewrite andb_false_r. cbn.
  rewrite sum_list_with_add. rewrite Nat.add_assoc. f_equal; [|].
  - rewrite (sum_list_with_ext_in (λ x, Nat.b2n (R x a && bool_decide (pos x < pos a))) (λ _, 0)).
    + rewrite sum_list_with_zero, Nat.add_0_r.
      apply sum_list_with_ext_in. intros y Hy.
      rewrite bool_decide_eq_true_2 by (rewrite Ha; by apply Hl).
      by rewrite andb_true_r.
    + intros x Hx. rewrite bool_decide_eq_false_2; [by rewrite andb_false_r|].
      specialize (Hl x Hx). lia.
  - apply (IH (S off)). intros i x Hi. rewrite (Hpos (S i) x Hi). lia.
Qed.

Lemma tot_Permutation R l k : l ≡ₚ k → tot R l = tot R k.
Proof.
  intros Hlk. unfold tot. rewrite <- Hlk.
  apply sum_list_with_ext_in. intros x _. by rewrite Hlk.
Qed.

Lemma tot_swap R l : tot R l = tot (λ x y, R y x) l.
Proof. unfold tot. apply sum_list_with_swap. Qed.

Lemma tot_ext_in R R' l :
  (∀ x y, x ∈ l → y ∈ l → R x y = R' x y) → tot R l = tot R' l.
Proof.
  intros Hext. unfold tot. apply sum_list_with_ext_in. intros x Hx.
  apply sum_list_with_ext_in. intros y Hy. by rewrite Hext.
Qed.

End Counting.

Section InverseInversions.
Local Open Scope nat_scope.

Lemma inversions_inverse (par : list bool) (p q : list nat) n :
  length par = n → is_perm p n → length q = n →
  (∀ i j, p !! i = Some j → q !! j = Some i) →
  inversions (filter (λ a, par !! a = Some true) p)
  = inversions (filter (λ j, take_at par p !! j = Some true) q).
Proof.
  intros Hpar Hp Hq Hinv.
  set (qf := λ m, default 0 (q !! m)).
  assert (∀ i x, p !! i = Some x → qf x = i) as Hqf.
  { intros i x Hi. unfold qf. by rewrite (Hinv _ _ Hi). }
  assert (∀ m, m < n → p !! qf m = Some m) as Hpq.
  { intros m Hm. destruct (is_perm_surj p n m Hp Hm) as [i Hi].
    by rewrite (Hqf _ _ Hi). }
  assert (q = map qf (seq 0 n)) as Hqmap.
  { apply list_eq. intros m. rewrite list_lookup_fmap.
    destruct (decide (m < n)) as [Hm|Hm].
    - rewrite lookup_seq_lt by done. cbn. unfold qf.
      destruct (lookup_lt_is_Some_2 q m) as [i ->]; [lia|done].
    - rewrite lookup_seq_ge by lia. apply lookup_ge_None. lia. }
  assert (∀ m, m < n →
            bool_decide (take_at par p !! qf m = Some true)
            = bool_decide (par !! m = Some true)) as HO.
  { intros m Hm. rewrite take_at_lookup
      by (rewrite Hpar; by apply is_perm_Forall).
    by rewrite (Hpq m Hm). }
  rewrite !inversions_cnt, !cnt_filter.
  rewrite (cnt_tot _ qf p 0) by (intros i x Hi; by rewrite (Hqf _ _ Hi)).
  rewrite (tot_Permutation _ p (seq 0 n)) by done.
  rewrite Hqmap at 1. rewrite cnt_map.
  rewrite (cnt_tot _ id (seq 0 n) 0).
  2:{ intros i x Hi. apply lookup_seq in Hi as [-> _]. done. }
  rewrite tot_swap. apply tot_ext_in.
  intros x y [_ Hx]%elem_of_seq [_ Hy]%elem_of_seq. cbn in Hx, Hy.
  rewrite (HO x Hx), (HO y Hy). unfold id.
  destruct (bool_decide (par !! x = Some true)),
    (bool_decide (par !! y = Some true)); cbn; try done.
  apply andb_comm.
Qed.

End InverseInversions.

(** ** Dictionaries filled by a loop *)

Section Rekey.
Context `{Countable K} {A V : Type}.
Implicit Types (key : A → K) (val : A → option V) (acc : gmap K V).

Lemma rekey_untouched key val (l : list A) acc k :
  k ∉ key <$> l → foldl (rekey_step key val) acc l !! k = acc !! k.
Proof.
  revert acc. induction l as [|a l IH]; intros acc Hk; [done|].
  rewrite fmap_cons, not_elem_of_cons in Hk. destruct Hk as [Hne Hk].
  cbn. rewrite IH by done. unfold rekey_step.
  destruct (val a); [by rewrite lookup_insert_ne|done].
Qed.

Lemma rekey_touched key val (l : list A) acc a :
  NoDup (key <$> l) → a ∈ l →
  foldl (rekey_step key val) acc l !! key a
  = match val a with Some v => Some v | None => acc !! key a end.
Proof.
  revert acc. induction l as [|a0 l IH]; intros acc Hnd Ha.
  - by apply elem_of_nil in Ha.
  - rewrite fmap_cons, NoDup_cons in Hnd. destruct Hnd as [Hfresh Hnd].
    apply elem_of_cons in Ha as [->|Ha]; cbn.
    + rewrite rekey_untouched by done. unfold rekey_step.
      destruct (val a0); [by rewrite lookup_insert_eq|done].
    + rewrite IH by done.
      assert (key a0 ≠ key a) as Hne.
      { intros Heq. apply Hfresh. rewrite Heq. by apply list_elem_of_fmap_2. }
      unfold rekey_step at 1. destruct (val a), (val a0); try done.
      by rewrite lookup_insert_ne.
Qed.

Lemma rekey_is_Some key val (l : list A) k :
  is_Some (foldl (rekey_step key val) ∅ l !! k) →
  ∃ a, a ∈ l ∧ key a = k ∧ is_Some (val a).
Proof.
  assert (∀ acc, is_Some (foldl (rekey_step key val) acc l !! k) →
            is_Some (acc !! k) ∨ ∃ a, a ∈ l ∧ key a = k ∧ is_Some (val a))
    as Hgen.
  { induction l as [|a l IH]; intros acc Hk; [by left|].
    cbn in Hk. apply IH in Hk as [Hk|(a' & Ha' & Hka' & Hv)].
    - unfold rekey_step in Hk. destruct (val a) as [v|] eqn:Hv.
      + destruct (decide (key a = k)) as [<-|Hne].
        * right. exists a. rewrite Hv. split_and!; [left|done|by eexists].
        * rewrite lookup_insert_ne in Hk by done. by left.
      + by left.
    - right. exists a'. split_and!; [by right|done|done]. }
  intros Hk. apply Hgen in Hk as [Hk|Hk]; [|done].
  rewrite lookup_empty in Hk. by destruct Hk.
Qed.

End Rekey.

(** A dictionary updated in place, once per key of a list. *)
Lemma foldl_partial_alter `{Countable K} {V} (G : K → option V → option V)
    (l : list K) (m : gmap K V) k :
  NoDup l →
  foldl (λ acc s, partial_alter (G s) s acc) m l !! k
  = if decide (k ∈ l) then G k (m !! k) else m !! k.
Proof.
  revert m. induction l as [|s l IH]; intros m Hnd.
  - cbn. case_decide as Hin; [by apply elem_of_nil in Hin|done].
  - apply NoDup_cons in Hnd as [Hfresh Hnd]. cbn. rewrite IH by done.
    destruct (decide (k = s)) as [->|Hne].
    + rewrite decide_False by done. rewrite decide_True by left.
      by rewrite lookup_partial_alter_eq.
    + rewrite lookup_partial_alter_ne by done.
      destruct (decide (k ∈ l)) as [Hin|Hin].
      * by rewrite decide_True by (by right).
      * rewrite decide_False; [done|]. by intros [?|?]%elem_of_cons.
Qed.

(** ** The sign of a permutation of odd axes *)

Lemma odd_subsequence_Ok (parities : list bool) (perm : list nat) :
  Forall (λ a, a < length parities)%nat perm →
  odd_subsequence parities perm
  = Ok (filter (λ a, parities !! a = Some true) perm).
Proof.
  induction 1 as [|a perm Ha _ IH]; [done|].
  destruct (getitem_lt parities a Ha) as (c & Hc & Hg).
  rewrite filter_cons, Hc.
  change (odd_subsequence parities (a :: perm))
    with (p ← getitem parities a; rest ← odd_subsequence parities perm;
          Ok (if p : bool then a :: rest else rest)).
  rewrite Hg, IH.
  destruct c; [by rewrite decide_True|by rewrite decide_False].
Qed.

Section ArrayTheory.
Context {charge : Type} `{Countable charge} {Sym : Symmetry charge}.
Context {block : Type} {BE : Backend block}.
Implicit Types (x y : @FermionicArray charge _ _ block).
Implicit Types (s k : list charge) (axes : list nat).

Lemma calc_phase_permutation_Some (parities : list bool) axes :
  Forall (λ a, a < length parities)%nat axes →
  calc_phase_permutation parities (Some axes) = Ok (perm_sign parities axes).
Proof.
  intros Hax. unfold calc_phase_permutation, perm_sign.
  by rewrite odd_subsequence_Ok.
Qed.

Lemma calc_phase_permutation_None (parities : list bool) :
  calc_phase_permutation parities None
  = Ok (perm_sign parities (reverse (seq 0 (length parities)))).
Proof.
  unfold calc_phase_permutation, perm_sign.
  rewrite odd_subsequence_Ok; [done|].
  apply Forall_forall. intros a Ha.
  rewrite elem_of_reverse, elem_of_seq in Ha. lia.
Qed.

Lemma perm_sign_cases (parities : list bool) axes :
  perm_sign parities axes = 1 ∨ perm_sign parities axes = -1.
Proof. unfold perm_sign. destruct (Nat.odd _); auto. Qed.

Lemma calc_phase_permutation_sign (parities : list bool) o c :
  calc_phase_permutation parities o = Ok c → c = 1 ∨ c = -1.
Proof.
  unfold calc_phase_permutation.
  destruct (odd_subsequence _ _) as [l|]; [|done].
  cbn. intros [= <-]. destruct (Nat.odd _); auto.
Qed.

(** *** Re-keying a dictionary of sectors by a permutation *)

Lemma rekey_sectors_lookup {V W : Type} (m : gmap (list charge) V)
    (val : list charge → V → option W) axes n :
  is_perm axes n → (∀ s, is_Some (m !! s) → length s = n) →
  let m' := foldl (rekey_step (λ kv, take_at kv.1 axes) (λ kv, val kv.1 kv.2))
                  ∅ (map_to_list m) in
  (∀ s, length s = n → m' !! take_at s axes = m !! s ≫= val s)
  ∧ (∀ k, is_Some (m' !! k) →
       ∃ s v, m !! s = Some v ∧ k = take_at s axes ∧ is_Some (val s v)).
Proof.
  intros Hp Hranked m'.
  assert (NoDup ((λ kv : list charge * V, take_at kv.1 axes) <$> map_to_list m))
    as Hnd.
  { apply NoDup_fmap_2_strong; [|apply NoDup_map_to_list].
    intros [s1 v1] [s2 v2] H1%elem_of_map_to_list H2%elem_of_map_to_list Heq.
    cbn in Heq.
    assert (s1 = s2) as ->.
    { eapply take_at_inj; eauto using Hranked. }
    congruence. }
  split.
  - intros s Hs. destruct (m !! s) as [v|] eqn:Hm; cbn.
    + subst m'.
      rewrite (rekey_touched (λ kv : list charge * V, take_at kv.1 axes) _ _ _ (s, v))
        by (done || by apply elem_of_map_to_list).
      cbn. destruct (val s v); [done|apply lookup_empty].
    + subst m'. rewrite rekey_untouched; [apply lookup_empty|].
      intros ([s' v'] & Heq & Hin%elem_of_map_to_list)%list_elem_of_fmap.
      cbn in Heq.
      assert (s = s') as Hss; [|congruence].
      eapply (take_at_inj s s' axes n); [done|done| |done].
      apply Hranked. by eexists.
  - intros k Hk. apply rekey_is_Some in Hk as ([s v] & Hin & <- & Hv).
    apply elem_of_map_to_list in Hin. by exists s, v.
Qed.

Lemma SymmetricArray_transpose_Ok (x : @SymmetricArray charge _ _ block) axes :
  is_perm axes (ndim x) → sectors_ranked x →
  SymmetricArray_transpose x axes
  = Ok {| indices := take_at (indices x) axes;
          charge_total := charge_total x;
          blocks :=
            foldl (rekey_step (λ sb, take_at sb.1 axes)
                     (λ sb, Some (b_transpose sb.2 (Some axes))))
                  ∅ (map_to_list (blocks x)) |}.
Proof.
  intros Hp Hranked. unfold SymmetricArray_transpose.
  rewrite permuted_Ok by (by apply is_perm_Forall). cbn.
  erewrite foldM_pure; [done|].
  intros acc [s b] Hin%elem_of_map_to_list. cbn.
  rewrite permuted_Ok; [done|].
  rewrite (Hranked s) by (by eexists). by apply is_perm_Forall.
Qed.

(** *** [transpose] on a well-formed array *)

Lemma transpose_phases_true_Ok x axes :
  is_perm axes (ndim x) → sectors_ranked x →
  foldM (λ permuted_phases sector,
           let parities := map parity sector in
           perm_phase ← calc_phase_permutation parities (Some axes);
           let new_phase := phases_get (phases x) sector * perm_phase in
           if decide (new_phase = -1) then
             k ← permuted sector axes;
             Ok (<[k := -1]> permuted_phases)
           else Ok permuted_phases)
        ∅ (sectors x)
  = Ok (foldl (rekey_step (λ sb : list charge * block, take_at sb.1 axes)
                 (λ sb, transposed_phase (phases x) axes sb.1))
              ∅ (map_to_list (blocks x))).
Proof.
  intros Hp Hranked.
  erewrite foldM_pure
    with (h := rekey_step (λ s, take_at s axes) (transposed_phase (phases x) axes)).
  - unfold sectors. by rewrite foldl_fmap.
  - intros acc s ([s' b] & -> & Hin%elem_of_map_to_list)%list_elem_of_fmap.
    cbn.
    assert (length s' = ndim x) as Hlen by (apply Hranked; by eexists).
    rewrite calc_phase_permutation_Some
      by (rewrite length_map, Hlen; by apply is_perm_Forall).
    cbn. unfold rekey_step, transposed_phase.
    case_decide; [|done].
    rewrite permuted_Ok; [done|]. rewrite Hlen. by apply is_perm_Forall.
Qed.

Lemma transpose_phases_false_Ok x axes :
  is_perm axes (ndim x) → phases_ranked x →
  foldM (λ acc sp, k ← permuted sp.1 axes; Ok (<[k := sp.2]> acc))
        ∅ (map_to_list (phases x))
  = Ok (foldl (rekey_step (λ sp : list charge * Z, take_at sp.1 axes)
                 (λ sp, Some sp.2))
              ∅ (map_to_list (phases x))).
Proof.
  intros Hp Hranked. apply foldM_pure.
  intros acc [s v] Hin%elem_of_map_to_list. cbn.
  rewrite permuted_Ok; [done|].
  rewrite (Hranked s) by (by eexists). by apply is_perm_Forall.
Qed.

Lemma transpose_Ok x axes (phase : bool) :
  is_perm axes (ndim x) → sectors_ranked x → (phase = false → phases_ranked x) →
  transpose x (Some axes) phase
  = Ok {| base :=
            {| indices := take_at (indices x) axes;
               charge_total := charge_total x;
               blocks :=
                 foldl (rekey_step (λ sb, take_at sb.1 axes)
                          (λ sb, Some (b_transpose sb.2 (Some axes))))
                       ∅ (map_to_list (blocks x)) |};
          phases :=
            if phase then
              foldl (rekey_step (λ sb : list charge * block, take_at sb.1 axes)
                       (λ sb, transposed_phase (phases x) axes sb.1))
                    ∅ (map_to_list (blocks x))
            else
              foldl (rekey_step (λ sp : list charge * Z, take_at sp.1 axes)
                       (λ sp, Some sp.2))
                    ∅ (map_to_list (phases x)) |}.
Proof.
  intros Hp Hranked Hph. unfold transpose.
  rewrite SymmetricArray_transpose_Ok by done.
  destruct phase.
  - by rewrite transpose_phases_true_Ok.
  - by rewrite transpose_phases_false_Ok by auto.
Qed.

(** C3: on a well-formed array and a permutation of its axes, [transpose]
    returns the array whose indices, sector keys and dense blocks are
    permuted by [axes].  With [phase=True] the phase of each stored sector
    is its old phase times [calc_phase_permutation] of its parities, kept
    under the permuted key only when it is -1; with [phase=False] the
    existing phase entries are re-keyed and keep their values. *)
Theorem transpose_spec x axes (phase : bool) :
  is_perm axes (ndim x) → sectors_ranked x → (phase = false → phases_ranked x) →
  ∃ y, transpose x (Some axes) phase = Ok y
    ∧ indices y = take_at (indices x) axes
    ∧ charge_total y = charge_total x
    ∧ (∀ s, length s = ndim x →
         blocks y !! take_at s axes
         = (λ b, b_transpose b (Some axes)) <$> blocks x !! s)
    ∧ (∀ k, is_Some (blocks y !! k) →
         ∃ s, is_Some (blocks x !! s) ∧ k = take_at s axes)
    ∧ (if phase then
         (∀ s, is_Some (blocks x !! s) →
            ∃ c, calc_phase_permutation (map parity s) (Some axes) = Ok c
               ∧ phases y !! take_at s axes
                 = if decide (phases_get (phases x) s * c = -1)
                   then Some (-1) else None)
         ∧ (∀ k, is_Some (phases y !! k) →
              ∃ s, is_Some (blocks x !! s) ∧ k = take_at s axes)
       else
         (∀ s, length s = ndim x →
            phases y !! take_at s axes = phases x !! s)
         ∧ (∀ k, is_Some (phases y !! k) →
              ∃ s, is_Some (phases x !! s) ∧ k = take_at s axes)).
Proof.
  intros Hp Hranked Hph. eexists. split; [by apply transpose_Ok|].
  cbn [base indices charge_total blocks phases].
  destruct (rekey_sectors_lookup (blocks x)
              (λ _ b, Some (b_transpose b (Some axes))) axes (ndim x) Hp Hranked)
    as [Hb1 Hb2].
  split_and!; [done|done| | |].
  - intros s Hs. rewrite Hb1 by done. by destruct (blocks x !! s).
  - intros k Hk. destruct (Hb2 k Hk) as (s & b & Hsb & -> & _).
    exists s. split; [by eexists|done].
  - destruct phase.
    + destruct (rekey_sectors_lookup (blocks x)
                  (λ s _, transposed_phase (phases x) axes s) axes (ndim x)
                  Hp Hranked) as [Hp1 Hp2].
      split.
      * intros s [b Hs].
        assert (length s = ndim x) as Hlen by (apply Hranked; by eexists).
        exists (perm_sign (map parity s) axes). split.
        -- apply calc_phase_permutation_Some.
           rewrite length_map, Hlen. by apply is_perm_Forall.
        -- rewrite Hp1, Hs by done. done.
      * intros k Hk. destruct (Hp2 k Hk) as (s & b & Hsb & -> & _).
        exists s. split; [by eexists|done].
    + destruct (rekey_sectors_lookup (phases x) (λ _ v, Some v) axes (ndim x)
                  Hp (Hph eq_refl)) as [Hp1 Hp2].
      split.
      * intros s Hs. rewrite Hp1 by done. by destruct (phases x !! s).
      * intros k Hk. destruct (Hp2 k Hk) as (s & v & Hsv & -> & _).
        exists s. split; [by eexists|done].
Qed.

(** *** Signs multiplied into the phase dictionary in place *)

Lemma bump_step (ph : gmap (list charge) Z) s c :
  (if decide (phases_get ph s * c = 1) then delete s ph
   else <[s := phases_get ph s * c]> ph)
  = partial_alter (bump c) s ph.
Proof.
  apply map_eq. intros k. unfold bump, phases_get. cbn.
  destruct (decide (k = s)) as [->|Hne].
  - rewrite lookup_partial_alter_eq.
    case_decide; [by rewrite lookup_delete_eq|by rewrite lookup_insert_eq].
  - rewrite lookup_partial_alter_ne by done.
    case_decide; [by rewrite lookup_delete_ne|by rewrite lookup_insert_ne].
Qed.

Lemma NoDup_sectors (x : @SymmetricArray charge _ _ block) : NoDup (sectors x).
Proof. apply NoDup_fst_map_to_list. Qed.

Lemma elem_of_sectors (x : @SymmetricArray charge _ _ block) s :
  s ∈ sectors x ↔ is_Some (blocks x !! s).
Proof.
  unfold sectors. rewrite list_elem_of_fmap. split.
  - intros ([s' b] & -> & Hin%elem_of_map_to_list). by eexists.
  - intros [b Hb]. exists (s, b). split; [done|by apply elem_of_map_to_list].
Qed.

Lemma phase_virtual_transpose_Ok x axes :
  is_perm axes (ndim x) → sectors_ranked x →
  phase_virtual_transpose x (Some axes)
  = Ok (with_phases x
          (foldl (λ ph s, partial_alter (bump (perm_sign (map parity s) axes)) s ph)
                 (phases x) (sectors x))).
Proof.
  intros Hp Hranked. unfold phase_virtual_transpose.
  erewrite foldM_pure; [done|].
  intros ph s Hs%elem_of_sectors. cbv zeta.
  rewrite calc_phase_permutation_Some.
  - cbn. rewrite <- bump_step. by case_decide.
  - rewrite length_map, (Hranked s Hs). by apply is_perm_Forall.
Qed.

(** C4: [phase_virtual_transpose] leaves the indices, the total charge and
    the dictionary of blocks as they are, and the phase entry it leaves at
    a stored sector is the entry that [transpose] with [phase=True] stores
    at the permuted key of that sector. *)
Theorem phase_virtual_transpose_spec x axes :
  is_perm axes (ndim x) → sectors_ranked x → phases_signs (phases x) →
  ∃ y y', phase_virtual_transpose x (Some axes) = Ok y
    ∧ transpose x (Some axes) true = Ok y'
    ∧ base y = base x
    ∧ ∀ s, is_Some (blocks x !! s) →
        phases y !! s = phases y' !! take_at s axes.
Proof.
  intros Hp Hranked Hsigns. eexists _, _.
  split; [by apply phase_virtual_transpose_Ok|].
  split; [by apply transpose_Ok|].
  split; [done|].
  intros s Hs. cbn [phases with_phases].
  assert (length s = ndim x) as Hlen by by apply Hranked.
  rewrite foldl_partial_alter by apply NoDup_sectors.
  rewrite decide_True by by apply elem_of_sectors.
  destruct (rekey_sectors_lookup (blocks x)
              (λ s _, transposed_phase (phases x) axes s) axes (ndim x)
              Hp Hranked) as [-> _]; [|done].
  destruct Hs as [b ->]. cbn.
  unfold bump, transposed_phase, phases_get.
  assert (default 1 (phases x !! s) = 1 ∨ default 1 (phases x !! s) = -1)
    as Hv.
  { destruct (phases x !! s) as [v|] eqn:Hv; [by eapply Hsigns|by left]. }
  destruct (perm_sign_cases (map parity s) axes) as [->| ->], Hv as [->| ->];
    by repeat case_decide.
Qed.

(** *** [phase_resolve] *)

Lemma phase_resolve_Ok x :
  phases_keyed (phases x) (blocks x) →
  phase_resolve x
  = Ok {| base := with_blocks x
                    (foldl (λ blks s, partial_alter (resolve_block (phases x) s) s blks)
                           (blocks x) (map_to_list (phases x)).*1);
          phases := ∅ |}.
Proof.
  intros Hkeyed. unfold phase_resolve.
  destruct (foldM_pure_inv
              (λ blks : gmap (list charge) block,
                 ∀ s, is_Some (phases x !! s) → is_Some (blks !! s))
              (λ blks (sp : list charge * Z),
                 if decide (sp.2 = -1) then
                   array ← dict_getitem blks sp.1;
                   Ok (<[sp.1 := b_neg array]> blks)
                 else Ok blks)
              (λ blks sp, partial_alter (resolve_block (phases x) sp.1) sp.1 blks)
              (map_to_list (phases x)) (blocks x)) as [-> _].
  - done.
  - intros blks [s v] Hsv%elem_of_map_to_list Hinv. cbn.
    destruct (Hinv s) as [b Hb]; [by eexists|].
    assert (partial_alter (resolve_block (phases x) s) s blks
            = if decide (v = -1) then <[s := b_neg b]> blks else blks) as ->.
    { apply map_eq. intros k. unfold resolve_block. rewrite Hsv.
      destruct (decide (k = s)) as [->|Hne].
      - rewrite lookup_partial_alter_eq, Hb.
        destruct (decide (v = -1)) as [->|Hv].
        + rewrite decide_True by done. by rewrite lookup_insert_eq.
        + rewrite decide_False by congruence. done.
      - rewrite lookup_partial_alter_ne by done.
        case_decide; [by rewrite lookup_insert_ne|done]. }
    unfold dict_getitem. rewrite Hb. case_decide; cbn.
    + split; [done|]. intros s' Hs'.
      destruct (decide (s' = s)) as [->|Hne];
        [rewrite lookup_insert_eq; by eexists|rewrite lookup_insert_ne by done; auto].
    + done.
  - cbn. by rewrite foldl_fmap.
Qed.

(** C7: on an array whose phase keys are stored sectors, [phase_resolve]
    negates the block of every sector that carries a buffered -1, leaves
    every other block and the indices alone, returns an empty phase
    dictionary, and a second call returns its argument unchanged. *)
Theorem phase_resolve_spec x :
  phases_keyed (phases x) (blocks x) →
  ∃ y, phase_resolve x = Ok y
    ∧ indices y = indices x
    ∧ charge_total y = charge_total x
    ∧ (∀ s, blocks y !! s
            = if decide (phases x !! s = Some (-1))
              then b_neg <$> blocks x !! s else blocks x !! s)
    ∧ phases y = ∅
    ∧ phase_resolve y = Ok y.
Proof.
  intros Hkeyed. eexists. split; [by apply phase_resolve_Ok|].
  split_and!; [done|done| |done|done].
  intros s. cbn [base blocks with_blocks].
  rewrite foldl_partial_alter by apply NoDup_fst_map_to_list.
  unfold resolve_block. case_decide as Hin; [done|].
  rewrite decide_False; [done|]. intros Hs. apply Hin.
  apply list_elem_of_fmap. exists (s, -1). split; [done|].
  by apply elem_of_map_to_list.
Qed.

(** C10: [transpose] without [axes] is [transpose] with the reversal
    [(ndim-1, ..., 0)] of all axes, for the data and for the phases. *)
Theorem transpose_default_axes x (phase : bool) :
  transpose x None phase = transpose x (Some (reverse (seq 0 (ndim x)))) phase
  ∧ ∀ i, (i < ndim x)%nat →
      reverse (seq 0 (ndim x)) !! i = Some (ndim x - 1 - i)%nat.
Proof.
  assert (∀ n, range_down n = reverse (seq 0 n)) as Hrange.
  { induction n as [|n IH]; [done|].
    rewrite seq_S, reverse_app. cbn. by rewrite IH. }
  split.
  - unfold transpose. by rewrite Hrange.
  - intros i Hi. rewrite reverse_lookup by (rewrite length_seq; lia).
    rewrite length_seq. apply lookup_seq. lia.
Qed.

(** *** The phase invariant *)

Lemma phases_sparse_get (ph : gmap (list charge) Z) s :
  phases_sparse ph → phases_get ph s = 1 ∨ phases_get ph s = -1.
Proof.
  intros Hsp. unfold phases_get.
  destruct (ph !! s) as [v|] eqn:Hv; [right; by eapply Hsp|by left].
Qed.

Lemma phases_sparse_insert (ph : gmap (list charge) Z) s :
  phases_sparse ph → phases_sparse (<[s := -1]> ph).
Proof.
  intros Hsp k v. destruct (decide (k = s)) as [->|Hne].
  - rewrite lookup_insert_eq. congruence.
  - rewrite lookup_insert_ne by done. apply Hsp.
Qed.

Lemma phases_sparse_delete (ph : gmap (list charge) Z) s :
  phases_sparse ph → phases_sparse (delete s ph).
Proof.
  intros Hsp k v Hk. apply lookup_delete_Some in Hk as [_ Hk]. by eapply Hsp.
Qed.

Lemma phases_keyed_insert (ph : gmap (list charge) Z)
    (bs : gmap (list charge) block) s v :
  is_Some (bs !! s) → phases_keyed ph bs → phases_keyed (<[s := v]> ph) bs.
Proof.
  intros Hs Hk k. destruct (decide (k = s)) as [->|Hne]; [done|].
  rewrite lookup_insert_ne by done. apply Hk.
Qed.

Lemma phases_keyed_delete (ph : gmap (list charge) Z)
    (bs : gmap (list charge) block) s :
  phases_keyed ph bs → phases_keyed (delete s ph) bs.
Proof.
  intros Hk k [v Hv]. apply lookup_delete_Some in Hv as [_ Hv].
  apply Hk. by eexists.
Qed.

(** One sign multiplied into the entry of a stored sector. *)
Lemma bump_invariant (ph : gmap (list charge) Z)
    (bs : gmap (list charge) block) s c :
  (c = 1 ∨ c = -1) → is_Some (bs !! s) →
  phases_sparse ph ∧ phases_keyed ph bs →
  let ph' := if decide (phases_get ph s * c = 1) then delete s ph
             else <[s := phases_get ph s * c]> ph in
  phases_sparse ph' ∧ phases_keyed ph' bs.
Proof.
  intros Hc Hs [Hsp Hk] ph'. subst ph'. case_decide as Hone.
  - split; [by apply phases_sparse_delete|by apply phases_keyed_delete].
  - assert (phases_get ph s * c = -1) as ->.
    { destruct (phases_sparse_get ph s Hsp) as [Hg|Hg], Hc as [->| ->]; lia. }
    split; [by apply phases_sparse_insert|by apply phases_keyed_insert].
Qed.

Lemma phase_flip_invariant x axs y :
  phase_invariant x → phase_flip x axs = Ok y → phase_invariant y.
Proof.
  intros Hinv. unfold phase_flip. destruct axs as [|ax axs]; [by intros [= <-]|].
  intros (ph & Hfold & [= <-])%bind_Ok. unfold phase_invariant. cbn.
  eapply (foldM_inv (λ ph, phases_sparse ph ∧ phases_keyed ph (blocks x)));
    [exact Hinv| |exact Hfold].
  intros acc s acc' Hs%elem_of_sectors Hacc (par & _ & Hstep)%bind_Ok.
  case_decide; [|by injection Hstep as <-].
  pose proof (bump_invariant acc (blocks x) s (-1)) as Hb. cbn zeta in Hb.
  replace (phases_get acc s * -1) with (- phases_get acc s) in Hb by lia.
  specialize (Hb (or_intror eq_refl) Hs Hacc).
  destruct (decide (- phases_get acc s = 1)); injection Hstep as <-; exact Hb.
Qed.

Lemma phase_virtual_transpose_invariant x o y :
  phase_invariant x → phase_virtual_transpose x o = Ok y → phase_invariant y.
Proof.
  intros Hinv. unfold phase_virtual_transpose.
  intros (ph & Hfold & [= <-])%bind_Ok. unfold phase_invariant. cbn.
  eapply (foldM_inv (λ ph, phases_sparse ph ∧ phases_keyed ph (blocks x)));
    [exact Hinv| |exact Hfold].
  intros acc s acc' Hs%elem_of_sectors Hacc (c & Hc & Hstep)%bind_Ok.
  apply calc_phase_permutation_sign in Hc.
  pose proof (bump_invariant acc (blocks x) s c Hc Hs Hacc) as Hb.
  cbn zeta in Hb, Hstep.
  destruct (decide (phases_get acc s * c = 1)); injection Hstep as <-; exact Hb.
Qed.

Lemma phase_resolve_phases x y : phase_resolve x = Ok y → phases y = ∅.
Proof.
  unfold phase_resolve. by intros (bs & _ & [= <-])%bind_Ok.
Qed.

Lemma phase_resolve_invariant x y : phase_resolve x = Ok y → phase_invariant y.
Proof.
  intros Hy%phase_resolve_phases. unfold phase_invariant. rewrite Hy.
  split; [intros s v Hv|intros s [v Hv]]; by rewrite lookup_empty in Hv.
Qed.

Lemma insert_fold_keys {V W : Type} (g : V → W) axes
    (l : list (list charge * V)) (acc r : gmap (list charge) W) :
  foldM (λ acc sb, k ← permuted sb.1 axes; Ok (<[k := g sb.2]> acc)) acc l
  = Ok r →
  (∀ k, is_Some (acc !! k) → is_Some (r !! k))
  ∧ (∀ sb k, sb ∈ l → permuted sb.1 axes = Ok k → is_Some (r !! k)).
Proof.
  revert acc. induction l as [|a l IH]; intros acc; cbn.
  - intros [= <-]. split; [done|]. by intros sb k Hin%elem_of_nil.
  - intros (acc' & (k0 & Hk0 & [= <-])%bind_Ok & Hrest)%bind_Ok.
    destruct (IH _ Hrest) as [IH1 IH2]. split.
    + intros k Hk. apply IH1.
      destruct (decide (k = k0)) as [->|Hne];
        [rewrite lookup_insert_eq; by eexists|by rewrite lookup_insert_ne].
    + intros sb k [->|Hin]%elem_of_cons Hk; [|by eapply IH2].
      apply IH1. assert (k = k0) as -> by congruence.
      rewrite lookup_insert_eq. by eexists.
Qed.

Lemma transpose_invariant x o (phase : bool) y :
  (phase = false → phase_invariant x) →
  transpose x o phase = Ok y → phase_invariant y.
Proof.
  intros Hinv. unfold transpose.
  set (axes := match o with None => range_down (ndim x) | Some a => a end).
  intros (ph & Hph & (sym & Hsym & [= <-])%bind_Ok)%bind_Ok.
  unfold SymmetricArray_transpose in Hsym.
  apply bind_Ok in Hsym as (ixs & _ & (bs & Hbs & [= <-])%bind_Ok).
  apply (insert_fold_keys (λ b, b_transpose b (Some axes))) in Hbs as [_ Hbs].
  assert (∀ k v, ph !! k = Some v →
            v = -1 ∧ ∃ s, is_Some (blocks x !! s) ∧ permuted s axes = Ok k)
    as Hchar.
  { destruct phase.
    - revert Hph. apply (foldM_inv (λ acc, ∀ k v, acc !! k = Some v →
          v = -1 ∧ ∃ s, is_Some (blocks x !! s) ∧ permuted s axes = Ok k)).
      + intros k v. by rewrite lookup_empty.
      + intros acc s acc' Hs%elem_of_sectors Hacc (c & _ & Hstep)%bind_Ok.
        cbn zeta in Hstep. case_decide; [|by injection Hstep as <-].
        apply bind_Ok in Hstep as (k0 & Hk0 & [= <-]).
        intros k v. destruct (decide (k = k0)) as [->|Hne].
        * rewrite lookup_insert_eq. intros [= <-]. eauto.
        * rewrite lookup_insert_ne by done. apply Hacc.
    - revert Hph. apply (foldM_inv (λ acc, ∀ k v, acc !! k = Some v →
          v = -1 ∧ ∃ s, is_Some (blocks x !! s) ∧ permuted s axes = Ok k)).
      + intros k v. by rewrite lookup_empty.
      + intros acc [s v0] acc' Hs%elem_of_map_to_list Hacc
          (k0 & Hk0 & [= <-])%bind_Ok.
        intros k v. destruct (decide (k = k0)) as [->|Hne].
        * rewrite lookup_insert_eq. intros [= <-]. cbn in *.
          destruct (Hinv eq_refl) as [Hsp Hkeyed]. split.
          -- by eapply Hsp.
          -- exists s. split; [apply Hkeyed; by eexists|done].
        * rewrite lookup_insert_ne by done. apply Hacc. }
  split; cbn.
  - intros k v Hk. by apply Hchar in Hk as [-> _].
  - intros k [v Hk]. apply Hchar in Hk as [_ (s & [b Hb] & Hs)].
    apply (Hbs (s, b)); [by apply elem_of_map_to_list|done].
Qed.

Lemma phases_keyed_mono (ph : gmap (list charge) Z)
    (bs bs' : gmap (list charge) block) :
  (∀ s, is_Some (bs !! s) → is_Some (bs' !! s)) →
  phases_keyed ph bs → phases_keyed ph bs'.
Proof. intros Hsub Hk s Hs. by apply Hsub, Hk. Qed.

Lemma is_Some_insert_mono {V} (m : gmap (list charge) V) s s' v :
  is_Some (m !! s') → is_Some (<[s := v]> m !! s').
Proof.
  intros Hs'. destruct (decide (s' = s)) as [->|Hne];
    [rewrite lookup_insert_eq; by eexists|by rewrite lookup_insert_ne].
Qed.

Lemma conj_invariant x (phase : bool) y :
  phase_invariant x → conj x phase = Ok y → phase_invariant y.
Proof.
  intros Hinv. unfold conj.
  intros ([bs ph] & Hfold & [= <-])%bind_Ok. unfold phase_invariant. cbn.
  revert Hfold.
  apply (foldM_inv (λ st : gmap (list charge) block * gmap (list charge) Z,
                      phases_sparse st.2 ∧ phases_keyed st.2 st.1));
    [exact Hinv|].
  intros [blks acc] [s b] [blks' acc'] _ [Hsp Hkeyed]. cbn - [phases_get].
  assert (phases_keyed acc (<[s := b_conj b]> blks)) as Hkeyed'.
  { eapply phases_keyed_mono; [|done]. intros s'. apply is_Some_insert_mono. }
  destruct phase; [|intros [= <- <-]; by split].
  intros (c & Hc%calc_phase_permutation_sign & (par & _ & Hstep)%bind_Ok)%bind_Ok.
  set (sgn := if decide (par ≠ 0%nat) then -1 else 1) in Hstep.
  assert (c * sgn = 1 ∨ c * sgn = -1) as Hsign.
  { unfold sgn. destruct Hc as [->| ->], (decide (par ≠ 0%nat)); auto. }
  pose proof (bump_invariant acc (<[s := b_conj b]> blks) s (c * sgn) Hsign)
    as Hb.
  rewrite lookup_insert_eq in Hb. specialize (Hb (mk_is_Some _ _ eq_refl)).
  assert (phases_sparse acc ∧ phases_keyed acc (<[s := b_conj b]> blks))
    as Hacc by (by split).
  specialize (Hb Hacc). cbn zeta in Hb.
  rewrite Z.mul_assoc in Hb.
  destruct (decide (phases_get acc s * c * sgn = 1));
    injection Hstep as <- <-; exact Hb.
Qed.

Lemma dagger_invariant x (phase : bool) y :
  phase_invariant x → dagger x phase = Ok y → phase_invariant y.
Proof.
  intros _. unfold dagger.
  set (step := λ '(new_blocks, new_phases, old_phases) (sa : list charge * block),
         (<[reverse sa.1 := b_transpose (b_conj sa.2) None]> new_blocks,
          (if decide (phases_get old_phases sa.1 = -1)
           then <[reverse sa.1 := -1]> new_phases else new_phases),
          delete sa.1 old_phases)).
  assert (phases_sparse (foldl step (∅, ∅, phases x) (map_to_list (blocks x))).1.2
          ∧ phases_keyed (foldl step (∅, ∅, phases x) (map_to_list (blocks x))).1.2
                         (foldl step (∅, ∅, phases x) (map_to_list (blocks x))).1.1)
    as Hfold.
  { apply (foldl_inv (λ st : gmap (list charge) block * gmap (list charge) Z
                            * gmap (list charge) Z,
                        phases_sparse st.1.2 ∧ phases_keyed st.1.2 st.1.1)).
    - cbn. split; [intros s v Hv|intros s [v Hv]]; by rewrite lookup_empty in Hv.
    - intros [[nb np] op] [s b] _ [Hsp Hkeyed]. cbn - [phases_get].
      assert (phases_keyed np (<[reverse s := b_transpose (b_conj b) None]> nb))
        as Hkeyed'.
      { eapply phases_keyed_mono; [|done]. intros s'. apply is_Some_insert_mono. }
      case_decide; [|by split]. split.
      + by apply phases_sparse_insert.
      + apply phases_keyed_insert; [|done]. rewrite lookup_insert_eq. by eexists. }
  change (foldl _ (∅, ∅, phases x) (map_to_list (blocks x)))
    with (foldl step (∅, ∅, phases x) (map_to_list (blocks x))).
  destruct (foldl step (∅, ∅, phases x) (map_to_list (blocks x)))
    as [[nb np] op]. cbn in Hfold.
  destruct phase.
  - apply phase_flip_invariant. exact Hfold.
  - intros [= <-]. exact Hfold.
Qed.

Lemma fuse_invariant calc_fuse_perm SymmetricArray_fuse x groups y :
  fuse calc_fuse_perm SymmetricArray_fuse x groups = Ok y → phase_invariant y.
Proof.
  unfold fuse. intros (prep & _ & (fused & _ & [= <-])%bind_Ok)%bind_Ok.
  split; cbn; [intros s v Hv|intros s [v Hv]]; by rewrite lookup_empty in Hv.
Qed.

(** *** The operations return on well-formed arrays *)

Lemma flow_axes_lt (ixs : list (@BlockIndex charge)) :
  Forall (λ ax, ax < length ixs)%nat (flow_axes ixs).
Proof.
  apply Forall_forall. intros ax Hax. unfold flow_axes in Hax.
  apply list_elem_of_fmap in Hax as ([i ix] & -> & Hin).
  apply list_elem_of_filter in Hin as [_ Hin].
  apply elem_of_lookup_imap in Hin as (i' & ix' & [= -> ->] & Hi).
  by eapply lookup_lt_Some.
Qed.

Lemma parity_sum_returns s (axs : list nat) :
  Forall (λ ax, ax < length s)%nat axs → ∃ par, parity_sum s axs = Ok par.
Proof.
  intros Hax. unfold parity_sum.
  destruct (mapM_returns (λ ax, q ← getitem s ax; Ok (parity q)) axs)
    as [ps ->]; [|by eexists].
  intros ax Hin. rewrite Forall_forall in Hax.
  destruct (getitem_lt s ax (Hax ax Hin)) as (q & _ & ->). by eexists.
Qed.

Lemma parities_sum_returns (parities : list bool) (axs : list nat) :
  Forall (λ ax, ax < length parities)%nat axs →
  ∃ par, parities_sum parities axs = Ok par.
Proof.
  intros Hax. unfold parities_sum.
  destruct (mapM_returns (getitem parities) axs) as [ps ->]; [|by eexists].
  intros ax Hin. rewrite Forall_forall in Hax.
  destruct (getitem_lt parities ax (Hax ax Hin)) as (q & _ & ->). by eexists.
Qed.

Lemma phase_flip_returns x (axs : list nat) :
  sectors_ranked x → Forall (λ ax, ax < ndim x)%nat axs →
  ∃ y, phase_flip x axs = Ok y.
Proof.
  intros Hranked Hax. unfold phase_flip. destruct axs as [|ax axs]; [by eexists|].
  match goal with
  | |- ∃ y, foldM ?f ?b ?l ≫= _ = _ =>
      destruct (foldM_returns f l b) as [ph ->]; [|by eexists]
  end.
  intros acc s Hs%elem_of_sectors.
  destruct (parity_sum_returns s (ax :: axs)) as [par ->].
  { by rewrite (Hranked s Hs). }
  cbn. repeat case_decide; by eexists.
Qed.

Lemma conj_returns x (phase : bool) :
  sectors_ranked x → ∃ y, conj x phase = Ok y.
Proof.
  intros Hranked. unfold conj.
  set (axs_conj := flow_axes (map ix_conj (indices x))).
  match goal with
  | |- ∃ y, foldM ?f ?b ?l ≫= _ = _ =>
      destruct (foldM_returns f l b) as [[bs ph] ->]; [|by eexists]
  end.
  intros [blks acc] [s b] Hin%elem_of_map_to_list. cbn - [phases_get].
  destruct phase; [|by eexists].
  rewrite calc_phase_permutation_None. cbn - [phases_get].
  destruct (parities_sum_returns (map parity s) axs_conj) as [par ->].
  { rewrite length_map, (Hranked s) by (by eexists).
    pose proof (flow_axes_lt (map ix_conj (indices x))) as Hlt.
    by rewrite length_map in Hlt. }
  cbn - [phases_get]. case_decide; by eexists.
Qed.

Lemma dagger_returns x (phase : bool) :
  sectors_ranked x → ∃ y, dagger x phase = Ok y.
Proof.
  intros Hranked. unfold dagger.
  set (step := λ '(new_blocks, new_phases, old_phases) (sa : list charge * block),
         (<[reverse sa.1 := b_transpose (b_conj sa.2) None]> new_blocks,
          (if decide (phases_get old_phases sa.1 = -1)
           then <[reverse sa.1 := -1]> new_phases else new_phases),
          delete sa.1 old_phases)).
  assert (∀ k, is_Some ((foldl step (∅, ∅, phases x)
                           (map_to_list (blocks x))).1.1 !! k) →
               length k = ndim x) as Hfold.
  { apply (foldl_inv (λ st : gmap (list charge) block * gmap (list charge) Z
                            * gmap (list charge) Z,
                        ∀ k, is_Some (st.1.1 !! k) → length k = ndim x)).
    - cbn. intros k [b Hb]. by rewrite lookup_empty in Hb.
    - intros [[nb np] op] [s b] Hin%elem_of_map_to_list Hacc k. cbn.
      destruct (decide (k = reverse s)) as [->|Hne].
      + intros _. rewrite length_reverse. apply Hranked. by eexists.
      + rewrite lookup_insert_ne by done. apply Hacc. }
  change (foldl _ (∅, ∅, phases x) (map_to_list (blocks x)))
    with (foldl step (∅, ∅, phases x) (map_to_list (blocks x))).
  destruct (foldl step (∅, ∅, phases x) (map_to_list (blocks x)))
    as [[nb np] op]. cbn in Hfold.
  destruct phase; [|by eexists].
  apply phase_flip_returns.
  - intros k Hk. cbn in Hk. rewrite (Hfold k Hk).
    unfold ndim. cbn. by rewrite length_map, length_reverse.
  - unfold ndim. cbn. apply flow_axes_lt.
Qed.

Lemma phase_virtual_transpose_returns x o :
  sectors_ranked x →
  match o with Some axes => is_perm axes (ndim x) | None => True end →
  ∃ y, phase_virtual_transpose x o = Ok y.
Proof.
  intros Hranked Ho. destruct o as [axes|].
  - rewrite phase_virtual_transpose_Ok by done. by eexists.
  - unfold phase_virtual_transpose.
    match goal with
    | |- ∃ y, foldM ?f ?b ?l ≫= _ = _ =>
        destruct (foldM_returns f l b) as [ph ->]; [|by eexists]
    end.
    intros acc s _. cbv zeta. rewrite calc_phase_permutation_None. cbn.
    case_decide; by eexists.
Qed.

(** C8: whenever one of the operations that touch phases returns, the phase
    dictionary of the array it returns stores nothing but -1 and is keyed by
    stored sectors, provided the receiver was in that state; and on an
    array whose sectors have one charge per axis the operations do return
    for arguments that fit it. *)
Theorem phase_invariant_preserved x :
  phase_invariant x →
  ((∀ o phase y, transpose x o phase = Ok y → phase_invariant y)
   ∧ (∀ axs y, phase_flip x axs = Ok y → phase_invariant y)
   ∧ (∀ o y, phase_virtual_transpose x o = Ok y → phase_invariant y)
   ∧ (∀ phase y, conj x phase = Ok y → phase_invariant y)
   ∧ (∀ phase y, dagger x phase = Ok y → phase_invariant y)
   ∧ (∀ y, phase_resolve x = Ok y → phase_invariant y)
   ∧ (∀ calc_fuse_perm SymmetricArray_fuse groups y,
        fuse calc_fuse_perm SymmetricArray_fuse x groups = Ok y →
        phase_invariant y))
  ∧ (sectors_ranked x →
     (∀ axes phase, is_perm axes (ndim x) →
        ∃ y, transpose x (Some axes) phase = Ok y)
     ∧ (∀ axs, Forall (λ ax, ax < ndim x)%nat axs →
          ∃ y, phase_flip x axs = Ok y)
     ∧ (∀ axes, is_perm axes (ndim x) →
          ∃ y, phase_virtual_transpose x (Some axes) = Ok y)
     ∧ (∃ y, phase_virtual_transpose x None = Ok y)
     ∧ (∀ phase, ∃ y, conj x phase = Ok y)
     ∧ (∀ phase, ∃ y, dagger x phase = Ok y)
     ∧ (∃ y, phase_resolve x = Ok y)).
Proof.
  intros Hinv. split.
  - split_and!.
    + intros o phase y. apply transpose_invariant. by intros _.
    + intros axs y. by apply phase_flip_invariant.
    + intros o y. by apply phase_virtual_transpose_invariant.
    + intros phase y. by apply conj_invariant.
    + intros phase y. by apply dagger_invariant.
    + intros y. apply phase_resolve_invariant.
    + intros f g groups y. apply fuse_invariant.
  - intros Hranked. destruct Hinv as [Hsp Hkeyed]. split_and!.
    + intros axes phase Hp. eexists. apply transpose_Ok; [done|done|].
      intros _ s Hs. by apply Hranked, Hkeyed.
    + intros axs Hax. by apply phase_flip_returns.
    + intros axes Hp. by apply (phase_virtual_transpose_returns x (Some axes)).
    + by apply (phase_virtual_transpose_returns x None).
    + intros phase. by apply conj_returns.
    + intros phase. by apply dagger_returns.
    + eexists. by apply phase_resolve_Ok.
Qed.

(** *** A transpose undone by the inverse permutation *)

Lemma take_at_map {A B} (f : A → B) (it : list A) (perm : list nat) :
  take_at (map f it) perm = map f (take_at it perm).
Proof.
  unfold take_at. induction perm as [|a perm IH]; [done|].
  cbn. rewrite list_lookup_fmap. destruct (it !! a); cbn; by rewrite IH.
Qed.

Lemma perm_sign_inverse (par : list bool) p q n :
  length par = n → is_perm p n → length q = n →
  (∀ i j, p !! i = Some j → q !! j = Some i) →
  perm_sign (take_at par p) q = perm_sign par p.
Proof.
  intros Hpar Hp Hq Hinv. unfold perm_sign.
  by rewrite <- (inversions_inverse par p q n).
Qed.

Section Roundtrip.
Context {BL : BackendLaws block}.

(** C6: on a well-formed array whose phases satisfy the invariant, a
    transpose by [p] followed by a transpose by the inverse of [p], both
    computing phases, returns the array it started from: indices, blocks
    and phase dictionary. *)
Theorem transpose_roundtrip x p :
  is_perm p (ndim x) → sectors_ranked x → blocks_ranked x →
  phase_invariant x →
  ∃ y, transpose x (Some p) true = Ok y
    ∧ transpose y (Some (inverse_perm p)) true = Ok x.
Proof.
  intros Hp Hranked Hbr [Hsp Hkeyed].
  assert (true = false → phases_ranked x) as Htriv by done.
  pose proof (transpose_Ok x p true Hp Hranked Htriv) as Hy. clear Htriv.
  destruct x as [[ixs ct bs] ph].
  unfold sectors_ranked, blocks_ranked, ndim in *.
  cbn [base indices charge_total blocks phases] in *.
  set (n := length ixs) in *. set (q := inverse_perm p).
  pose proof (inverse_perm_is_perm p n Hp) as Hq. fold q in Hq.
  assert (∀ i j, p !! i = Some j → q !! j = Some i) as Hinv
    by (intros; by eapply inverse_perm_lookup).
  pose proof (is_perm_length _ _ Hp) as Hplen.
  pose proof (is_perm_length _ _ Hq) as Hqlen.
  assert (∀ k : list charge, length k = n → length (take_at k p) = n) as Hlen.
  { intros k Hk. rewrite take_at_length, Hplen; [done|].
    rewrite Hk. by apply is_perm_Forall. }
  eexists. split; [exact Hy|]. clear Hy.
  set (B1 := foldl (rekey_step (λ sb : list charge * block, take_at sb.1 p)
                      (λ sb, Some (b_transpose sb.2 (Some p))))
                   ∅ (map_to_list bs)).
  set (P1 := foldl (rekey_step (λ sb : list charge * block, take_at sb.1 p)
                      (λ sb, transposed_phase ph p sb.1)) ∅ (map_to_list bs)).
  destruct (rekey_sectors_lookup bs (λ _ b, Some (b_transpose b (Some p)))
              p n Hp Hranked) as [HB1a HB1b]. fold B1 in HB1a, HB1b.
  destruct (rekey_sectors_lookup bs (λ s _, transposed_phase ph p s)
              p n Hp Hranked) as [HP1a _]. fold P1 in HP1a.
  assert (∀ s', is_Some (B1 !! s') → length s' = n) as HB1rank.
  { intros s' Hs'. destruct (HB1b s' Hs') as (s & b & Hsb & -> & _).
    apply Hlen, (Hranked s). by eexists. }
  assert (length (take_at ixs p) = n) as Hixs.
  { rewrite take_at_length, Hplen; [done|]. by apply is_perm_Forall. }
  rewrite transpose_Ok; cbn [base indices charge_total blocks phases];
    [|unfold ndim; cbn; by rewrite Hixs
     |unfold sectors_ranked, ndim; cbn; by rewrite Hixs
     |done].
  destruct (rekey_sectors_lookup B1 (λ _ b, Some (b_transpose b (Some q)))
              q n Hq HB1rank) as [HB2a HB2b].
  destruct (rekey_sectors_lookup B1 (λ s _, transposed_phase P1 q s)
              q n Hq HB1rank) as [HP2a HP2b].
  assert (∀ k : list charge, length k = n → take_at (take_at k p) q = k) as HK.
  { intros k Hk. by apply (take_at_inverse k p q n). }
  f_equal. f_equal; [f_equal|].
  - by apply (take_at_inverse ixs p q n).
  - apply map_eq. intros k. destruct (decide (length k = n)) as [Hk|Hk].
    + rewrite <- (HK k Hk) at 1. rewrite HB2a, HB1a by auto.
      destruct (bs !! k) as [b|] eqn:Hb; [|done]. cbn. f_equal.
      pose proof (Hbr k b Hb) as Hrank.
      apply b_transpose_transpose; rewrite ?Hrank; done.
    + assert (bs !! k = None) as ->.
      { apply eq_None_not_Some. intros Hs. by apply Hk, (Hranked k). }
      apply eq_None_not_Some. intros Hs.
      destruct (HB2b k Hs) as (s' & b & Hsb & -> & _). apply Hk.
      rewrite take_at_length, Hqlen; [done|].
      rewrite (HB1rank s') by (by eexists). by apply is_perm_Forall.
  - apply map_eq. intros k. destruct (decide (length k = n)) as [Hk|Hk].
    + rewrite <- (HK k Hk) at 1. rewrite HP2a, HB1a by auto.
      destruct (bs !! k) as [b|] eqn:Hb; cbn.
      * assert (phases_get P1 (take_at k p)
                = default 1 (transposed_phase ph p k)) as HP.
        { unfold phases_get. by rewrite (HP1a k Hk), Hb. }
        unfold transposed_phase at 1. rewrite HP.
        rewrite <- take_at_map.
        rewrite (perm_sign_inverse (map parity k) p q n)
          by (done || by rewrite length_map).
        unfold transposed_phase, phases_get.
        destruct (ph !! k) as [v|] eqn:Hv.
        -- rewrite (Hsp k v Hv). cbn.
           destruct (perm_sign_cases (map parity k) p) as [->| ->];
             by repeat case_decide.
        -- cbn.
           destruct (perm_sign_cases (map parity k) p) as [->| ->];
             by repeat case_decide.
      * symmetry. apply eq_None_not_Some. intros Hs.
        apply Hkeyed in Hs. rewrite Hb in Hs. by destruct Hs.
    + assert (ph !! k = None) as ->.
      { apply eq_None_not_Some. intros Hs. by apply Hk, (Hranked k), Hkeyed. }
      apply eq_None_not_Some. intros Hs.
      destruct (HP2b k Hs) as (s' & b & Hsb & -> & _). apply Hk.
      rewrite take_at_length, Hqlen; [done|].
      rewrite (HB1rank s') by (by eexists). by apply is_perm_Forall.
Qed.

End Roundtrip.

(** *** The fermionic contraction *)

Lemma mod_axes_Ok (l : list Z) (n : nat) :
  n ≠ 0%nat ∨ l = [] → mod_axes l n = Ok (map (λ i : Z, i mod Z.of_nat n) l).
Proof.
  intros [Hn| ->]; [|done]. unfold mod_axes. apply mapM_Ok.
  intros x _. by rewrite decide_False.
Qed.

Lemma parse_axes_pair (na nb : nat) (la lb : list Z) :
  na ≠ 0%nat ∨ la = [] → nb ≠ 0%nat ∨ lb = [] →
  parse_axes na nb (AxesPair la lb)
  = if decide (length la = length lb)
    then Ok (map (λ i : Z, i mod Z.of_nat na) la, map (λ i : Z, i mod Z.of_nat nb) lb)
    else Raise ValueError.
Proof.
  intros Ha Hb. unfold parse_axes.
  rewrite !mod_axes_Ok by done. cbn. rewrite !length_map.
  by case_decide.
Qed.

(** *** The contraction returns on a valid specification *)

Lemma phase_virtual_transpose_base x o y :
  phase_virtual_transpose x o = Ok y → base y = base x.
Proof.
  unfold phase_virtual_transpose. by intros (ph & _ & [= <-])%bind_Ok.
Qed.

Lemma phase_flip_base x axs y : phase_flip x axs = Ok y → base y = base x.
Proof.
  unfold phase_flip. destruct axs; [by intros [= <-]|].
  by intros (ph & _ & [= <-])%bind_Ok.
Qed.


Lemma as_axes_Ok (l : list Z) :
  Forall (λ i : Z, 0 ≤ i) l → as_axes l = Ok (map Z.to_nat l).
Proof.
  intros Hl. unfold as_axes. apply mapM_Ok. intros i Hi.
  rewrite Forall_forall in Hl. by rewrite decide_True by auto.
Qed.

Lemma zrange_tail (n m : nat) :
  (m ≤ n)%nat →
  zrange (Z.of_nat n - Z.of_nat m) (Z.of_nat n) = map Z.of_nat (seq (n - m) m).
Proof.
  intros Hm. unfold zrange.
  replace (Z.to_nat (Z.of_nat n - (Z.of_nat n - Z.of_nat m))) with m by lia.
  apply list_eq. intros i. rewrite !list_lookup_fmap.
  destruct (decide (i < m)%nat) as [Hi|Hi].
  - rewrite !lookup_seq_lt by done. cbn. f_equal. lia.
  - by rewrite !lookup_seq_ge by lia.
Qed.

Lemma zrange_0 (n : nat) : zrange 0 (Z.of_nat n) = map Z.of_nat (seq 0 n).
Proof.
  pose proof (zrange_tail n n (le_n n)) as Hz.
  by rewrite Z.sub_diag, Nat.sub_diag in Hz.
Qed.

Lemma to_nat_of_nat_seq (j n : nat) :
  map Z.to_nat (map Z.of_nat (seq j n)) = seq j n.
Proof.
  rewrite map_map. rewrite <- (map_id (seq j n)) at 2.
  apply map_ext. intros i. apply Nat2Z.id.
Qed.

Lemma without_app_Permutation (n : nat) (l : list Z) :
  NoDup l → Forall (λ i : Z, 0 ≤ i < Z.of_nat n) l →
  without (zrange 0 (Z.of_nat n)) l ++ l ≡ₚ map Z.of_nat (seq 0 n).
Proof.
  intros Hnd Hl. rewrite zrange_0. unfold without.
  rewrite <- (filter_app_complement (λ el, el ∉ l) (map Z.of_nat (seq 0 n)))
    at 2.
  apply Permutation_app; [done|].
  apply NoDup_Permutation; [done| |].
  - apply NoDup_filter. apply NoDup_fmap_2; [apply Nat2Z.inj'|apply NoDup_seq].
  - intros i. rewrite list_elem_of_filter. split.
    + intros Hi. split; [by intros Hni|].
      rewrite Forall_forall in Hl. specialize (Hl i Hi).
      apply list_elem_of_fmap. exists (Z.to_nat i).
      split; [lia|]. apply elem_of_seq. lia.
    + intros [Hi _]. by apply dec_stable.
Qed.

Lemma contraction_perm_a (n : nat) (l : list Z) :
  NoDup l → Forall (λ i : Z, 0 ≤ i < Z.of_nat n) l →
  is_perm (map Z.to_nat (without (zrange 0 (Z.of_nat n)) l ++ l)) n.
Proof.
  intros Hnd Hl. unfold is_perm.
  rewrite <- (to_nat_of_nat_seq 0 n).
  change (map Z.to_nat ?k) with (Z.to_nat <$> k).
  by rewrite (without_app_Permutation n l Hnd Hl).
Qed.

Lemma contraction_perm_b (n : nat) (l : list Z) :
  NoDup l → Forall (λ i : Z, 0 ≤ i < Z.of_nat n) l →
  is_perm (map Z.to_nat (l ++ without (zrange 0 (Z.of_nat n)) l)) n.
Proof.
  intros Hnd Hl. unfold is_perm.
  rewrite <- (to_nat_of_nat_seq 0 n).
  change (map Z.to_nat ?k) with (Z.to_nat <$> k).
  by rewrite (Permutation_app_comm l), (without_app_Permutation n l Hnd Hl).
Qed.

Lemma without_nonneg (n : nat) (l : list Z) :
  Forall (λ i : Z, 0 ≤ i) (without (zrange 0 (Z.of_nat n)) l).
Proof.
  apply Forall_forall. intros i Hi. unfold without in Hi.
  apply list_elem_of_filter in Hi as [_ Hi]. rewrite zrange_0 in Hi.
  apply list_elem_of_fmap in Hi as (j & -> & _). lia.
Qed.

Lemma transpose_true_wf x axes :
  is_perm axes (ndim x) → sectors_ranked x →
  ∃ y, transpose x (Some axes) true = Ok y
     ∧ ndim y = ndim x ∧ sectors_ranked y ∧ phase_invariant y.
Proof.
  intros Hp Hranked.
  assert (true = false → phases_ranked x) as Htriv by done.
  pose proof (transpose_Ok x axes true Hp Hranked Htriv) as Hy.
  destruct (rekey_sectors_lookup (blocks x)
              (λ _ b, Some (b_transpose b (Some axes))) axes (ndim x) Hp Hranked)
    as [_ Hkeys].
  eexists. split; [exact Hy|].
  assert (length (take_at (indices x) axes) = ndim x) as Hnd.
  { rewrite take_at_length; [by apply is_perm_length|]. by apply is_perm_Forall. }
  split_and!.
  - exact Hnd.
  - intros k Hk. cbn [base blocks] in Hk.
    destruct (Hkeys k Hk) as (s & v & Hs & -> & _).
    unfold ndim. cbn [base indices]. rewrite Hnd.
    rewrite take_at_length; [by apply is_perm_length|].
    rewrite (Hranked s) by (by eexists). by apply is_perm_Forall.
  - eapply transpose_invariant; [|exact Hy]. done.
Qed.

Lemma phase_resolve_wf x :
  sectors_ranked x → phases_keyed (phases x) (blocks x) →
  ∃ y, phase_resolve x = Ok y ∧ ndim y = ndim x ∧ sectors_ranked y.
Proof.
  intros Hranked Hkeyed.
  eexists. split; [by apply phase_resolve_Ok|]. split; [done|].
  intros s Hs. cbn [base blocks with_blocks] in Hs.
  rewrite foldl_partial_alter in Hs by apply NoDup_fst_map_to_list.
  unfold resolve_block in Hs. apply Hranked.
  repeat case_decide; try done. by apply fmap_is_Some in Hs.
Qed.

Lemma axes_with_flow_returns (ixs : list (@BlockIndex charge)) (dual : bool)
    (axes : list nat) :
  Forall (λ ax, ax < length ixs)%nat axes →
  ∃ axs, axes_with_flow ixs dual axes = Ok axs
       ∧ Forall (λ ax, ax < length ixs)%nat axs.
Proof.
  intros Hax. unfold axes_with_flow.
  assert (∀ acc, Forall (λ ax, ax < length ixs)%nat acc →
            ∃ axs,
              foldM (λ acc ax, ix ← getitem ixs ax;
                               Ok (if decide (flow ix = dual)
                                   then acc ++ [ax] else acc)) acc axes
              = Ok axs
              ∧ Forall (λ ax, ax < length ixs)%nat axs) as Hgen.
  { induction Hax as [|ax axes Hlt _ IH]; intros acc Hacc; [by exists acc|].
    destruct (getitem_lt ixs ax Hlt) as (ix & _ & Hg).
    cbn. rewrite Hg. cbn. apply IH. case_decide; [|done].
    apply Forall_app. split; [done|by apply Forall_singleton]. }
  by apply Hgen.
Qed.

Lemma without_seq_lt (n : nat) (l : list nat) :
  Forall (λ ax, ax < n)%nat (without (seq 0 n) l).
Proof.
  apply Forall_forall. intros i Hi. unfold without in Hi.
  apply list_elem_of_filter in Hi as [_ Hi]. apply elem_of_seq in Hi. lia.
Qed.

Lemma tensordot_symmetric_returns (a b : @SymmetricArray charge _ _ block)
    (la lb : list nat) :
  length la = length lb →
  Forall (λ ax, ax < ndim a)%nat la → Forall (λ ax, ax < ndim b)%nat lb →
  sectors_ranked a → sectors_ranked b →
  ∃ c, tensordot_symmetric a b la lb = Ok c.
Proof.
  intros Hlen Hla Hlb Hra Hrb. unfold tensordot_symmetric.
  rewrite decide_False by (by intros ?).
  rewrite decide_True by done.
  assert (∀ sa : list charge * block, sa ∈ map_to_list (blocks a) →
            length sa.1 = ndim a) as Hsa.
  { intros [s v] Hin%elem_of_map_to_list. apply Hra. by eexists. }
  assert (∀ sb : list charge * block, sb ∈ map_to_list (blocks b) →
            length sb.1 = ndim b) as Hsb.
  { intros [s v] Hin%elem_of_map_to_list. apply Hrb. by eexists. }
  match goal with
  | |- ∃ c, foldM ?f ?b0 ?l ≫= _ = _ =>
      destruct (foldM_returns f l b0) as [bs ->]
  end.
  { intros acc sa Hina.
    apply foldM_returns. intros acc' sb Hinb.
    rewrite !permuted_Ok
      by (rewrite ?(Hsa sa Hina), ?(Hsb sb Hinb);
          done || apply without_seq_lt).
    cbn. case_decide; [|by eexists].
    destruct (acc' !! _); by eexists. }
  cbn. rewrite !permuted_Ok by apply without_seq_lt. by eexists.
Qed.

Lemma valid_axes_length (n : nat) (l : list Z) :
  NoDup l → Forall (λ i : Z, 0 ≤ i < Z.of_nat n) l → (length l ≤ n)%nat.
Proof.
  intros Hnd Hl.
  pose proof (Permutation_length (without_app_Permutation n l Hnd Hl)) as Hlen.
  rewrite length_app, length_map, length_seq in Hlen. lia.
Qed.

Lemma mod_axes_in_range (n : nat) (l : list Z) :
  Forall (λ i : Z, 0 ≤ i < Z.of_nat n) l →
  map (λ i : Z, i mod Z.of_nat n) l = l.
Proof.
  intros Hl. rewrite <- (map_id l) at 2. apply map_ext_in. intros i Hi.
  rewrite Forall_forall in Hl. apply Z.mod_small, Hl. by apply list_elem_of_In.
Qed.

Lemma virtual_reverse_is_perm (ncon n : nat) :
  (ncon ≤ n)%nat → is_perm (reverse (seq 0 ncon) ++ seq ncon (n - ncon)) n.
Proof.
  intros Hle. unfold is_perm. rewrite reverse_Permutation.
  replace n with (ncon + (n - ncon))%nat at 2 by lia.
  by rewrite seq_app.
Qed.

(** On well-formed operands and a pair of lists of distinct axes in range,
    of equal length, every step of the contraction returns. *)
Lemma tensordot_fermionic_returns (a b : FermionicArray) (la lb : list Z) :
  sectors_ranked a → sectors_ranked b →
  length la = length lb → NoDup la → NoDup lb →
  Forall (λ i : Z, 0 ≤ i < Z.of_nat (ndim a)) la →
  Forall (λ i : Z, 0 ≤ i < Z.of_nat (ndim b)) lb →
  ∃ c, tensordot_fermionic a b (AxesPair la lb) = Ok c.
Proof.
  intros Hra Hrb Hlen Hnda Hndb Hla Hlb.
  pose proof (valid_axes_length _ _ Hnda Hla) as Hna.
  pose proof (valid_axes_length _ _ Hndb Hlb) as Hnb.
  assert (Forall (λ i : Z, 0 ≤ i) la) as Hla0
    by (eapply Forall_impl; [exact Hla|]; cbn; lia).
  assert (Forall (λ i : Z, 0 ≤ i) lb) as Hlb0
    by (eapply Forall_impl; [exact Hlb|]; cbn; lia).
  unfold tensordot_fermionic.
  rewrite parse_axes_pair.
  2:{ destruct la as [|i la']; [by right|left].
      apply Forall_cons in Hla as [Hi _]. lia. }
  2:{ destruct lb as [|i lb']; [by right|left].
      apply Forall_cons in Hlb as [Hi _]. lia. }
  rewrite decide_True by done.
  rewrite !mod_axes_in_range by done. cbn [mbind result_bind fst snd].
  rewrite (as_axes_Ok (without (zrange 0 (Z.of_nat (ndim a))) la ++ la))
    by (apply Forall_app_2; done || apply without_nonneg).
  rewrite (as_axes_Ok (lb ++ without (zrange 0 (Z.of_nat (ndim b))) lb))
    by (apply Forall_app_2; done || apply without_nonneg).
  cbn [mbind result_bind fst snd].
  destruct (transpose_true_wf a _ (contraction_perm_a _ la Hnda Hla) Hra)
    as (a1 & -> & Hn1 & Hr1 & Hi1).
  cbn [mbind result_bind fst snd].
  destruct (transpose_true_wf b _ (contraction_perm_b _ lb Hndb Hlb) Hrb)
    as (b1 & -> & Hm1 & Hs1 & Hj1).
  cbn [mbind result_bind fst snd].
  rewrite zrange_tail by done.
  rewrite as_axes_Ok
    by (apply Forall_forall; intros i (j & -> & _)%list_elem_of_fmap; lia).
  rewrite to_nat_of_nat_seq. cbn [mbind result_bind fst snd].
  destruct (phase_virtual_transpose_returns b1
              (Some (reverse (seq 0 (length la))
                     ++ seq (length la) (ndim b1 - length la))) Hs1)
    as [b2 Hb2].
  { apply virtual_reverse_is_perm. rewrite Hm1, Hlen. done. }
  rewrite Hb2. cbn [mbind result_bind fst snd].
  pose proof (phase_virtual_transpose_base _ _ _ Hb2) as Hbase2.
  pose proof (phase_virtual_transpose_invariant _ _ _ Hj1 Hb2) as Hj2.
  assert (sectors_ranked b2) as Hs2 by (by rewrite Hbase2).
  assert (ndim b2 = ndim b) as Hm2 by (by rewrite Hbase2).
  assert (Forall (λ ax, ax < ndim a1)%nat
            (seq (ndim a - length la) (length la))) as Haxa.
  { apply Forall_forall. intros i Hi%elem_of_seq. lia. }
  assert (Forall (λ ax, ax < ndim b2)%nat (seq 0 (length la))) as Haxb.
  { apply Forall_forall. intros i Hi%elem_of_seq. lia. }
  assert (∃ a3 b3 : FermionicArray,
            (if decide (size a1 ≤ size b2)%nat then
               axs_flip ← axes_with_flow (indices a1) true
                             (seq (ndim a - length la) (length la));
               a' ← phase_flip a1 axs_flip; Ok (a', b2)
             else
               axs_flip ← axes_with_flow (indices b2) false
                             (seq 0 (length la));
               b' ← phase_flip b2 axs_flip; Ok (a1, b'))
            = Ok (a3, b3)
            ∧ base a3 = base a1 ∧ base b3 = base b2
            ∧ phase_invariant a3 ∧ phase_invariant b3)
    as (a3 & b3 & -> & Hbase3a & Hbase3b & Hi3 & Hj3).
  { case_decide.
    - destruct (axes_with_flow_returns (indices a1) true _ Haxa)
        as (axs & -> & Haxs). cbn [mbind result_bind].
      destruct (phase_flip_returns a1 axs Hr1 Haxs) as [a3 Ha3].
      rewrite Ha3. cbn [mbind result_bind]. exists a3, b2.
      split; [done|]. split; [exact (phase_flip_base _ _ _ Ha3)|].
      split; [done|].
      split; [exact (phase_flip_invariant _ _ _ Hi1 Ha3)|done].
    - destruct (axes_with_flow_returns (indices b2) false _ Haxb)
        as (axs & -> & Haxs). cbn [mbind result_bind].
      destruct (phase_flip_returns b2 axs Hs2 Haxs) as [b3 Hb3].
      rewrite Hb3. cbn [mbind result_bind]. exists a1, b3.
      split; [done|]. split; [done|].
      split; [exact (phase_flip_base _ _ _ Hb3)|].
      split; [done|exact (phase_flip_invariant _ _ _ Hj2 Hb3)]. }
  cbn [mbind result_bind fst snd].
  destruct (phase_resolve_wf a3) as (a4 & -> & Hn4 & Hr4);
    [by rewrite Hbase3a|apply Hi3|].
  cbn [mbind result_bind fst snd].
  destruct (phase_resolve_wf b3) as (b4 & -> & Hm4 & Hs4);
    [by rewrite Hbase3b|apply Hj3|].
  cbn [mbind result_bind fst snd].
  destruct (tensordot_symmetric_returns a4 b4
              (seq (ndim a - length la) (length la)) (seq 0 (length la)))
    as [c ->]; [by rewrite !length_seq| | |done|done|by eexists].
  - rewrite Hn4. unfold ndim at 1. rewrite Hbase3a. exact Haxa.
  - rewrite Hm4. unfold ndim at 1. rewrite Hbase3b. exact Haxb.
Qed.

(** The same for lists given with any integers, whose remainders modulo
    the ranks are distinct. *)
Lemma tensordot_fermionic_returns_mod (a b : FermionicArray) (la lb : list Z) :
  sectors_ranked a → sectors_ranked b →
  (ndim a ≠ 0%nat ∨ la = []) → (ndim b ≠ 0%nat ∨ lb = []) →
  length la = length lb →
  NoDup (map (λ i : Z, i mod Z.of_nat (ndim a)) la) →
  NoDup (map (λ i : Z, i mod Z.of_nat (ndim b)) lb) →
  ∃ c, tensordot_fermionic a b (AxesPair la lb) = Ok c.
Proof.
  intros Hra Hrb Ha Hb Hlen Hnda Hndb.
  set (la' := map (λ i : Z, i mod Z.of_nat (ndim a)) la) in *.
  set (lb' := map (λ i : Z, i mod Z.of_nat (ndim b)) lb) in *.
  assert (Forall (λ i : Z, 0 ≤ i < Z.of_nat (ndim a)) la') as Hla.
  { apply Forall_forall. intros i (j & -> & Hj)%list_elem_of_fmap.
    apply Z.mod_pos_bound. destruct Ha as [Ha| ->]; [lia|].
    by apply elem_of_nil in Hj. }
  assert (Forall (λ i : Z, 0 ≤ i < Z.of_nat (ndim b)) lb') as Hlb.
  { apply Forall_forall. intros i (j & -> & Hj)%list_elem_of_fmap.
    apply Z.mod_pos_bound. destruct Hb as [Hb| ->]; [lia|].
    by apply elem_of_nil in Hj. }
  assert (length la' = length lb') as Hlen'
    by (unfold la', lb'; by rewrite !length_map).
  destruct (tensordot_fermionic_returns a b la' lb' Hra Hrb Hlen' Hnda Hndb
              Hla Hlb) as [c Hc].
  exists c. rewrite <- Hc. unfold tensordot_fermionic.
  rewrite (parse_axes_pair _ _ la lb) by done.
  rewrite (parse_axes_pair _ _ la' lb').
  - rewrite !decide_True by done. fold la' lb'.
    by rewrite !mod_axes_in_range by done.
  - destruct la; [by right|left]. destruct Ha as [Ha|Ha]; [done|discriminate Ha].
  - destruct lb; [by right|left]. destruct Hb as [Hb|Hb]; [done|discriminate Hb].
Qed.

(** C9, as the code has it: an explicit pair of axis lists of unequal
    length makes the contraction raise [ValueError]; every index, in range
    or not, is reduced modulo the rank of its operand, so lists of equal
    length pass the argument check whatever their entries, the parsed axes
    all lie in [0, rank), and when they are distinct the contraction of
    well-formed operands returns. *)
Theorem tensordot_axes_errors (a b : FermionicArray) (la lb : list Z) :
  (ndim a ≠ 0%nat ∨ la = []) → (ndim b ≠ 0%nat ∨ lb = []) →
  (length la ≠ length lb →
     tensordot_fermionic a b (AxesPair la lb) = Raise ValueError)
  ∧ (length la = length lb →
       (∃ axes_a axes_b,
          parse_axes (ndim a) (ndim b) (AxesPair la lb) = Ok (axes_a, axes_b)
          ∧ axes_a = map (λ i : Z, i mod Z.of_nat (ndim a)) la
          ∧ axes_b = map (λ i : Z, i mod Z.of_nat (ndim b)) lb
          ∧ Forall (λ i : Z, 0 ≤ i < Z.of_nat (ndim a)) axes_a
          ∧ Forall (λ i : Z, 0 ≤ i < Z.of_nat (ndim b)) axes_b)
       ∧ (sectors_ranked a → sectors_ranked b →
          NoDup (map (λ i : Z, i mod Z.of_nat (ndim a)) la) →
          NoDup (map (λ i : Z, i mod Z.of_nat (ndim b)) lb) →
          ∃ c, tensordot_fermionic a b (AxesPair la lb) = Ok c)).
Proof.
  intros Ha Hb. split.
  - intros Hne. unfold tensordot_fermionic.
    rewrite parse_axes_pair by done. by rewrite decide_False.
  - intros Heq. split.
    + eexists _, _. rewrite parse_axes_pair by done.
      rewrite decide_True by done. split_and!; try done.
      * apply Forall_fmap, Forall_forall. intros i Hi. cbn.
        apply Z.mod_pos_bound. destruct Ha as [Ha| ->]; [lia|].
        by apply elem_of_nil in Hi.
      * apply Forall_fmap, Forall_forall. intros i Hi. cbn.
        apply Z.mod_pos_bound. destruct Hb as [Hb| ->]; [lia|].
        by apply elem_of_nil in Hi.
    + intros Hra Hrb Hnda Hndb.
      by apply tensordot_fermionic_returns_mod.
Qed.

Lemma bind_assoc {A B C} (m : result A) (f : A → result B) (g : B → result C) :
  (m ≫= f) ≫= g = m ≫= (λ a, f a ≫= g).
Proof. by destruct m. Qed.

Lemma tensordot_fermionic_staged (a b : FermionicArray) (axes : axes_arg) :
  tensordot_fermionic a b axes = tensordot_staged false a b axes.
Proof.
  unfold tensordot_fermionic, tensordot_staged.
  destruct (parse_axes (ndim a) (ndim b) axes) as [[axes_a axes_b]|e]; [|done].
  cbn [mbind result_bind fst snd].
  unfold stage_transpose.
  destruct (as_axes (without _ axes_a ++ axes_a)) as [perm_a|]; [|done].
  cbn [mbind result_bind fst snd].
  destruct (as_axes (axes_b ++ without _ axes_b)) as [perm_b|]; [|done].
  cbn [mbind result_bind fst snd].
  destruct (transpose a (Some perm_a) true) as [a1|]; [|done].
  cbn [mbind result_bind fst snd].
  destruct (transpose b (Some perm_b) true) as [b1|]; [|done].
  cbn [mbind result_bind fst snd].
  destruct (as_axes (zrange _ _)) as [new_axes_a|]; [|done].
  cbn [mbind result_bind fst snd]. unfold stage_virtual_reverse.
  destruct (phase_virtual_transpose b1 _) as [b2|]; [|done].
  cbn [mbind result_bind fst snd]. unfold stage_flip.
  destruct (decide (size a1 ≤ size b2)%nat).
  - destruct (axes_with_flow (indices a1) true _) as [axs|]; [|done].
    cbn [mbind result_bind fst snd].
    destruct (phase_flip a1 axs) as [a3|]; [|done].
    cbn [mbind result_bind fst snd]. unfold stage_resolve.
    destruct (phase_resolve a3) as [a4|]; [|done].
    cbn [mbind result_bind fst snd].
    by destruct (phase_resolve b2) as [b4|].
  - destruct (axes_with_flow (indices b2) false _) as [axs|]; [|done].
    cbn [mbind result_bind fst snd].
    destruct (phase_flip b2 axs) as [b3|]; [|done].
    cbn [mbind result_bind fst snd]. unfold stage_resolve.
    destruct (phase_resolve a1) as [a4|]; [|done].
    cbn [mbind result_bind fst snd].
    by destruct (phase_resolve b3) as [b4|].
Qed.

(** C1, as the code has it: the contraction is the composition of the five
    steps, the third of which flips [a] on its contracted axes of flow
    [True] when [a] is not the larger operand, and otherwise flips [b] on
    its contracted axes of flow [False].  The virtual reversal and the flip
    leave indices and blocks alone, both operands reach the symmetric
    contraction with an empty phase dictionary, and on well-formed operands
    with a pair of lists of distinct axes in range, of equal length, the
    procedure returns. *)
Theorem tensordot_fermionic_procedure (a b : FermionicArray) (axes : axes_arg) :
  tensordot_fermionic a b axes = tensordot_staged false a b axes
  ∧ (∀ x ncon y, stage_virtual_reverse x ncon = Ok y → base y = base x)
  ∧ (∀ dual_b x y la lb ab,
       stage_flip dual_b x y la lb = Ok ab →
       base ab.1 = base x ∧ base ab.2 = base y)
  ∧ (∀ c, tensordot_fermionic a b axes = Ok c →
       ∃ x y axes_a axes_b,
         phases x = ∅ ∧ phases y = ∅
         ∧ tensordot_symmetric x y axes_a axes_b = Ok (base c))
  ∧ (∀ la lb, axes = AxesPair la lb →
       sectors_ranked a → sectors_ranked b →
       length la = length lb → NoDup la → NoDup lb →
       Forall (λ i : Z, 0 ≤ i < Z.of_nat (ndim a)) la →
       Forall (λ i : Z, 0 ≤ i < Z.of_nat (ndim b)) lb →
       ∃ c, tensordot_fermionic a b axes = Ok c).
Proof.
  split_and!; [| | | |intros la lb ->; apply tensordot_fermionic_returns].
  - apply tensordot_fermionic_staged.
  - intros b1 ncon b2. apply phase_virtual_transpose_base.
  - intros dual_b a1 b1 la lb ab. unfold stage_flip. case_decide.
    + intros (axs & _ & (a2 & Ha2 & [= <-])%bind_Ok)%bind_Ok.
      split; [by eapply phase_flip_base|done].
    + intros (axs & _ & (b2 & Hb2 & [= <-])%bind_Ok)%bind_Ok.
      split; [done|by eapply phase_flip_base].
  - intros c. rewrite tensordot_fermionic_staged. unfold tensordot_staged.
    intros (parsed & _ & (ab1 & _ & (la & _ & (b2 & _ & (ab3 & _ & (ab4 & Hres
              & (c' & Hc & [= <-])%bind_Ok)%bind_Ok)%bind_Ok)%bind_Ok)%bind_Ok)%bind_Ok)%bind_Ok.
    unfold stage_resolve in Hres.
    apply bind_Ok in Hres as (a4 & Ha4 & (b4 & Hb4 & [= <-])%bind_Ok).
    eexists a4, b4, _, _. split_and!; [| |exact Hc].
    + by eapply phase_resolve_phases.
    + by eapply phase_resolve_phases.
Qed.

(** *** [fuse] before it delegates *)

(** A group led by an axis that is not dual adds nothing to the axes to
    flip, whatever the flows of its other axes, and asks for no virtual
    permutation. *)
Lemma fuse_group_ket_leader x (st : list nat * option (list nat))
    (ax0 : nat) (group : list nat) (ix0 : BlockIndex) :
  indices x !! ax0 = Some ix0 → flow ix0 = false →
  fuse_group x st (ax0 :: group) = Ok st.
Proof.
  intros Hix Hflow. unfold fuse_group. destruct st as [axes_flip virtual_perm].
  rewrite (getitem_Some _ _ _ Hix). cbn. by rewrite Hflow.
Qed.

(** The array handed to the sign-unaware fuse has no phase left. *)
Lemma fuse_prepare_resolved calc_fuse_perm x groups y groups' :
  fuse_prepare calc_fuse_perm x groups = Ok (y, groups') → phases y = ∅.
Proof.
  unfold fuse_prepare.
  intros (x1 & _ & (gs & _ & ([fl vp] & _ & (x2 & _ & (x3 & _
            & (x4 & Hres & [= <- _])%bind_Ok)%bind_Ok)%bind_Ok)%bind_Ok)%bind_Ok)%bind_Ok.
  by eapply phase_resolve_phases.
Qed.

(** *** Well-formedness by computation *)

Lemma sectors_ranked_check (x : @SymmetricArray charge _ _ block) :
  map_Forall (λ s _, length s = ndim x) (blocks x) → sectors_ranked x.
Proof. intros Hall s [b Hb]. exact (Hall s b Hb). Qed.

Lemma blocks_ranked_check (x : @SymmetricArray charge _ _ block) :
  map_Forall (λ _ b, b_ndim b = ndim x) (blocks x) → blocks_ranked x.
Proof. intros Hall s b Hb. exact (Hall s b Hb). Qed.

Lemma phases_ranked_check x :
  map_Forall (λ s _, length s = ndim x) (phases x) → phases_ranked x.
Proof. intros Hall s [v Hv]. exact (Hall s v Hv). Qed.

Lemma phases_signs_check (ph : gmap (list charge) Z) :
  map_Forall (λ _ v, v = 1 ∨ v = -1) ph → phases_signs ph.
Proof. intros Hall s v Hv. exact (Hall s v Hv). Qed.

Lemma phases_keyed_check (ph : gmap (list charge) Z)
    (bs : gmap (list charge) block) :
  map_Forall (λ s _, is_Some (bs !! s)) ph → phases_keyed ph bs.
Proof. intros Hall s [v Hv]. exact (Hall s v Hv). Qed.

Lemma phase_invariant_check x :
  map_Forall (λ _ v, v = -1) (phases x) →
  map_Forall (λ s _, is_Some (blocks x !! s)) (phases x) →
  phase_invariant x.
Proof.
  intros Hsp Hk. split; [exact Hsp|by apply phases_keyed_check].
Qed.

End ArrayTheory.

(** ** The algebra of the buffered signs *)

Lemma mapM_Raise {A B} (f : A → result B) (l : list A) (e : exn) :
  (∀ a, a ∈ l → (∃ b, f a = Ok b) ∨ f a = Raise e) →
  (∃ a, a ∈ l ∧ f a = Raise e) → mapM f l = Raise e.
Proof.
  induction l as [|a l IH]; intros Hf (a0 & Hin & Ha0).
  - by apply elem_of_nil in Hin.
  - change (mapM f (a :: l)) with (y ← f a; k ← mapM f l; mret (y :: k)).
    destruct (Hf a) as [[b Hb]|Hb]; [by left| |by rewrite Hb].
    rewrite Hb. cbn. rewrite IH; [done| |].
    + intros a' Ha'. apply Hf. by right.
    + apply elem_of_cons in Hin as [->|Hin]; [congruence|by exists a0].
Qed.

Lemma foldM_Raise {A B} (P : B → Prop) (f : B → A → result B) (l : list A)
    (b : B) (e : exn) :
  P b →
  (∀ b a, a ∈ l → P b → (∃ b', f b a = Ok b' ∧ P b') ∨ f b a = Raise e) →
  (∃ a, a ∈ l ∧ ∀ b, P b → f b a = Raise e) → foldM f b l = Raise e.
Proof.
  revert b. induction l as [|a l IH]; intros b Hb Hf (a0 & Hin & Ha0).
  - by apply elem_of_nil in Hin.
  - cbn. destruct (Hf b a) as [(b' & Hfa & Hb')|Hfa];
      [by left|done| |by rewrite Hfa].
    rewrite Hfa. cbn. apply IH; [done| |].
    + intros b1 a1 Ha1. apply Hf. by right.
    + apply elem_of_cons in Hin as [->|Hin]; [|by exists a0].
      rewrite (Ha0 b Hb) in Hfa. discriminate Hfa.
Qed.

Lemma odd_mod2 (n : nat) : (n mod 2 ≠ 0)%nat ↔ Nat.odd n = true.
Proof.
  rewrite <- Nat.bit0_mod, Nat.bit0_odd. by destruct (Nat.odd n).
Qed.

(** ** The sign of a composed permutation *)

Section ComposedInversions.
Local Open Scope nat_scope.
Implicit Types (R T : nat → nat → bool) (l k : list nat).

Lemma sum_xor_odd {A} (f g : A → bool) (l : list A) :
  Nat.odd (sum_list_with (λ a, Nat.b2n (xorb (f a) (g a))) l)
  = xorb (Nat.odd (sum_list_with (λ a, Nat.b2n (f a)) l))
         (Nat.odd (sum_list_with (λ a, Nat.b2n (g a)) l)).
Proof.
  induction l as [|a l IH]; [done|]. cbn [sum_list_with].
  rewrite !Nat.odd_add, IH.
  destruct (f a), (g a), (Nat.odd (sum_list_with (λ a, Nat.b2n (f a)) l)),
    (Nat.odd (sum_list_with (λ a, Nat.b2n (g a)) l)); done.
Qed.

Lemma cnt_xor R T l :
  Nat.odd (cnt (λ x y, xorb (R x y) (T x y)) l)
  = xorb (Nat.odd (cnt R l)) (Nat.odd (cnt T l)).
Proof.
  induction l as [|x l IH]; [done|]. cbn [cnt].
  rewrite !Nat.odd_add, IH, (sum_xor_odd (R x) (T x)).
  destruct (Nat.odd (sum_list_with (λ a, Nat.b2n (R x a)) l)),
    (Nat.odd (sum_list_with (λ a, Nat.b2n (T x a)) l)),
    (Nat.odd (cnt R l)), (Nat.odd (cnt T l)); done.
Qed.

Lemma cnt_ext_NoDup R T l :
  NoDup l → (∀ x y, x ∈ l → y ∈ l → x ≠ y → R x y = T x y) →
  cnt R l = cnt T l.
Proof.
  induction 1 as [|x l Hx Hnd IH]; intros Hext; [done|]. cbn. f_equal.
  - apply sum_list_with_ext_in. intros y Hy.
    rewrite Hext; [done|left|by right|]. intros ->. done.
  - apply IH. intros x' y' Hx' Hy'. apply Hext; by right.
Qed.

(** A relation that does not tell the order of its arguments counts the
    same pairs however the list is arranged. *)
Lemma cnt_Permutation_sym T l k :
  l ≡ₚ k → NoDup l →
  (∀ x y, x ∈ l → y ∈ l → x ≠ y → T x y = T y x) →
  cnt T l = cnt T k.
Proof.
  induction 1 as [|x l k Hlk IH|x y l|l k m Hlk IH1 Hkm IH2];
    intros Hnd Hsym.
  - done.
  - apply NoDup_cons in Hnd as [Hx Hnd]. cbn. rewrite IH.
    + by rewrite Hlk.
    + done.
    + intros a b Ha Hb. apply Hsym; by right.
  - apply NoDup_cons in Hnd as [Hy Hnd]. apply not_elem_of_cons in Hy as [Hyx _].
    cbn. rewrite (Hsym y x); [lia|left|right; left|done].
  - rewrite IH1 by done. apply IH2.
    + by rewrite <- Hlk.
    + intros a b Ha Hb. apply Hsym; by rewrite Hlk.
Qed.

Lemma cnt_seq_ext R T (off n : nat) :
  (∀ x y, x < y → R x y = T x y) → cnt R (seq off n) = cnt T (seq off n).
Proof.
  intros Hext. revert off. induction n as [|n IH]; intros off; [done|].
  cbn. rewrite IH. f_equal. apply sum_list_with_ext_in.
  intros y Hy%elem_of_seq. rewrite Hext; [done|lia].
Qed.

Lemma filter_ext_in {A} (P Q : A → Prop) `{∀ a, Decision (P a)}
    `{∀ a, Decision (Q a)} (l : list A) :
  (∀ a, a ∈ l → P a ↔ Q a) → filter P l = filter Q l.
Proof.
  induction l as [|a l IH]; intros Hext; [done|].
  rewrite !filter_cons. rewrite IH by (intros; apply Hext; by right).
  destruct (decide (P a)) as [Ha|Ha].
  - rewrite decide_True; [done|]. apply Hext; [left|done].
  - rewrite decide_False; [done|]. intros Hq. apply Ha, Hext; [left|done].
Qed.

Lemma filter_map_list {A B} (f : A → B) (P : B → Prop)
    `{∀ b, Decision (P b)} (l : list A) :
  filter P (map f l) = map f (filter (λ a, P (f a)) l).
Proof.
  induction l as [|a l IH]; [done|].
  cbn [map]. rewrite !filter_cons, IH. by case_decide.
Qed.

Lemma take_at_map_default {A} (d : A) (it : list A) (perm : list nat) :
  Forall (λ a, a < length it) perm →
  take_at it perm = map (λ a, default d (it !! a)) perm.
Proof.
  induction 1 as [|a perm Ha _ IH]; [done|].
  destruct (getitem_lt it a Ha) as (c & Hc & _).
  rewrite (take_at_cons _ _ _ _ Hc), IH. cbn. by rewrite Hc.
Qed.

Lemma inversions_compose (par : list bool) (p q : list nat) (n : nat) :
  length par = n → is_perm p n → is_perm q n →
  Nat.odd (inversions (filter (λ a, par !! a = Some true) (take_at p q)))
  = xorb (Nat.odd (inversions (filter (λ a, par !! a = Some true) p)))
         (Nat.odd (inversions
                     (filter (λ a, take_at par p !! a = Some true) q))).
Proof.
  intros Hpar Hp Hq.
  pose proof (is_perm_length _ _ Hp) as Hplen.
  set (pf := λ a, default 0 (p !! a)).
  assert (∀ a, a < n → p !! a = Some (pf a)) as Hpf.
  { intros a Ha. unfold pf.
    destruct (lookup_lt_is_Some_2 p a) as [v ->]; [lia|done]. }
  assert (∀ a b, a < n → b < n → pf a = pf b → a = b) as Hinj.
  { intros a b Ha Hb Hab.
    apply (NoDup_lookup p a b (pf a)); [by eapply is_perm_NoDup|by apply Hpf|].
    rewrite Hab. by apply Hpf. }
  assert (take_at p q = map pf q) as Htake.
  { apply take_at_map_default. rewrite Hplen. by apply is_perm_Forall. }
  assert (p = map pf (seq 0 n)) as Hpmap.
  { apply list_eq. intros a. change (map pf (seq 0 n)) with (pf <$> seq 0 n).
    rewrite list_lookup_fmap.
    destruct (decide (a < n)) as [Ha|Ha].
    - rewrite lookup_seq_lt by done. cbn. by apply Hpf.
    - rewrite lookup_seq_ge by lia. apply lookup_ge_None. lia. }
  assert (∀ a, a < n →
            take_at par p !! a = Some true ↔ par !! pf a = Some true) as HS.
  { intros a Ha. rewrite take_at_lookup
      by (rewrite Hpar; by apply is_perm_Forall).
    by rewrite (Hpf a Ha). }
  set (B := filter (λ a, take_at par p !! a = Some true) q).
  set (B0 := filter (λ a, take_at par p !! a = Some true) (seq 0 n)).
  assert (filter (λ a, par !! a = Some true) (take_at p q) = map pf B) as ->.
  { rewrite Htake, filter_map_list. f_equal. apply filter_ext_in.
    intros a Ha. symmetry. apply HS. by apply (is_perm_elem q n). }
  assert (filter (λ a, par !! a = Some true) p = map pf B0) as ->.
  { rewrite Hpmap at 1. rewrite filter_map_list. f_equal. apply filter_ext_in.
    intros a Ha%elem_of_seq. symmetry. apply HS. lia. }
  assert (∀ a, a ∈ B → a < n) as HB.
  { intros a Ha. apply list_elem_of_filter in Ha as [_ Ha].
    by apply (is_perm_elem q n). }
  rewrite !inversions_cnt, !cnt_map.
  set (Rq := λ x y : nat, bool_decide (y < x)).
  set (Rp := λ x y : nat, bool_decide (pf y < pf x)).
  set (T := λ x y : nat, xorb (Rq x y) (Rp x y)).
  assert (cnt Rp B = cnt (λ x y, xorb (Rq x y) (T x y)) B) as ->.
  { apply cnt_ext_in. intros x y _ _. unfold T.
    by destruct (Rq x y), (Rp x y). }
  rewrite cnt_xor.
  assert (cnt T B = cnt Rp B0) as ->.
  { rewrite (cnt_Permutation_sym T B B0).
    - unfold B0. rewrite !cnt_filter. apply cnt_seq_ext.
      intros x y Hxy. unfold T, Rq.
      rewrite (bool_decide_eq_false_2 (y < x)) by lia. done.
    - unfold B, B0. by rewrite Hq.
    - apply NoDup_filter. by eapply is_perm_NoDup.
    - intros x y Hx%HB Hy%HB Hne. unfold T, Rq, Rp.
      assert (pf x ≠ pf y) as Hpne by (intros Heq; by apply Hne, Hinj).
      repeat case_bool_decide; try done; lia. }
  apply xorb_comm.
Qed.

End ComposedInversions.

Section PhaseAlgebra.
Context {charge : Type} `{Countable charge} {Sym : Symmetry charge}.
Context {block : Type} {BE : Backend block}.
Implicit Types (x y : @FermionicArray charge _ _ block).
Implicit Types (s k : list charge) (axes axs : list nat).
Implicit Types (o : option Z) (ph : gmap (list charge) Z).

Lemma with_phases_self x : with_phases x (phases x) = x.
Proof. by destruct x. Qed.

Lemma with_phases_twice x ph ph' :
  with_phases (with_phases x ph) ph' = with_phases x ph'.
Proof. done. Qed.

Lemma partial_alter_id {V} (m : gmap (list charge) V) s :
  partial_alter (λ v, v) s m = m.
Proof.
  apply map_eq. intros k. destruct (decide (k = s)) as [->|Hne];
    [by rewrite lookup_partial_alter_eq|by rewrite lookup_partial_alter_ne].
Qed.

(** *** [phase_flip] as a map over the stored sectors *)

Lemma parity_sum_Ok s axs :
  Forall (λ ax, ax < length s)%nat axs →
  parity_sum s axs
  = Ok (sum_list_with
          (λ ax, Nat.b2n (default false (parity <$> s !! ax))) axs mod 2)%nat.
Proof.
  intros Hax. unfold parity_sum.
  rewrite (mapM_Ok _ (λ ax, default false (parity <$> s !! ax))).
  - cbn. by rewrite sum_list_with_map.
  - intros ax Hin. rewrite Forall_forall in Hax.
    destruct (getitem_lt s ax (Hax ax Hin)) as (q & Hq & ->). cbn.
    by rewrite Hq.
Qed.

Lemma flipped_step ph s :
  (if decide (- phases_get ph s = 1) then delete s ph
   else <[s := - phases_get ph s]> ph)
  = partial_alter flipped s ph.
Proof.
  apply map_eq. intros k. unfold flipped, phases_get.
  destruct (decide (k = s)) as [->|Hne].
  - rewrite lookup_partial_alter_eq.
    destruct (decide (- default 1 (ph !! s) = 1)) as [Hone|Hone].
    + rewrite decide_True by lia. by rewrite lookup_delete_eq.
    + rewrite decide_False by lia. by rewrite lookup_insert_eq.
  - rewrite lookup_partial_alter_ne by done.
    case_decide; [by rewrite lookup_delete_ne|by rewrite lookup_insert_ne].
Qed.

Lemma flipped_flipped o : o ≠ Some 1 → flipped (flipped o) = o.
Proof.
  intros Hone. unfold flipped. destruct o as [v|]; cbn.
  - destruct (decide (v = -1)) as [->|Hv]; cbn; [done|].
    rewrite decide_False by (intros Heq; apply Hone; f_equal; lia).
    f_equal. lia.
  - done.
Qed.

Lemma odd_on_nil s : odd_on s [] = false.
Proof. done. Qed.

Lemma odd_on_app s axs1 axs2 :
  odd_on s (axs1 ++ axs2) = xorb (odd_on s axs1) (odd_on s axs2).
Proof.
  unfold odd_on. by rewrite sum_list_with_app, Nat.odd_add.
Qed.

Lemma phase_flip_Ok x axs :
  sectors_ranked x → Forall (λ ax, ax < ndim x)%nat axs →
  phase_flip x axs
  = Ok (with_phases x
          (foldl (λ ph s, partial_alter (flip_entry s axs) s ph)
                 (phases x) (sectors x))).
Proof.
  intros Hranked Hax. unfold phase_flip. destruct axs as [|ax axs].
  - f_equal. rewrite <- (with_phases_self x) at 1. f_equal.
    symmetry. apply (foldl_inv (λ ph, ph = phases x)); [done|].
    intros ph s _ ->. apply partial_alter_id.
  - erewrite foldM_pure; [done|].
    intros ph s Hs%elem_of_sectors. cbv zeta.
    rewrite parity_sum_Ok by (by rewrite (Hranked s Hs)).
    cbn [mbind result_bind]. unfold flip_entry, odd_on.
    destruct (Nat.odd _) eqn:Hodd.
    + rewrite decide_True by (by apply odd_mod2).
      change (λ o, flipped o) with flipped. rewrite <- flipped_step.
      by case_decide.
    + rewrite decide_False; [by rewrite partial_alter_id|].
      rewrite odd_mod2, Hodd. done.
Qed.

Lemma phase_flip_lookup x axs s :
  foldl (λ ph s, partial_alter (flip_entry s axs) s ph) (phases x) (sectors x)
    !! s
  = if decide (is_Some (blocks x !! s)) then flip_entry s axs (phases x !! s)
    else phases x !! s.
Proof.
  rewrite foldl_partial_alter by apply NoDup_sectors.
  destruct (decide (s ∈ sectors x)) as [Hin|Hin].
  - by rewrite decide_True by (by apply elem_of_sectors).
  - by rewrite decide_False by (by rewrite <- elem_of_sectors).
Qed.

(** [phase_flip] keeps the indices, the total charge and the blocks; it
    flips the buffered sign of every stored sector whose charges at the
    given axes have an odd parity, removing the entry when the sign becomes
    +1, and leaves every other entry of the phase dictionary as it is. *)
Theorem phase_flip_spec x axs :
  sectors_ranked x → Forall (λ ax, ax < ndim x)%nat axs →
  ∃ y, phase_flip x axs = Ok y
    ∧ base y = base x
    ∧ ∀ s, phases y !! s
        = if decide (is_Some (blocks x !! s) ∧ odd_on s axs = true)
          then (if decide (phases_get (phases x) s = -1) then None
                else Some (- phases_get (phases x) s))
          else phases x !! s.
Proof.
  intros Hranked Hax. eexists. split; [by apply phase_flip_Ok|].
  split; [done|]. intros s. cbn [phases with_phases].
  rewrite phase_flip_lookup. unfold flip_entry.
  destruct (decide (is_Some (blocks x !! s))) as [Hs|Hs].
  - destruct (odd_on s axs).
    + by rewrite decide_True by done.
    + rewrite decide_False; [done|]. by intros [_ ?].
  - rewrite decide_False; [done|]. by intros [? _].
Qed.

(** Flipping the same axes twice gives the array back, as long as no +1 is
    stored in the phase dictionary. *)
Theorem phase_flip_involutive x axs :
  sectors_ranked x → Forall (λ ax, ax < ndim x)%nat axs →
  phases_sparse (phases x) →
  ∃ y, phase_flip x axs = Ok y ∧ phase_flip y axs = Ok x.
Proof.
  intros Hranked Hax Hsp. eexists. split; [by apply phase_flip_Ok|].
  rewrite phase_flip_Ok by done. f_equal.
  etrans; [apply with_phases_twice|]. etrans; [|apply with_phases_self].
  f_equal. apply map_eq. intros s.
  rewrite (phase_flip_lookup (with_phases x _) axs s). cbn [phases with_phases].
  rewrite phase_flip_lookup. cbn.
  destruct (decide (is_Some (blocks x !! s))) as [Hs|Hs]; [|done].
  unfold flip_entry. destruct (odd_on s axs); [|done].
  apply flipped_flipped. intros Hone. by apply Hsp in Hone.
Qed.

(** Two flips in a row are one flip on the two lists of axes joined: an
    axis named twice cancels. *)
Theorem phase_flip_app x axs1 axs2 :
  sectors_ranked x → Forall (λ ax, ax < ndim x)%nat axs1 →
  Forall (λ ax, ax < ndim x)%nat axs2 → phases_sparse (phases x) →
  ∃ y, phase_flip x axs1 = Ok y
    ∧ phase_flip y axs2 = phase_flip x (axs1 ++ axs2).
Proof.
  intros Hranked Hax1 Hax2 Hsp. eexists. split; [by apply phase_flip_Ok|].
  rewrite !phase_flip_Ok by (done || by apply Forall_app). f_equal.
  etrans; [apply with_phases_twice|].
  f_equal. apply map_eq. intros s.
  rewrite (phase_flip_lookup (with_phases x _) axs2 s). cbn [phases with_phases].
  rewrite !phase_flip_lookup. cbn.
  destruct (decide (is_Some (blocks x !! s))) as [Hs|Hs]; [|done].
  unfold flip_entry. rewrite odd_on_app.
  destruct (odd_on s axs1), (odd_on s axs2); cbn; try done.
  apply flipped_flipped. intros Hone. by apply Hsp in Hone.
Qed.

(** An axis that is not below the rank makes [sector[ax]] raise as soon as
    there is a sector to read; an array without blocks has none, and is
    returned as it is whatever the axes. *)
Theorem phase_flip_IndexError x axs :
  (blocks x = ∅ → phase_flip x axs = Ok x)
  ∧ (blocks x ≠ ∅ → sectors_ranked x → Exists (λ ax, ndim x ≤ ax)%nat axs →
     phase_flip x axs = Raise IndexError).
Proof.
  split.
  - intros Hempty. unfold phase_flip, sectors. rewrite Hempty, map_to_list_empty.
    destruct axs; cbn; [done|]. by rewrite with_phases_self.
  - intros Hne Hranked Hex. unfold phase_flip.
    destruct axs as [|ax axs]; [by apply Exists_nil in Hex|].
    destruct (sectors x) as [|s0 rest] eqn:Hsec.
    { exfalso. apply Hne. apply map_to_list_empty_iff.
      unfold sectors in Hsec. by apply fmap_nil_inv in Hsec. }
    assert (length s0 = ndim x) as Hlen.
    { apply Hranked, elem_of_sectors. rewrite Hsec. by left. }
    cbn [foldM]. unfold parity_sum.
    rewrite (mapM_Raise _ (ax :: axs) IndexError); [done| |].
    + intros a _. unfold getitem. destruct (s0 !! a); cbn; eauto.
    + apply Exists_exists in Hex as (a & Hin & Ha). exists a. split; [done|].
      unfold getitem. by rewrite lookup_ge_None_2 by lia.
Qed.

(** *** [phase_resolve] and the keys of the phase dictionary *)

Lemma phase_resolve_missing x s :
  phases x !! s = Some (-1) → blocks x !! s = None →
  phase_resolve x = Raise KeyError.
Proof.
  intros Hph Hbs. unfold phase_resolve.
  rewrite (foldM_Raise (λ blks : gmap (list charge) block, blks !! s = None)
             _ _ _ KeyError); [done|done| |].
  - intros blks [s' v] _ Hnone. cbn. case_decide; [|left; by eexists].
    unfold dict_getitem. destruct (blks !! s') as [b|] eqn:Hb; [|by right].
    left. eexists. split; [done|]. rewrite lookup_insert_ne; [done|congruence].
  - exists (s, -1). split; [by apply elem_of_map_to_list|].
    intros blks Hnone. cbn. rewrite decide_True by done.
    unfold dict_getitem. by rewrite Hnone.
Qed.

(** A buffered -1 under a sector that has no block makes
    [new._blocks[sector]] raise. *)
Theorem phase_resolve_KeyError x s :
  phases x !! s = Some (-1) → blocks x !! s = None →
  phase_resolve x = Raise KeyError.
Proof. apply phase_resolve_missing. Qed.

Lemma phase_resolve_Ok_weak x :
  (∀ s, phases x !! s = Some (-1) → is_Some (blocks x !! s)) →
  phase_resolve x
  = Ok {| base := with_blocks x
                    (foldl (λ blks s, partial_alter (resolve_block (phases x) s) s blks)
                           (blocks x) (map_to_list (phases x)).*1);
          phases := ∅ |}.
Proof.
  intros Hneg. unfold phase_resolve.
  destruct (foldM_pure_inv
              (λ blks : gmap (list charge) block,
                 ∀ s, phases x !! s = Some (-1) → is_Some (blks !! s))
              (λ blks (sp : list charge * Z),
                 if decide (sp.2 = -1) then
                   array ← dict_getitem blks sp.1;
                   Ok (<[sp.1 := b_neg array]> blks)
                 else Ok blks)
              (λ blks sp, partial_alter (resolve_block (phases x) sp.1) sp.1 blks)
              (map_to_list (phases x)) (blocks x)) as [-> _].
  - done.
  - intros blks [s v] Hsv%elem_of_map_to_list Hinv. cbn.
    destruct (decide (v = -1)) as [->|Hv].
    + destruct (Hinv s Hsv) as [b Hb]. unfold dict_getitem. rewrite Hb. cbn.
      assert (partial_alter (resolve_block (phases x) s) s blks
              = <[s := b_neg b]> blks) as ->.
      { apply map_eq. intros k. unfold resolve_block. rewrite Hsv.
        destruct (decide (k = s)) as [->|Hne].
        - rewrite lookup_partial_alter_eq, Hb, lookup_insert_eq.
          by rewrite decide_True.
        - by rewrite lookup_partial_alter_ne, lookup_insert_ne. }
      split; [done|]. intros s' Hs'. apply is_Some_insert_mono. by apply Hinv.
    + assert (partial_alter (resolve_block (phases x) s) s blks = blks) as ->.
      { apply map_eq. intros k. unfold resolve_block. rewrite Hsv.
        destruct (decide (k = s)) as [->|Hne].
        - rewrite lookup_partial_alter_eq. by rewrite decide_False by congruence.
        - by rewrite lookup_partial_alter_ne. }
      done.
  - cbn. by rewrite foldl_fmap.
Qed.

(** Only a buffered -1 needs a block: any other entry of the phase
    dictionary, whatever its value and whether or not its key is a stored
    sector, is discarded without a block being read or changed. *)
Theorem phase_resolve_discards x :
  (∀ s, phases x !! s = Some (-1) → is_Some (blocks x !! s)) →
  ∃ y, phase_resolve x = Ok y
    ∧ indices y = indices x
    ∧ charge_total y = charge_total x
    ∧ phases y = ∅
    ∧ ∀ s, blocks y !! s
        = if decide (phases x !! s = Some (-1))
          then b_neg <$> blocks x !! s else blocks x !! s.
Proof.
  intros Hneg. eexists. split; [by apply phase_resolve_Ok_weak|].
  split_and!; [done|done|done|].
  intros s. cbn [base blocks with_blocks].
  rewrite foldl_partial_alter by apply NoDup_fst_map_to_list.
  unfold resolve_block. case_decide as Hin; [done|].
  rewrite decide_False; [done|]. intros Hs. apply Hin.
  apply list_elem_of_fmap. exists (s, -1). split; [done|].
  by apply elem_of_map_to_list.
Qed.

(** *** Signs multiplied twice *)

Lemma bump_bump (c : Z) o :
  c = 1 ∨ c = -1 → o ≠ Some 1 → bump c (bump c o) = o.
Proof.
  intros Hc Hone. unfold bump. destruct o as [v|]; cbn.
  - destruct Hc as [-> | ->].
    + assert (v ≠ 1) as Hv by (intros ->; by apply Hone).
      rewrite !Z.mul_1_r. destruct (decide (v = 1)); [done|]. cbn.
      by rewrite decide_False by done.
    + destruct (decide (v * -1 = 1)) as [Hv|Hv]; cbn.
      * f_equal. lia.
      * rewrite decide_False by (intros Heq; apply Hone; f_equal; lia).
        f_equal. lia.
  - destruct Hc as [-> | ->]; done.
Qed.

Lemma bump_signs (r : Z) (b1 b2 : bool) o :
  r = 1 ∨ r = -1 → o = None ∨ o = Some (-1) →
  bump (r * (if b2 then -1 else 1)) (bump (r * (if b1 then -1 else 1)) o)
  = if xorb b1 b2 then flipped o else o.
Proof. intros [-> | ->] [-> | ->]; destruct b1, b2; reflexivity. Qed.

Lemma sparse_entry ph s : phases_sparse ph → ph !! s = None ∨ ph !! s = Some (-1).
Proof.
  intros Hsp. destruct (ph !! s) as [v|] eqn:Hv; [right|by left].
  f_equal. by eapply Hsp.
Qed.

(** *** [phase_virtual_transpose] applied twice *)

Lemma phase_virtual_transpose_Ok_any x (oa : option (list nat)) :
  sectors_ranked x →
  match oa with
  | Some axes => Forall (λ a, a < ndim x)%nat axes
  | None => True
  end →
  phase_virtual_transpose x oa
  = Ok (with_phases x
          (foldl (λ ph s,
                    partial_alter
                      (bump (perm_sign (map parity s)
                               (default (reverse (seq 0 (length s))) oa)))
                      s ph)
                 (phases x) (sectors x))).
Proof.
  intros Hranked Hoa. unfold phase_virtual_transpose.
  erewrite foldM_pure; [done|].
  intros ph s Hs%elem_of_sectors. cbv zeta.
  assert (calc_phase_permutation (map parity s) oa
          = Ok (perm_sign (map parity s)
                  (default (reverse (seq 0 (length s))) oa))) as ->.
  { destruct oa as [axes|]; cbn [default].
    - apply calc_phase_permutation_Some.
      by rewrite length_map, (Hranked s Hs).
    - rewrite calc_phase_permutation_None. by rewrite length_map. }
  cbn [mbind result_bind]. rewrite <- bump_step. by case_decide.
Qed.

(** The signs of a virtual transposition are multiplied into entries whose
    keys stay where they are, so applying the same virtual transposition
    twice cancels, whatever the axes. *)
Theorem phase_virtual_transpose_involutive x (oa : option (list nat)) :
  sectors_ranked x →
  match oa with
  | Some axes => Forall (λ a, a < ndim x)%nat axes
  | None => True
  end →
  phases_sparse (phases x) →
  ∃ y, phase_virtual_transpose x oa = Ok y
    ∧ phase_virtual_transpose y oa = Ok x.
Proof.
  intros Hranked Hoa Hsp. eexists.
  split; [by apply phase_virtual_transpose_Ok_any|].
  rewrite phase_virtual_transpose_Ok_any by done. f_equal.
  etrans; [apply with_phases_twice|]. etrans; [|apply with_phases_self].
  f_equal. apply map_eq. intros s. cbn [base phases with_phases].
  rewrite !foldl_partial_alter by apply NoDup_sectors.
  destruct (decide (s ∈ sectors x)) as [Hin|Hin]; [|done].
  apply bump_bump; [apply perm_sign_cases|].
  intros Hone. by apply Hsp in Hone.
Qed.

(** *** [conj] as a map over the stored sectors *)

Lemma parities_sum_Ok s axs :
  Forall (λ ax, ax < length s)%nat axs →
  parities_sum (map parity s) axs
  = Ok (sum_list_with
          (λ ax, Nat.b2n (default false (parity <$> s !! ax))) axs mod 2)%nat.
Proof.
  intros Hax. unfold parities_sum.
  rewrite (mapM_Ok _ (λ ax, default false (parity <$> s !! ax))).
  - cbn. by rewrite sum_list_with_map.
  - intros ax Hin. rewrite Forall_forall in Hax.
    destruct (lookup_lt_is_Some_2 s ax (Hax ax Hin)) as [q Hq].
    rewrite Hq. cbn. apply getitem_Some.
    change (map parity s) with (parity <$> s).
    by rewrite list_lookup_fmap, Hq.
Qed.

Lemma foldl_pair {A B C} (f : A → C → A) (g : B → C → B) (l : list C) a b :
  foldl (λ st c, (f st.1 c, g st.2 c)) (a, b) l = (foldl f a l, foldl g b l).
Proof. revert a b. induction l as [|c l IH]; intros a b; cbn; [done|apply IH]. Qed.

Lemma foldl_insert_fmap {V} (f : V → V) (m : gmap (list charge) V) :
  foldl (λ acc kv, <[kv.1 := f kv.2]> acc) m (map_to_list m) = f <$> m.
Proof.
  assert (foldl (λ acc (kv : list charge * V), <[kv.1 := f kv.2]> acc) m
                (map_to_list m)
          = foldl (λ acc s, partial_alter (λ _, f <$> m !! s) s acc) m
                  (map_to_list m).*1) as ->.
  { rewrite foldl_fmap. apply foldl_ext_in.
    intros acc [s v] Hin%elem_of_map_to_list. cbn. by rewrite Hin. }
  apply map_eq. intros k.
  rewrite lookup_fmap, foldl_partial_alter by apply NoDup_fst_map_to_list.
  case_decide as Hin; [done|].
  destruct (m !! k) as [v|] eqn:Hk; [|done].
  exfalso. apply Hin. apply list_elem_of_fmap. exists (k, v).
  split; [done|by apply elem_of_map_to_list].
Qed.

Lemma conj_false_Ok x :
  conj x false
  = Ok {| base := {| indices := map ix_conj (indices x);
                     charge_total := charge_total x;
                     blocks := b_conj <$> blocks x |};
          phases := phases x |}.
Proof.
  unfold conj.
  erewrite (foldM_pure _ (λ st sa, (<[sa.1 := b_conj sa.2]> st.1, st.2))).
  - rewrite (foldl_pair (λ blks (sa : list charge * block),
                           <[sa.1 := b_conj sa.2]> blks) (λ ph _, ph)).
    cbn. rewrite foldl_insert_fmap. do 2 f_equal.
    apply (foldl_inv (λ ph, ph = phases x)); [done|]. by intros ph sa _ ->.
  - by intros [blks ph] sa _.
Qed.

Lemma conj_true_Ok x :
  sectors_ranked x →
  conj x true
  = Ok {| base := {| indices := map ix_conj (indices x);
                     charge_total := charge_total x;
                     blocks := b_conj <$> blocks x |};
          phases :=
            foldl (λ ph s, partial_alter (bump (conj_sign (indices x) s)) s ph)
                  (phases x) (sectors x) |}.
Proof.
  intros Hranked. unfold conj.
  erewrite (foldM_pure _
              (λ st sa, (<[sa.1 := b_conj sa.2]> st.1,
                         partial_alter (bump (conj_sign (indices x) sa.1))
                                       sa.1 st.2))).
  - rewrite (foldl_pair (λ blks (sa : list charge * block),
                           <[sa.1 := b_conj sa.2]> blks)
                        (λ ph (sa : list charge * block),
                           partial_alter (bump (conj_sign (indices x) sa.1))
                                         sa.1 ph)).
    cbn. rewrite foldl_insert_fmap. do 2 f_equal.
    unfold sectors. by rewrite foldl_fmap.
  - intros [blks ph] [s b] Hin%elem_of_map_to_list. cbn - [phases_get].
    rewrite calc_phase_permutation_None. cbn - [phases_get].
    rewrite parities_sum_Ok.
    + cbn [mbind result_bind]. rewrite length_map.
      rewrite <- Z.mul_assoc.
      assert (perm_sign (map parity s) (reverse (seq 0 (length s)))
              * (if decide
                      ((sum_list_with
                          (λ ax, Nat.b2n (default false (parity <$> s !! ax)))
                          (flow_axes (map ix_conj (indices x))) mod 2)%nat
                       ≠ 0%nat)
                 then -1 else 1)
              = conj_sign (indices x) s) as ->.
      { unfold conj_sign, odd_on. f_equal.
        destruct (Nat.odd _) eqn:Hodd.
        - by rewrite decide_True by (by apply odd_mod2).
        - rewrite decide_False; [done|]. by rewrite odd_mod2, Hodd. }
      rewrite <- bump_step. by case_decide.
    + rewrite (Hranked s) by (by eexists).
      pose proof (flow_axes_lt (map ix_conj (indices x))) as Hlt.
      by rewrite length_map in Hlt.
Qed.

Lemma foldl_sectors_lookup (G : list charge → option Z → option Z)
    (X : @SymmetricArray charge _ _ block) ph s :
  foldl (λ ph s, partial_alter (G s) s ph) ph (sectors X) !! s
  = if decide (is_Some (blocks X !! s)) then G s (ph !! s) else ph !! s.
Proof.
  rewrite foldl_partial_alter by apply NoDup_sectors.
  destruct (decide (s ∈ sectors X)) as [Hin|Hin].
  - by rewrite decide_True by (by apply elem_of_sectors).
  - by rewrite decide_False by (by rewrite <- elem_of_sectors).
Qed.

(** [conj] flips the flow of every index and conjugates every block under
    its key; without [phase] the phase dictionary is not touched, and with
    it the phase of each stored sector is multiplied by the sign of the
    reversal of all axes and by -1 when the charges at the axes that are
    dual after the conjugation have an odd parity, a product of +1 being
    dropped. *)
Theorem conj_spec x (phase : bool) :
  sectors_ranked x →
  ∃ y, conj x phase = Ok y
    ∧ indices y = map ix_conj (indices x)
    ∧ charge_total y = charge_total x
    ∧ blocks y = b_conj <$> blocks x
    ∧ (phase = false → phases y = phases x)
    ∧ (phase = true →
       (∀ s, is_Some (blocks x !! s) →
          ∃ c, calc_phase_permutation (map parity s) None = Ok c
             ∧ phases y !! s
               = let v := phases_get (phases x) s * c
                          * (if odd_on s (flow_axes (indices y)) then -1 else 1)
                 in if decide (v = 1) then None else Some v)
       ∧ (∀ s, blocks x !! s = None → phases y !! s = phases x !! s)).
Proof.
  intros Hranked. destruct phase.
  - eexists. split; [by apply conj_true_Ok|].
    split_and!; [done|done|done|done|]. intros _. cbn [base phases indices].
    split.
    + intros s Hs. eexists. split.
      { rewrite calc_phase_permutation_None. by rewrite length_map. }
      rewrite foldl_sectors_lookup, decide_True by done.
      unfold bump, conj_sign, phases_get. cbv zeta. by rewrite Z.mul_assoc.
    + intros s Hs. rewrite foldl_sectors_lookup, decide_False; [done|].
      rewrite Hs. by intros [? ?].
  - eexists. split; [by apply conj_false_Ok|].
    split_and!; [done|done|done|done|]. intros Hfalse. discriminate Hfalse.
Qed.

(** *** The parities of a sector at the dual and at the other axes *)

Lemma filter_list_fmap {A B} (f : A → B) (P : B → Prop)
    `{∀ b, Decision (P b)} (l : list A) :
  filter P (f <$> l) = f <$> filter (λ a, P (f a)) l.
Proof.
  induction l as [|a l IH]; [done|].
  rewrite fmap_cons, !filter_cons, IH. by case_decide.
Qed.

Lemma flow_axes_cons (ix : @BlockIndex charge) ixs :
  flow_axes (ix :: ixs)
  = (if flow ix then [0%nat] else []) ++ (S <$> flow_axes ixs).
Proof.
  unfold flow_axes. rewrite imap_cons, filter_cons. cbn [snd].
  assert (imap (pair ∘ S) ixs
          = prod_map S id <$> imap (pair : nat → BlockIndex → _) ixs) as ->.
  { rewrite fmap_imap. by apply imap_ext. }
  rewrite filter_list_fmap.
  assert ((prod_map S id <$>
             filter (λ a : nat * BlockIndex, flow (prod_map S id a).2 = true)
               (imap pair ixs)).*1
          = S <$> (filter (λ p : nat * BlockIndex, flow p.2 = true)
                     (imap pair ixs)).*1) as Htail.
  { rewrite <- !list_fmap_compose. by apply list_fmap_ext. }
  destruct (flow ix) eqn:Hflow.
  - rewrite decide_True by done. cbn. by rewrite Htail.
  - rewrite decide_False by (by intros ?). cbn. by rewrite Htail.
Qed.

Lemma sum_list_with_fmap {A B} (f : B → nat) (g : A → B) (l : list A) :
  sum_list_with f (g <$> l) = sum_list_with (λ a, f (g a)) l.
Proof. induction l as [|a l IH]; cbn; [done|]. by rewrite IH. Qed.

Lemma sum_flow_axes s (ixs : list (@BlockIndex charge)) :
  sum_list_with (λ ax, Nat.b2n (default false (parity <$> s !! ax)))
                (flow_axes ixs)
  = sum_list_with (λ p, if flow p.2 then Nat.b2n (parity p.1) else 0%nat)
                  (zip s ixs).
Proof.
  revert s. induction ixs as [|ix ixs IH]; intros s.
  - by destruct s.
  - rewrite flow_axes_cons, sum_list_with_app, sum_list_with_fmap.
    destruct s as [|q s].
    + cbn. by rewrite !sum_list_with_zero.
    + cbn [zip zip_with sum_list_with snd fst lookup list_lookup].
      rewrite <- IH. cbn. destruct (flow ix); cbn; by rewrite ?Nat.add_0_r.
Qed.

Lemma sum_flow_axes_conj s (ixs : list (@BlockIndex charge)) :
  sum_list_with (λ ax, Nat.b2n (default false (parity <$> s !! ax)))
                (flow_axes (map ix_conj ixs))
  = sum_list_with (λ p, if flow p.2 then 0%nat else Nat.b2n (parity p.1))
                  (zip s ixs).
Proof.
  revert s. induction ixs as [|ix ixs IH]; intros s.
  - by destruct s.
  - cbn [map]. rewrite flow_axes_cons, sum_list_with_app, sum_list_with_fmap.
    destruct s as [|q s].
    + cbn. by rewrite !sum_list_with_zero.
    + cbn [zip zip_with sum_list_with snd fst lookup list_lookup].
      rewrite <- IH. cbn. destruct (flow ix); cbn; by rewrite ?Nat.add_0_r.
Qed.

Lemma sum_all_axes s (ixs : list (@BlockIndex charge)) :
  sum_list_with (λ ax, Nat.b2n (default false (parity <$> s !! ax)))
                (seq 0 (length ixs))
  = sum_list_with (λ p, Nat.b2n (parity p.1)) (zip s ixs).
Proof.
  revert s. induction ixs as [|ix ixs IH]; intros s.
  - by destruct s.
  - cbn [length seq]. rewrite <- fmap_S_seq. cbn [sum_list_with].
    rewrite sum_list_with_fmap. destruct s as [|q s].
    + cbn. by rewrite sum_list_with_zero.
    + cbn [zip zip_with sum_list_with snd fst lookup list_lookup].
      rewrite <- IH. done.
Qed.

Lemma odd_on_flows s (ixs : list (@BlockIndex charge)) :
  xorb (odd_on s (flow_axes (map ix_conj ixs))) (odd_on s (flow_axes ixs))
  = odd_on s (seq 0 (length ixs)).
Proof.
  unfold odd_on. rewrite <- Nat.odd_add. f_equal.
  rewrite sum_flow_axes_conj, sum_flow_axes, sum_all_axes.
  rewrite <- sum_list_with_add. apply sum_list_with_ext_in.
  intros [q ix] _. cbn. destruct (flow ix); lia.
Qed.

Lemma zip_reverse {A B} (l : list A) (k : list B) :
  length l = length k → zip (reverse l) (reverse k) = reverse (zip l k).
Proof.
  revert k. induction l as [|a l IH]; intros [|b k] Hlen; try done.
  cbn [zip_with]. rewrite !reverse_cons. rewrite zip_with_app.
  - rewrite IH by (cbn in Hlen; lia). done.
  - rewrite !length_reverse. cbn in Hlen. lia.
Qed.

Lemma odd_on_reverse s (ixs : list (@BlockIndex charge)) :
  length s = length ixs →
  odd_on (reverse s) (flow_axes (map ix_conj (reverse ixs)))
  = odd_on s (flow_axes (map ix_conj ixs)).
Proof.
  intros Hlen. unfold odd_on. f_equal.
  rewrite !sum_flow_axes_conj, zip_reverse by done.
  apply sum_list_with_reverse.
Qed.

Lemma ix_conj_involutive (ixs : list (@BlockIndex charge)) :
  map ix_conj (map ix_conj ixs) = ixs.
Proof.
  rewrite map_map. rewrite <- (map_id ixs) at 2. apply map_ext.
  intros [cm f]. unfold ix_conj. cbn. by rewrite negb_involutive.
Qed.

(** *** [dagger] as a re-keying of the stored sectors *)

Lemma dagger_fold (l : list (list charge * block)) (op0 : gmap (list charge) Z)
    (nb : gmap (list charge) block) (np op : gmap (list charge) Z) :
  NoDup l.*1 → (∀ sa, sa ∈ l → op !! sa.1 = op0 !! sa.1) →
  foldl (λ '(new_blocks, new_phases, old_phases) (sa : list charge * block),
           let sector := sa.1 in
           let new_sector := reverse sector in
           let popped := phases_get old_phases sector in
           let old_phases := delete sector old_phases in
           let new_phases :=
             if decide (popped = -1) then <[new_sector := -1]> new_phases
             else new_phases in
           (<[new_sector := b_transpose (b_conj sa.2) None]> new_blocks,
            new_phases, old_phases))
        (nb, np, op) l
  = (foldl (rekey_step (λ sa, reverse sa.1) (λ sa, Some (b_adjoint sa.2))) nb l,
     foldl (rekey_step (λ sa, reverse sa.1)
              (λ sa, if decide (phases_get op0 sa.1 = -1) then Some (-1)
                     else None)) np l,
     foldl (λ op sa, delete sa.1 op) op l).
Proof.
  revert nb np op. induction l as [|[s b] l IH]; intros nb np op Hnd Hop; [done|].
  rewrite fmap_cons, NoDup_cons in Hnd. destruct Hnd as [Hfresh Hnd].
  cbn [foldl]. cbv zeta. cbn [fst snd]. rewrite IH; [|done|].
  - assert (op !! s = op0 !! s) as Hs by (apply (Hop (s, b)); by left).
    unfold rekey_step, phases_get, b_adjoint. cbn [fst snd]. rewrite Hs.
    by case_decide.
  - intros [s' b'] Hin. cbn.
    rewrite lookup_delete_ne; [apply (Hop (s', b')); by right|].
    intros ->. apply Hfresh. by apply (list_elem_of_fmap_2 fst _ (s', b')).
Qed.

Lemma rekey_reverse_lookup {V W : Type} (m : gmap (list charge) V)
    (val : list charge → V → option W) s :
  foldl (rekey_step (λ kv, reverse kv.1) (λ kv, val kv.1 kv.2)) ∅
        (map_to_list m) !! reverse s
  = m !! s ≫= val s.
Proof.
  assert (NoDup ((λ kv : list charge * V, reverse kv.1) <$> map_to_list m))
    as Hnd.
  { apply NoDup_fmap_2_strong; [|apply NoDup_map_to_list].
    intros [s1 v1] [s2 v2] H1%elem_of_map_to_list H2%elem_of_map_to_list Heq.
    change (reverse s1 = reverse s2) in Heq. apply (f_equal reverse) in Heq.
    rewrite !reverse_involutive in Heq. congruence. }
  destruct (m !! s) as [v|] eqn:Hm; cbn.
  - rewrite (rekey_touched (λ kv : list charge * V, reverse kv.1) _ _ _ (s, v))
      by (done || by apply elem_of_map_to_list).
    cbn. destruct (val s v); [done|apply lookup_empty].
  - rewrite rekey_untouched; [apply lookup_empty|].
    intros ([s' v'] & Heq & Hin%elem_of_map_to_list)%list_elem_of_fmap.
    change (reverse s = reverse s') in Heq. apply (f_equal reverse) in Heq.
    rewrite !reverse_involutive in Heq. congruence.
Qed.

Lemma dagger_false_lookup x :
  ∃ y, dagger x false = Ok y
    ∧ indices y = map ix_conj (reverse (indices x))
    ∧ charge_total y = charge_total x
    ∧ (∀ s, blocks y !! reverse s = b_adjoint <$> blocks x !! s)
    ∧ (∀ s, phases y !! reverse s
          = match blocks x !! s with
            | Some _ =>
                if decide (phases x !! s = Some (-1)) then Some (-1) else None
            | None => None
            end)
    ∧ dagger x true = phase_flip y (flow_axes (indices y)).
Proof.
  unfold dagger.
  rewrite (dagger_fold _ (phases x)); [|apply NoDup_fst_map_to_list|done].
  eexists. split; [reflexivity|]. cbn [base indices charge_total blocks phases].
  split_and!; [done|done| | |done].
  - intros s.
    rewrite (rekey_reverse_lookup (blocks x) (λ _ b, Some (b_adjoint b))).
    by destruct (blocks x !! s).
  - intros s.
    etrans;
      [exact (rekey_reverse_lookup (blocks x)
                (λ s _, if decide (phases_get (phases x) s = -1)
                        then Some (-1) else None) s)|].
    unfold phases_get.
    destruct (blocks x !! s) as [b|]; cbn; [|done].
    destruct (phases x !! s) as [v|] eqn:Hv; cbn.
    + destruct (decide (v = -1)) as [->|Hne].
      * by rewrite decide_True.
      * by rewrite decide_False by congruence.
    + by rewrite !decide_False.
Qed.

(** [dagger] reverses the order of the indices and flips their flows; the
    block of a sector is stored, conjugated and transposed, under the
    reversed sector; a buffered -1 of a stored sector follows it, every
    other entry of the phase dictionary being dropped; and with [phase] the
    result is flipped on the axes that are dual in the new order. *)
Theorem dagger_spec x :
  ∃ y, dagger x false = Ok y
    ∧ indices y = map ix_conj (reverse (indices x))
    ∧ charge_total y = charge_total x
    ∧ (∀ s, blocks y !! reverse s
          = (λ b, b_transpose (b_conj b) None) <$> blocks x !! s)
    ∧ (∀ s, phases y !! reverse s
          = if decide (is_Some (blocks x !! s) ∧ phases x !! s = Some (-1))
            then Some (-1) else None)
    ∧ dagger x true = phase_flip y (flow_axes (indices y)).
Proof.
  destruct (dagger_false_lookup x) as (y & Hy & Hix & Hct & Hbs & Hph & Htrue).
  exists y. split_and!; [done|done|done|done| |done].
  intros s. rewrite Hph. destruct (blocks x !! s) as [b|].
  - destruct (decide (phases x !! s = Some (-1))) as [Hs|Hs].
    + rewrite decide_True; [done|]. split; [by eexists|done].
    + rewrite decide_False; [done|]. by intros [_ ?].
  - rewrite decide_False; [done|]. by intros [[? ?] _].
Qed.

(** *** Conjugating twice *)

Lemma array_eq x y :
  indices x = indices y → charge_total x = charge_total y →
  blocks x = blocks y → phases x = phases y → x = y.
Proof.
  destruct x as [[ixs ct bs] ph], y as [[ixs' ct' bs'] ph']. cbn.
  by intros -> -> -> ->.
Qed.

Lemma all_axes_lt (n : nat) : Forall (λ ax, ax < n)%nat (seq 0 n).
Proof. apply Forall_forall. intros ax Hax%elem_of_seq. lia. Qed.

Lemma reversed_indices (ixs : list (@BlockIndex charge)) :
  map ix_conj (reverse (map ix_conj (reverse ixs))) = ixs.
Proof.
  rewrite fmap_reverse. etrans; [|apply reverse_involutive].
  f_equal. apply ix_conj_involutive.
Qed.

Lemma phase_flip_even x axs :
  sectors_ranked x → Forall (λ ax, ax < ndim x)%nat axs →
  (∀ s, is_Some (blocks x !! s) → odd_on s axs = false) →
  phase_flip x axs = Ok x.
Proof.
  intros Hranked Hax Heven. rewrite phase_flip_Ok by done. f_equal.
  etrans; [|apply with_phases_self]. f_equal. apply map_eq. intros s.
  rewrite phase_flip_lookup. case_decide as Hs; [|done].
  unfold flip_entry. by rewrite (Heven s Hs).
Qed.

Lemma phase_resolve_empty x : phases x = ∅ → phase_resolve x = Ok x.
Proof.
  intros Hempty. unfold phase_resolve. rewrite Hempty, map_to_list_empty. cbn.
  f_equal. apply array_eq; cbn; done.
Qed.

Lemma phases_sparse_check ph :
  map_Forall (λ _ v, v = -1) ph → phases_sparse ph.
Proof. intros Hall s v Hv. exact (Hall s v Hv). Qed.

Lemma even_sectors_check (X : @SymmetricArray charge _ _ block) axs :
  map_Forall (λ s _, odd_on s axs = false) (blocks X) →
  ∀ s, is_Some (blocks X !! s) → odd_on s axs = false.
Proof. intros Hall s [b Hb]. exact (Hall s b Hb). Qed.

Section Involutions.
Context {IL : InvolutionLaws block}.

Lemma fmap_conj_conj (bs : gmap (list charge) block) :
  b_conj <$> (b_conj <$> bs) = bs.
Proof.
  rewrite <- map_fmap_compose. rewrite <- (map_fmap_id bs) at 2.
  apply map_fmap_ext. intros s b _. cbn. apply b_conj_conj.
Qed.

(** Conjugating twice without [phase] gives the array back; with [phase]
    the two reversal signs cancel and the two signs of the dual axes, taken
    once at the axes that are dual and once at the others, leave a flip on
    all the axes: the sectors of odd total parity change sign. *)
Theorem conj_conj x :
  sectors_ranked x →
  (∃ y, conj x false = Ok y ∧ conj y false = Ok x)
  ∧ (phases_sparse (phases x) →
     ∃ y, conj x true = Ok y
       ∧ conj y true = phase_flip x (seq 0 (ndim x))).
Proof.
  intros Hranked. split.
  - eexists. split; [apply conj_false_Ok|]. rewrite conj_false_Ok. f_equal.
    apply array_eq; cbn; [apply ix_conj_involutive|done|apply fmap_conj_conj|done].
  - intros Hsp. eexists. split; [by apply conj_true_Ok|].
    rewrite conj_true_Ok.
    2:{ intros s. cbn. rewrite lookup_fmap, fmap_is_Some. intros Hs.
        unfold ndim. cbn. rewrite length_map. by apply Hranked. }
    rewrite phase_flip_Ok by (done || apply all_axes_lt). f_equal.
    apply array_eq; cbn [base indices charge_total blocks phases with_phases];
      [apply ix_conj_involutive|done|apply fmap_conj_conj|].
    apply map_eq. intros s.
    rewrite phase_flip_lookup.
    rewrite (foldl_sectors_lookup _ {| indices := map ix_conj (indices x);
                                       charge_total := charge_total x;
                                       blocks := b_conj <$> blocks x |}).
    cbn [blocks]. rewrite foldl_sectors_lookup, lookup_fmap.
    destruct (blocks x !! s) as [b|] eqn:Hb; cbn.
    + rewrite !decide_True by (by eexists).
      unfold conj_sign, flip_entry. rewrite ix_conj_involutive.
      rewrite bump_signs;
        [|apply perm_sign_cases|by apply sparse_entry].
      by rewrite odd_on_flows.
    + by rewrite !decide_False by (by intros [? ?]).
Qed.

(** *** Taking the adjoint twice *)

Lemma fmap_adjoint_adjoint (ob : option block) :
  b_adjoint <$> (b_adjoint <$> ob) = ob.
Proof.
  destruct ob as [b|]; cbn; [|done]. f_equal. apply b_adjoint_adjoint.
Qed.

(** The adjoint taken twice without [phase] gives the array back; with
    [phase] the two flips, one on the axes that are dual after the first
    reversal and one on the axes that are dual in the original order, leave
    a flip on all the axes, so the array comes back when every stored sector
    has an even total parity. *)
Theorem dagger_dagger x :
  sectors_ranked x → phase_invariant x →
  (∃ y, dagger x false = Ok y ∧ dagger y false = Ok x)
  ∧ (∃ y, dagger x true = Ok y
        ∧ dagger y true = phase_flip x (seq 0 (ndim x)))
  ∧ ((∀ s, is_Some (blocks x !! s) → odd_on s (seq 0 (ndim x)) = false) →
     ∃ y, dagger x true = Ok y ∧ dagger y true = Ok x).
Proof.
  intros Hranked [Hsp Hkeyed].
  destruct (dagger_false_lookup x) as (y0 & Hy0 & Hix0 & Hct0 & Hbs0 & Hph0 & Ht0).
  assert (ndim y0 = ndim x) as Hnd0.
  { unfold ndim. by rewrite Hix0, length_map, length_reverse. }
  assert (sectors_ranked y0) as Hranked0.
  { intros k Hk. rewrite <- (reverse_involutive k) in Hk.
    rewrite Hbs0, fmap_is_Some in Hk. apply Hranked in Hk.
    rewrite length_reverse in Hk. by rewrite Hnd0. }
  assert (∀ k, blocks x !! k = None → phases x !! k = None) as Hnone.
  { intros k Hk. destruct (phases x !! k) as [v|] eqn:Hv; [|done].
    destruct (Hkeyed k) as [b Hb]; [by eexists|congruence]. }
  assert (∃ y1, dagger x true = Ok y1 ∧ dagger y1 true = phase_flip x (seq 0 (ndim x)))
    as Htwice.
  { rewrite Ht0.
    rewrite phase_flip_Ok by (done || apply flow_axes_lt).
    eexists. split; [done|].
    match goal with
    | |- dagger ?y true = _ =>
        destruct (dagger_false_lookup y)
          as (z0 & Hz0 & Hix1 & Hct1 & Hbs1 & Hph1 & Ht1)
    end.
    cbn [base indices charge_total blocks phases with_phases] in *.
    rewrite Ht1.
    assert (indices z0 = indices x) as Hixz.
    { rewrite Hix1, Hix0. apply reversed_indices. }
    assert (∀ k, blocks z0 !! k = blocks x !! k) as Hbsz.
    { intros k. rewrite <- (reverse_involutive k) at 1.
      rewrite Hbs1. rewrite <- (reverse_involutive k) at 2.
      rewrite reverse_involutive, Hbs0. apply fmap_adjoint_adjoint. }
    rewrite phase_flip_Ok.
    2:{ intros k Hk. rewrite Hbsz in Hk. unfold ndim. rewrite Hixz.
        by apply Hranked. }
    2:{ apply flow_axes_lt. }
    rewrite phase_flip_Ok by (done || apply all_axes_lt). f_equal.
    apply array_eq; cbn [base indices charge_total blocks phases with_phases];
      [done|congruence|by apply map_eq|].
    apply map_eq. intros k. rewrite !phase_flip_lookup, Hbsz, Hixz.
    pose proof (Hph1 (reverse k)) as Hz. rewrite reverse_involutive in Hz.
    rewrite phase_flip_lookup, Hbs0, Hph0, Hix0 in Hz. rewrite Hz. clear Hz.
    destruct (blocks x !! k) as [b|] eqn:Hb.
    - cbn [fmap option_fmap option_map].
      rewrite !decide_True by (by eexists).
      assert (length k = length (indices x)) as Hlen
        by (apply Hranked; by eexists).
      unfold flip_entry, ndim. rewrite (odd_on_reverse k (indices x) Hlen).
      rewrite <- odd_on_flows.
      destruct (sparse_entry (phases x) k Hsp) as [-> | ->];
        destruct (odd_on k (flow_axes (map ix_conj (indices x)))),
                 (odd_on k (flow_axes (indices x))); reflexivity.
    - cbn [fmap option_fmap option_map].
      rewrite !decide_False by (by intros [? ?]).
      by rewrite (Hnone k Hb). }
  split_and!.
  - exists y0. split; [done|].
    destruct (dagger_false_lookup y0) as (z & Hz & Hix1 & Hct1 & Hbs1 & Hph1 & _).
    rewrite Hz. f_equal. apply array_eq.
    + rewrite Hix1, Hix0. apply reversed_indices.
    + congruence.
    + apply map_eq. intros k. rewrite <- (reverse_involutive k) at 1.
      rewrite Hbs1. rewrite <- (reverse_involutive k) at 1.
      rewrite reverse_involutive, Hbs0. apply fmap_adjoint_adjoint.
    + apply map_eq. intros k. rewrite <- (reverse_involutive k) at 1.
      rewrite Hph1, Hbs0, Hph0.
      destruct (blocks x !! k) as [b|] eqn:Hb; cbn.
      * destruct (sparse_entry (phases x) k Hsp) as [-> | ->]; done.
      * by rewrite (Hnone k Hb).
  - exact Htwice.
  - intros Heven. destruct Htwice as (y1 & Hy1 & Hy1').
    exists y1. split; [done|]. rewrite Hy1'.
    apply phase_flip_even; [done|apply all_axes_lt|done].
Qed.

(** *** Flipping before or after the phases are resolved *)

Lemma phase_resolve_lookup ph (bs : gmap (list charge) block) s :
  foldl (λ blks s, partial_alter (resolve_block ph s) s blks)
        bs (map_to_list ph).*1 !! s
  = if decide (ph !! s = Some (-1)) then b_neg <$> bs !! s else bs !! s.
Proof.
  rewrite foldl_partial_alter by apply NoDup_fst_map_to_list.
  unfold resolve_block. case_decide as Hin; [done|].
  rewrite decide_False; [done|]. intros Hs. apply Hin.
  apply list_elem_of_fmap. exists (s, -1). split; [done|].
  by apply elem_of_map_to_list.
Qed.

Lemma phases_keyed_None x s :
  phase_invariant x → blocks x !! s = None → phases x !! s = None.
Proof.
  intros [_ Hkeyed] Hs. destruct (phases x !! s) as [v|] eqn:Hv; [|done].
  destruct (Hkeyed s) as [b Hb]; [by eexists|congruence].
Qed.

Lemma phase_invariant_neg x s :
  phase_invariant x → phases x !! s = Some (-1) → is_Some (blocks x !! s).
Proof. intros [_ Hkeyed] Hs. apply Hkeyed. by eexists. Qed.

(** The buffered signs are sound for [phase_flip]: resolving, flipping and
    resolving again gives the array that flipping and resolving once
    gives. *)
Theorem phase_flip_resolve x axs :
  sectors_ranked x → Forall (λ ax, ax < ndim x)%nat axs → phase_invariant x →
  ∃ r y y', phase_resolve x = Ok r
    ∧ phase_flip r axs = Ok y
    ∧ phase_flip x axs = Ok y'
    ∧ phase_resolve y = phase_resolve y'.
Proof.
  intros Hranked Hax Hinv.
  pose proof Hinv as [Hsp Hkeyed].
  eexists _, _, _.
  split; [apply phase_resolve_Ok_weak; intros s; by apply phase_invariant_neg|].
  split.
  { apply phase_flip_Ok; [|done]. intros s. cbn [base blocks with_blocks].
    rewrite phase_resolve_lookup.
    case_decide; [rewrite fmap_is_Some|]; apply Hranked. }
  split; [by apply phase_flip_Ok|].
  assert (phase_invariant
            (with_phases x
               (foldl (λ ph s, partial_alter (flip_entry s axs) s ph)
                      (phases x) (sectors x)))) as Hinv'.
  { eapply phase_flip_invariant; [exact Hinv|by apply phase_flip_Ok]. }
  rewrite !phase_resolve_Ok_weak.
  - f_equal. apply array_eq; cbn [base indices charge_total blocks phases
                                  with_blocks with_phases]; [done|done| |done].
    apply map_eq. intros s.
    rewrite !phase_resolve_lookup.
    rewrite !(foldl_sectors_lookup (λ s, flip_entry s axs)).
    cbn [base blocks phases with_blocks]. rewrite phase_resolve_lookup.
    rewrite lookup_empty.
    destruct (blocks x !! s) as [b|] eqn:Hb.
    + assert (is_Some (if decide (phases x !! s = Some (-1))
                       then b_neg <$> Some b else Some b)) as Hsome
        by (case_decide; by eexists).
      rewrite (decide_True _ _ Hsome).
      rewrite (decide_True (P := is_Some (Some b))) by (by eexists).
      unfold flip_entry.
      change (flipped None) with (Some (-1)).
      destruct (sparse_entry (phases x) s Hsp) as [-> | ->];
        destruct (odd_on s axs);
        rewrite ?(eq_refl : flipped (Some (-1)) = None);
        repeat case_decide; try congruence; cbn; by rewrite ?b_neg_neg.
    + rewrite (phases_keyed_None x s Hinv Hb).
      rewrite !decide_False; try done; try (by intros [? ?]).
  - intros s. by apply phase_invariant_neg.
  - intros s Hs. cbn [base blocks phases with_blocks with_phases] in *.
    rewrite (foldl_sectors_lookup (λ s, flip_entry s axs)) in Hs.
    cbn [base blocks phases with_blocks] in Hs.
    rewrite !phase_resolve_lookup in *.
    rewrite lookup_empty in Hs.
    destruct (decide (is_Some (if decide (phases x !! s = Some (-1))
                               then b_neg <$> blocks x !! s
                               else blocks x !! s))) as [Hsome|Hnone];
      [|done].
    case_decide; [by rewrite fmap_is_Some in Hsome |- *|done].
Qed.

(** *** An operation seen through the resolved form of its argument *)

Lemma phase_resolve_blocks x r :
  phase_invariant x → phase_resolve x = Ok r →
  indices r = indices x ∧ charge_total r = charge_total x ∧ phases r = ∅
  ∧ ∀ s, blocks r !! s = resolve_block (phases x) s (blocks x !! s).
Proof.
  intros Hinv Hr.
  rewrite phase_resolve_Ok_weak in Hr by (intros s; by apply phase_invariant_neg).
  injection Hr as <-. split_and!; [done|done|done|].
  intros s. cbn [base blocks with_blocks]. by rewrite phase_resolve_lookup.
Qed.

Lemma resolved_eq (z z' : @FermionicArray charge _ _ block) :
  indices z = indices z' → charge_total z = charge_total z' →
  phases z = ∅ → phases z' = ∅ → (∀ s, blocks z !! s = blocks z' !! s) →
  z = z'.
Proof.
  intros Hix Hct Hz Hz' Hbs. apply array_eq; [done|done|by apply map_eq|].
  by rewrite Hz, Hz'.
Qed.

Lemma phase_flip_resolved x axs r :
  sectors_ranked x → phase_invariant x →
  Forall (λ ax, ax < ndim x)%nat axs → phase_resolve x = Ok r →
  ∃ y z, phase_flip x axs = Ok y ∧ phase_resolve y = Ok z
    ∧ sectors_ranked y ∧ phase_invariant y ∧ indices y = indices x
    ∧ indices z = indices r ∧ charge_total z = charge_total r ∧ phases z = ∅
    ∧ ∀ s, blocks z !! s
        = if odd_on s axs then b_neg <$> blocks r !! s else blocks r !! s.
Proof.
  intros Hranked Hinv Hax Hr.
  destruct (phase_resolve_blocks x r Hinv Hr) as (Hix & Hct & _ & Hbs).
  pose proof (phase_flip_Ok x axs Hranked Hax) as Hy.
  pose proof (phase_flip_invariant _ _ _ Hinv Hy) as Hinvy.
  eexists _, _. split; [exact Hy|].
  split; [apply phase_resolve_Ok_weak; intros s; by apply phase_invariant_neg|].
  split_and!; try done.
  intros s. cbn [base blocks phases with_blocks with_phases].
  rewrite phase_resolve_lookup, phase_flip_lookup, Hbs.
  unfold resolve_block, flip_entry. pose proof Hinv as [Hsp _].
  destruct (blocks x !! s) as [b|] eqn:Hb.
  - rewrite (decide_True (P := is_Some (Some b))) by (by eexists).
    change (flipped None) with (Some (-1)).
    destruct (sparse_entry (phases x) s Hsp) as [-> | ->];
      destruct (odd_on s axs);
      rewrite ?(eq_refl : flipped (Some (-1)) = None);
      repeat case_decide; try congruence; cbn; by rewrite ?b_neg_neg.
  - rewrite (phases_keyed_None x s Hinv Hb).
    rewrite (decide_False (P := is_Some None)) by (by intros [? ?]).
    cbn. destruct (odd_on s axs); by repeat case_decide.
Qed.

Lemma phase_virtual_transpose_resolved x (oa : option (list nat)) r :
  sectors_ranked x → phase_invariant x →
  match oa with
  | Some axes => Forall (λ a, a < ndim x)%nat axes
  | None => True
  end →
  phase_resolve x = Ok r →
  ∃ y z, phase_virtual_transpose x oa = Ok y ∧ phase_resolve y = Ok z
    ∧ sectors_ranked y ∧ phase_invariant y ∧ indices y = indices x
    ∧ indices z = indices r ∧ charge_total z = charge_total r ∧ phases z = ∅
    ∧ ∀ s, blocks z !! s
        = if decide (perm_sign (map parity s)
                       (default (reverse (seq 0 (length s))) oa) = -1)
          then b_neg <$> blocks r !! s else blocks r !! s.
Proof.
  intros Hranked Hinv Hoa Hr.
  destruct (phase_resolve_blocks x r Hinv Hr) as (Hix & Hct & _ & Hbs).
  pose proof (phase_virtual_transpose_Ok_any x oa Hranked Hoa) as Hy.
  pose proof (phase_virtual_transpose_invariant _ _ _ Hinv Hy) as Hinvy.
  eexists _, _. split; [exact Hy|].
  split; [apply phase_resolve_Ok_weak; intros s; by apply phase_invariant_neg|].
  split_and!; try done.
  intros s. cbn [base blocks phases with_blocks with_phases].
  rewrite phase_resolve_lookup, foldl_sectors_lookup, Hbs.
  unfold resolve_block. pose proof Hinv as [Hsp _].
  destruct (blocks x !! s) as [b|] eqn:Hb.
  - rewrite (decide_True (P := is_Some (Some b))) by (by eexists).
    destruct (sparse_entry (phases x) s Hsp) as [-> | ->];
      destruct (perm_sign_cases (map parity s)
                  (default (reverse (seq 0 (length s))) oa)) as [-> | ->];
      rewrite ?(eq_refl : bump 1 None = None),
              ?(eq_refl : bump (-1) None = Some (-1)),
              ?(eq_refl : bump 1 (Some (-1)) = Some (-1)),
              ?(eq_refl : bump (-1) (Some (-1)) = None);
      repeat case_decide; try congruence; try lia; cbn; by rewrite ?b_neg_neg.
  - rewrite (phases_keyed_None x s Hinv Hb).
    rewrite (decide_False (P := is_Some None)) by (by intros [? ?]).
    cbn. by repeat case_decide.
Qed.

(** The buffered signs are sound for [phase_virtual_transpose]: resolving
    first changes nothing in the resolved result. *)
Theorem phase_virtual_transpose_resolve x (oa : option (list nat)) :
  sectors_ranked x → phase_invariant x →
  match oa with
  | Some axes => Forall (λ a, a < ndim x)%nat axes
  | None => True
  end →
  ∃ r y y', phase_resolve x = Ok r
    ∧ phase_virtual_transpose r oa = Ok y
    ∧ phase_virtual_transpose x oa = Ok y'
    ∧ phase_resolve y = phase_resolve y'.
Proof.
  intros Hranked Hinv Hoa.
  destruct (phase_resolve_wf x Hranked (proj2 Hinv)) as (r & Hr & Hnd & Hrr).
  pose proof (phase_resolve_invariant _ _ Hr) as Hinvr.
  assert (phase_resolve r = Ok r) as Hrr'.
  { apply phase_resolve_empty. by eapply phase_resolve_phases. }
  destruct (phase_virtual_transpose_resolved x oa r Hranked Hinv Hoa Hr)
    as (y' & z' & Hy' & Hz' & _ & _ & _ & Hix' & Hct' & Hph' & Hbs').
  destruct (phase_virtual_transpose_resolved r oa r Hrr Hinvr) as
    (y & z & Hy & Hz & _ & _ & _ & Hix & Hct & Hph & Hbs);
    [by destruct oa; [rewrite Hnd|]|done|].
  exists r, y, y'. split_and!; [done|done|done|].
  rewrite Hz, Hz'. f_equal.
  apply resolved_eq; [congruence|congruence|done|done|].
  intros s. by rewrite Hbs, Hbs'.
Qed.

(** *** Arrays with the same resolved form *)

Lemma alike_intro x x' z :
  sectors_ranked x → phase_invariant x →
  sectors_ranked x' → phase_invariant x' →
  phase_resolve x = Ok z → phase_resolve x' = Ok z → resolves_alike x x'.
Proof. intros. split; [done|]. split; [done|]. by exists z. Qed.

Lemma alike_sym x x' : resolves_alike x x' → resolves_alike x' x.
Proof. intros (Hw & Hw' & (r & Hr & Hr')). split; [done|]. split; [done|]. by exists r. Qed.

Lemma alike_indices x x' : resolves_alike x x' → indices x = indices x'.
Proof.
  intros ((_ & Hi) & (_ & Hi') & (r & Hr & Hr')).
  destruct (phase_resolve_blocks x r Hi Hr) as (Hix & _).
  destruct (phase_resolve_blocks x' r Hi' Hr') as (Hix' & _).
  congruence.
Qed.

Lemma alike_ndim x x' : resolves_alike x x' → ndim x' = ndim x.
Proof. intros Hal. unfold ndim. by rewrite (alike_indices x x' Hal). Qed.

Lemma alike_resolved x r :
  sectors_ranked x → phase_invariant x → phase_resolve x = Ok r →
  resolves_alike r x.
Proof.
  intros Hranked Hinv Hr.
  destruct (phase_resolve_wf x Hranked (proj2 Hinv)) as (r' & Hr' & _ & Hrr).
  assert (r' = r) as -> by congruence.
  apply (alike_intro r x r); try done.
  - by eapply phase_resolve_invariant.
  - apply phase_resolve_empty. by eapply phase_resolve_phases.
Qed.

Lemma alike_phase_flip x x' axs :
  resolves_alike x x' → Forall (λ ax, ax < ndim x)%nat axs →
  ∃ y y', phase_flip x axs = Ok y ∧ phase_flip x' axs = Ok y'
    ∧ resolves_alike y y'.
Proof.
  intros Hal Hax. pose proof (alike_ndim x x' Hal) as Hnd.
  destruct Hal as ((Hr & Hi) & (Hr' & Hi') & (r & Hx & Hx')).
  destruct (phase_flip_resolved x axs r Hr Hi Hax Hx)
    as (y & z & Hy & Hz & Hry & Hiy & _ & Hixz & Hctz & Hphz & Hbsz).
  destruct (phase_flip_resolved x' axs r Hr' Hi') as
    (y' & z' & Hy' & Hz' & Hry' & Hiy' & _ & Hixz' & Hctz' & Hphz' & Hbsz');
    [by rewrite Hnd|done|].
  exists y, y'. split; [done|]. split; [done|].
  apply (alike_intro y y' z); try done. rewrite Hz'. f_equal.
  apply resolved_eq; [congruence|congruence|done|done|].
  intros s. by rewrite Hbsz, Hbsz'.
Qed.

Lemma alike_phase_virtual_transpose x x' (oa : option (list nat)) :
  resolves_alike x x' →
  match oa with
  | Some axes => Forall (λ a, a < ndim x)%nat axes
  | None => True
  end →
  ∃ y y', phase_virtual_transpose x oa = Ok y
    ∧ phase_virtual_transpose x' oa = Ok y' ∧ resolves_alike y y'.
Proof.
  intros Hal Hoa. pose proof (alike_ndim x x' Hal) as Hnd.
  destruct Hal as ((Hr & Hi) & (Hr' & Hi') & (r & Hx & Hx')).
  destruct (phase_virtual_transpose_resolved x oa r Hr Hi Hoa Hx)
    as (y & z & Hy & Hz & Hry & Hiy & _ & Hixz & Hctz & Hphz & Hbsz).
  destruct (phase_virtual_transpose_resolved x' oa r Hr' Hi') as
    (y' & z' & Hy' & Hz' & Hry' & Hiy' & _ & Hixz' & Hctz' & Hphz' & Hbsz');
    [by destruct oa; [rewrite Hnd|]|done|].
  exists y, y'. split; [done|]. split; [done|].
  apply (alike_intro y y' z); try done. rewrite Hz'. f_equal.
  apply resolved_eq; [congruence|congruence|done|done|].
  intros s. by rewrite Hbsz, Hbsz'.
Qed.

Lemma lookup_by_keys {V} (B1 B2 : gmap (list charge) V) (p : list nat)
    (n : nat) (f : list charge → option V) :
  (∀ s, length s = n → B1 !! take_at s p = f s) →
  (∀ s, length s = n → B2 !! take_at s p = f s) →
  (∀ k, is_Some (B1 !! k) → ∃ s, length s = n ∧ k = take_at s p) →
  (∀ k, is_Some (B2 !! k) → ∃ s, length s = n ∧ k = take_at s p) →
  ∀ k, B1 !! k = B2 !! k.
Proof.
  intros H1 H2 K1 K2 k.
  destruct (B1 !! k) as [v|] eqn:Hk1.
  - destruct (K1 k) as (s & Hs & ->); [by eexists|].
    rewrite <- Hk1. by rewrite H1, H2.
  - destruct (B2 !! k) as [v|] eqn:Hk2; [|done].
    destruct (K2 k) as (s & Hs & ->); [by eexists|].
    rewrite <- Hk1, <- Hk2. by rewrite H1, H2.
Qed.

Section Linearity.
Context {LL : LinearityLaws block}.

Lemma transpose_resolved x (p : list nat) r :
  is_perm p (ndim x) → sectors_ranked x → phase_invariant x →
  phase_resolve x = Ok r →
  ∃ y z, transpose x (Some p) true = Ok y ∧ phase_resolve y = Ok z
    ∧ sectors_ranked y ∧ phase_invariant y
    ∧ indices y = take_at (indices x) p
    ∧ indices z = take_at (indices r) p
    ∧ charge_total z = charge_total r ∧ phases z = ∅
    ∧ (∀ s, length s = ndim x →
         blocks z !! take_at s p
         = if decide (perm_sign (map parity s) p = -1)
           then b_neg <$> ((λ b, b_transpose b (Some p)) <$> blocks r !! s)
           else (λ b, b_transpose b (Some p)) <$> blocks r !! s)
    ∧ (∀ k, is_Some (blocks z !! k) →
         ∃ s, length s = ndim x ∧ k = take_at s p).
Proof.
  intros Hp Hranked Hinv Hr.
  destruct (phase_resolve_blocks x r Hinv Hr) as (Hix & Hct & _ & Hbs).
  assert (true = false → phases_ranked x) as Htriv by done.
  pose proof (transpose_Ok x p true Hp Hranked Htriv) as Hy.
  destruct (transpose_true_wf x p Hp Hranked) as (y & Hy' & Hnd & Hry & Hinvy).
  rewrite Hy in Hy'. injection Hy' as Hy'.
  destruct (rekey_sectors_lookup (blocks x)
              (λ _ b, Some (b_transpose b (Some p))) p (ndim x) Hp Hranked)
    as [Hbl Hbk].
  destruct (rekey_sectors_lookup (blocks x)
              (λ s _, transposed_phase (phases x) p s) p (ndim x) Hp Hranked)
    as [Hpl _].
  exists y. eexists. split; [by rewrite Hy, Hy'|].
  split; [apply phase_resolve_Ok_weak; intros s; by apply phase_invariant_neg|].
  split_and!; try done.
  - by rewrite <- Hy'.
  - by rewrite <- Hy', Hix.
  - by rewrite <- Hy', Hct.
  - intros s Hs. cbn [base blocks with_blocks].
    rewrite phase_resolve_lookup. rewrite <- Hy'. cbn [base blocks phases].
    rewrite (Hbl s Hs), (Hpl s Hs), Hbs.
    unfold resolve_block, transposed_phase, phases_get.
    pose proof Hinv as [Hsp _].
    destruct (blocks x !! s) as [b|] eqn:Hb; cbn.
    + destruct (sparse_entry (phases x) s Hsp) as [-> | ->];
        destruct (perm_sign_cases (map parity s) p) as [-> | ->];
        cbn; repeat case_decide; try congruence; try lia; cbn;
        by rewrite ?b_neg_transpose, ?b_neg_neg.
    + by repeat case_decide.
  - intros k Hk. cbn [base blocks with_blocks] in Hk.
    rewrite phase_resolve_lookup in Hk.
    assert (is_Some (blocks y !! k)) as Hyk.
    { case_decide; [by apply fmap_is_Some in Hk|done]. }
    rewrite <- Hy' in Hyk. cbn [base blocks] in Hyk.
    destruct (Hbk k Hyk) as (s & v & Hs & -> & _).
    exists s. split; [apply Hranked; by eexists|done].
Qed.

Lemma alike_transpose x x' (p : list nat) :
  resolves_alike x x' → is_perm p (ndim x) →
  ∃ y y', transpose x (Some p) true = Ok y
    ∧ transpose x' (Some p) true = Ok y'
    ∧ resolves_alike y y' ∧ indices y = take_at (indices x) p.
Proof.
  intros Hal Hp. pose proof (alike_ndim x x' Hal) as Hnd.
  destruct Hal as ((Hr & Hi) & (Hr' & Hi') & (r & Hx & Hx')).
  destruct (transpose_resolved x p r Hp Hr Hi Hx)
    as (y & z & Hy & Hz & Hry & Hiy & Hixy & Hixz & Hctz & Hphz & Hbsz & Hkz).
  destruct (transpose_resolved x' p r) as
    (y' & z' & Hy' & Hz' & Hry' & Hiy' & _ & Hixz' & Hctz' & Hphz' & Hbsz' & Hkz');
    [by rewrite Hnd|done|done|done|].
  exists y, y'. split; [done|]. split; [done|]. split; [|done].
  apply (alike_intro y y' z); try done. rewrite Hz'. f_equal.
  apply resolved_eq; [congruence|congruence|done|done|].
  rewrite Hnd in Hbsz', Hkz'.
  exact (lookup_by_keys (blocks z') (blocks z) p (ndim x) _ Hbsz' Hbsz Hkz' Hkz).
Qed.

(** The buffered signs are sound for [transpose]: resolving first changes
    nothing in the resolved result. *)
Theorem transpose_resolve x (p : list nat) :
  is_perm p (ndim x) → sectors_ranked x → phase_invariant x →
  ∃ r y y', phase_resolve x = Ok r
    ∧ transpose r (Some p) true = Ok y
    ∧ transpose x (Some p) true = Ok y'
    ∧ phase_resolve y = phase_resolve y'.
Proof.
  intros Hp Hranked Hinv.
  destruct (phase_resolve_wf x Hranked (proj2 Hinv)) as (r & Hr & Hnd & _).
  pose proof (alike_resolved x r Hranked Hinv Hr) as Hal.
  destruct (alike_transpose r x p Hal) as (y & y' & Hy & Hy' & Hal' & _);
    [by rewrite Hnd|].
  exists r, y, y'. split_and!; try done.
  destruct Hal' as (_ & _ & (z & -> & ->)). done.
Qed.

(** *** The contraction of arrays with the same resolved form *)

Lemma alike_size x x' : resolves_alike x x' → size x' = size x.
Proof. intros Hal. unfold size. by rewrite (alike_indices x x' Hal). Qed.

Lemma alike_resolve x x' :
  resolves_alike x x' → ∃ z, phase_resolve x = Ok z ∧ phase_resolve x' = Ok z.
Proof. by intros (_ & _ & Hz). Qed.

Lemma tensordot_alike (a a' b b' : @FermionicArray charge _ _ block)
    (la lb : list Z) :
  resolves_alike a a' → resolves_alike b b' →
  length la = length lb → NoDup la → NoDup lb →
  Forall (λ i : Z, 0 ≤ i < Z.of_nat (ndim a)) la →
  Forall (λ i : Z, 0 ≤ i < Z.of_nat (ndim b)) lb →
  tensordot_fermionic a b (AxesPair la lb)
  = tensordot_fermionic a' b' (AxesPair la lb).
Proof.
  intros Hala Halb Hlen Hnda Hndb Hla Hlb.
  pose proof (valid_axes_length _ _ Hnda Hla) as Hna.
  pose proof (valid_axes_length _ _ Hndb Hlb) as Hnb.
  assert (Forall (λ i : Z, 0 ≤ i) la) as Hla0
    by (eapply Forall_impl; [exact Hla|]; cbn; lia).
  assert (Forall (λ i : Z, 0 ≤ i) lb) as Hlb0
    by (eapply Forall_impl; [exact Hlb|]; cbn; lia).
  unfold tensordot_fermionic.
  rewrite (alike_ndim a a' Hala), (alike_ndim b b' Halb).
  rewrite parse_axes_pair.
  2:{ destruct la as [|i la']; [by right|left].
      apply Forall_cons in Hla as [Hi _]. lia. }
  2:{ destruct lb as [|i lb']; [by right|left].
      apply Forall_cons in Hlb as [Hi _]. lia. }
  rewrite decide_True by done.
  rewrite !mod_axes_in_range by done. cbn [mbind result_bind fst snd].
  rewrite (as_axes_Ok (without (zrange 0 (Z.of_nat (ndim a))) la ++ la))
    by (apply Forall_app_2; done || apply without_nonneg).
  rewrite (as_axes_Ok (lb ++ without (zrange 0 (Z.of_nat (ndim b))) lb))
    by (apply Forall_app_2; done || apply without_nonneg).
  cbn [mbind result_bind fst snd].
  destruct (alike_transpose a a' _ Hala (contraction_perm_a _ la Hnda Hla))
    as (a1 & a1' & -> & -> & Hal1 & Hix1).
  cbn [mbind result_bind fst snd].
  destruct (alike_transpose b b' _ Halb (contraction_perm_b _ lb Hndb Hlb))
    as (b1 & b1' & -> & -> & Hbl1 & Hjx1).
  cbn [mbind result_bind fst snd].
  assert (ndim a1 = ndim a) as Hn1.
  { unfold ndim. rewrite Hix1, take_at_length.
    - by apply is_perm_length, contraction_perm_a.
    - by apply is_perm_Forall, contraction_perm_a. }
  assert (ndim b1 = ndim b) as Hm1.
  { unfold ndim. rewrite Hjx1, take_at_length.
    - by apply is_perm_length, contraction_perm_b.
    - by apply is_perm_Forall, contraction_perm_b. }
  rewrite zrange_tail by done.
  rewrite as_axes_Ok
    by (apply Forall_forall; intros i (j & -> & _)%list_elem_of_fmap; lia).
  rewrite to_nat_of_nat_seq. cbn [mbind result_bind fst snd].
  rewrite (alike_ndim b1 b1' Hbl1).
  destruct (alike_phase_virtual_transpose b1 b1'
              (Some (reverse (seq 0 (length la))
                     ++ seq (length la) (ndim b1 - length la))) Hbl1)
    as (b2 & b2' & Hb2 & Hb2' & Hbl2).
  { apply is_perm_Forall, virtual_reverse_is_perm. rewrite Hm1, Hlen. done. }
  rewrite Hb2, Hb2'. cbn [mbind result_bind fst snd].
  pose proof (phase_virtual_transpose_base _ _ _ Hb2) as Hbase2.
  assert (ndim b2 = ndim b) as Hm2 by (by rewrite Hbase2).
  rewrite (alike_size a1 a1' Hal1), (alike_size b2 b2' Hbl2).
  rewrite <- (alike_indices a1 a1' Hal1), <- (alike_indices b2 b2' Hbl2).
  assert (Forall (λ ax, ax < ndim a1)%nat
            (seq (ndim a - length la) (length la))) as Haxa.
  { apply Forall_forall. intros i Hi%elem_of_seq. lia. }
  assert (Forall (λ ax, ax < ndim b2)%nat (seq 0 (length la))) as Haxb.
  { apply Forall_forall. intros i Hi%elem_of_seq. lia. }
  case_decide.
  - destruct (axes_with_flow_returns (indices a1) true _ Haxa)
      as (axs & -> & Haxs). cbn [mbind result_bind].
    destruct (alike_phase_flip a1 a1' axs Hal1 Haxs)
      as (a3 & a3' & -> & -> & Hal3).
    cbn [mbind result_bind fst snd].
    destruct (alike_resolve a3 a3' Hal3) as (za & -> & ->).
    destruct (alike_resolve b2 b2' Hbl2) as (zb & -> & ->).
    done.
  - destruct (axes_with_flow_returns (indices b2) false _ Haxb)
      as (axs & -> & Haxs). cbn [mbind result_bind].
    destruct (alike_phase_flip b2 b2' axs Hbl2 Haxs)
      as (b3 & b3' & -> & -> & Hbl3).
    cbn [mbind result_bind fst snd].
    destruct (alike_resolve a1 a1' Hal1) as (za & -> & ->).
    destruct (alike_resolve b3 b3' Hbl3) as (zb & -> & ->).
    done.
Qed.

(** The buffered signs are sound for the contraction: operands whose
    phases were resolved beforehand contract to the same array as the
    operands with their phases still buffered. *)
Theorem tensordot_resolved_operands (a b : @FermionicArray charge _ _ block)
    (la lb : list Z) :
  sectors_ranked a → phase_invariant a →
  sectors_ranked b → phase_invariant b →
  length la = length lb → NoDup la → NoDup lb →
  Forall (λ i : Z, 0 ≤ i < Z.of_nat (ndim a)) la →
  Forall (λ i : Z, 0 ≤ i < Z.of_nat (ndim b)) lb →
  ∃ ra rb c, phase_resolve a = Ok ra ∧ phase_resolve b = Ok rb
    ∧ tensordot_fermionic a b (AxesPair la lb) = Ok c
    ∧ tensordot_fermionic ra rb (AxesPair la lb) = Ok c
    ∧ tensordot_fermionic ra b (AxesPair la lb) = Ok c
    ∧ tensordot_fermionic a rb (AxesPair la lb) = Ok c.
Proof.
  intros Hra Hia Hrb Hib Hlen Hnda Hndb Hla Hlb.
  destruct (phase_resolve_wf a Hra (proj2 Hia)) as (ra & Hresa & Hna & _).
  destruct (phase_resolve_wf b Hrb (proj2 Hib)) as (rb & Hresb & Hnb & _).
  destruct (tensordot_fermionic_returns a b la lb) as [c Hc]; try done.
  pose proof (alike_resolved a ra Hra Hia Hresa) as Hala.
  pose proof (alike_resolved b rb Hrb Hib Hresb) as Halb.
  assert (resolves_alike a a) as Haa.
  { destruct Hala as (_ & Hw & _). by apply (alike_intro a a ra). }
  assert (resolves_alike b b) as Hbb.
  { destruct Halb as (_ & Hw & _). by apply (alike_intro b b rb). }
  exists ra, rb, c. split_and!; try done.
  - rewrite <- Hc. apply tensordot_alike; try done; by rewrite ?Hna, ?Hnb.
  - rewrite <- Hc. apply tensordot_alike; try done; by rewrite ?Hna, ?Hnb.
  - rewrite <- Hc. symmetry. apply tensordot_alike; try done.
    by apply alike_sym.
Qed.

End Linearity.

End Involutions.

(** *** The [axes] argument of the contraction *)

Lemma zrange_empty (lo hi : Z) : hi ≤ lo → zrange lo hi = [].
Proof. intros Hle. unfold zrange. by replace (Z.to_nat (hi - lo)) with 0%nat by lia. Qed.

Lemma zrange_length (lo hi : Z) : length (zrange lo hi) = Z.to_nat (hi - lo).
Proof. unfold zrange. by rewrite length_map, length_seq. Qed.

Lemma elem_of_zrange (lo hi i : Z) : i ∈ zrange lo hi → lo ≤ i < hi.
Proof.
  unfold zrange. intros (j & -> & Hj%elem_of_seq)%list_elem_of_fmap. lia.
Qed.

Lemma map_mod_small (l : list Z) (n : nat) :
  Forall (λ i : Z, 0 ≤ i < Z.of_nat n) l →
  map (λ i : Z, i mod Z.of_nat n) l = l.
Proof.
  induction 1 as [|i l Hi _ IH]; [done|]. cbn. rewrite IH.
  by rewrite Z.mod_small.
Qed.

(** An integer [axes] within the ranks of both operands names the last
    axes of [a] and the first axes of [b]: the contraction is the one of the
    explicit pair of lists. *)
Theorem tensordot_int_axes (a b : @FermionicArray charge _ _ block) (n : Z) :
  0 ≤ n ≤ Z.of_nat (ndim a) → n ≤ Z.of_nat (ndim b) →
  tensordot_fermionic a b (AxesInt n)
  = tensordot_fermionic a b
      (AxesPair (zrange (Z.of_nat (ndim a) - n) (Z.of_nat (ndim a)))
                (zrange 0 n)).
Proof.
  intros Ha Hb. unfold tensordot_fermionic.
  assert (parse_axes (ndim a) (ndim b) (AxesInt n)
          = parse_axes (ndim a) (ndim b)
              (AxesPair (zrange (Z.of_nat (ndim a) - n) (Z.of_nat (ndim a)))
                        (zrange 0 n))) as ->; [|done].
  rewrite parse_axes_pair.
  - rewrite decide_True by (rewrite !zrange_length; lia).
    rewrite !map_mod_small; [done| |];
      apply Forall_forall; intros i Hi%elem_of_zrange; lia.
  - destruct (decide (n = 0)) as [->|Hn]; [right; apply zrange_empty|left]; lia.
  - destruct (decide (n = 0)) as [->|Hn]; [right; apply zrange_empty|left]; lia.
Qed.

(** An integer [axes] that is not positive names no axis at all: nothing is
    contracted, and no error is raised for the negative count. *)
Theorem tensordot_nonpositive_axes (a b : @FermionicArray charge _ _ block)
    (n : Z) :
  n ≤ 0 →
  tensordot_fermionic a b (AxesInt n) = tensordot_fermionic a b (AxesPair [] []).
Proof.
  intros Hn. unfold tensordot_fermionic.
  assert (parse_axes (ndim a) (ndim b) (AxesInt n)
          = parse_axes (ndim a) (ndim b) (AxesPair [] [])) as ->; [|done].
  cbn. by rewrite !zrange_empty by lia.
Qed.

(** Explicit axes into an operand of rank zero are reduced modulo zero: the
    contraction raises [ZeroDivisionError], whatever the lengths of the two
    lists. *)
Theorem tensordot_rank_zero (a b : @FermionicArray charge _ _ block)
    (la lb : list Z) :
  (ndim a = 0%nat → la ≠ [] →
   tensordot_fermionic a b (AxesPair la lb) = Raise ZeroDivisionError)
  ∧ (ndim a ≠ 0%nat ∨ la = [] → ndim b = 0%nat → lb ≠ [] →
     tensordot_fermionic a b (AxesPair la lb) = Raise ZeroDivisionError).
Proof.
  split.
  - intros Ha Hla. unfold tensordot_fermionic. rewrite Ha.
    destruct la as [|i la]; [done|]. done.
  - intros Ha Hb Hlb. unfold tensordot_fermionic, parse_axes.
    rewrite (mod_axes_Ok la) by done. rewrite Hb.
    destruct lb as [|i lb]; [done|]. done.
Qed.

(** *** Two transpositions in a row *)

Lemma perm_sign_compose (par : list bool) (p q : list nat) (n : nat) :
  length par = n → is_perm p n → is_perm q n →
  perm_sign par (take_at p q)
  = perm_sign par p * perm_sign (take_at par p) q.
Proof.
  intros Hpar Hp Hq. unfold perm_sign.
  rewrite (inversions_compose par p q n) by done.
  by destruct (Nat.odd _), (Nat.odd _).
Qed.

Lemma is_perm_compose (p q : list nat) (n : nat) :
  is_perm p n → is_perm q n → is_perm (take_at p q) n.
Proof.
  intros Hp Hq. unfold is_perm in *.
  rewrite (take_at_map_default 0%nat)
    by (rewrite (is_perm_length p n Hp); by apply is_perm_Forall).
  change (map ?f q) with (f <$> q). rewrite Hq.
  assert ((λ a, default 0%nat (p !! a)) <$> seq 0 n = p) as ->; [|done].
  apply list_eq. intros i. rewrite list_lookup_fmap.
  destruct (decide (i < n)%nat) as [Hi|Hi].
  - rewrite lookup_seq_lt by done. cbn.
    destruct (lookup_lt_is_Some_2 p i) as [v ->];
      [by rewrite (is_perm_length p n Hp)|done].
  - rewrite lookup_seq_ge by lia. symmetry. apply lookup_ge_None.
    rewrite (is_perm_length p n Hp). lia.
Qed.

Lemma take_at_take_at {A} (it : list A) (p q : list nat) :
  Forall (λ a, a < length it)%nat p → Forall (λ a, a < length p)%nat q →
  take_at (take_at it p) q = take_at it (take_at p q).
Proof.
  intros Hp Hq.
  assert (Forall (λ a, a < length it)%nat (take_at p q)) as Hpq.
  { apply Forall_forall. intros a [i Hi]%list_elem_of_lookup.
    rewrite take_at_lookup in Hi by done.
    destruct (q !! i) as [b|]; [|done]. cbn in Hi.
    rewrite Forall_forall in Hp. apply Hp. by eapply list_elem_of_lookup_2. }
  apply list_eq. intros i.
  rewrite !take_at_lookup; try done.
  - destruct (q !! i) as [a|]; [|done]. cbn. by rewrite take_at_lookup.
  - by rewrite take_at_length.
Qed.

Section Composition.
Context {CL : CompositionLaws block}.

(** Transposing by [p] and then by [q] is transposing once by the composed
    axes [p[q[0]], p[q[1]], ...]: indices, sector keys and blocks are those
    of the single transposition, and the two signs of a sector multiply to
    the sign of the composed permutation of its odd charges. *)
Theorem transpose_compose x (p q : list nat) :
  is_perm p (ndim x) → is_perm q (ndim x) →
  sectors_ranked x → blocks_ranked x → phases_signs (phases x) →
  ∃ y, transpose x (Some p) true = Ok y
    ∧ transpose y (Some q) true = transpose x (Some (take_at p q)) true.
Proof.
  intros Hp Hq Hranked Hbr Hsigns.
  assert (true = false → phases_ranked x) as Htriv by done.
  pose proof (is_perm_compose p q _ Hp Hq) as Hpq.
  pose proof (transpose_Ok x p true Hp Hranked Htriv) as Hy.
  rewrite (transpose_Ok x (take_at p q) true Hpq Hranked Htriv).
  clear Htriv.
  destruct x as [[ixs ct bs] ph].
  unfold sectors_ranked, blocks_ranked, ndim in *.
  cbn [base indices charge_total blocks phases] in *.
  set (n := length ixs) in *.
  pose proof (is_perm_length _ _ Hp) as Hplen.
  pose proof (is_perm_length _ _ Hq) as Hqlen.
  pose proof (is_perm_Forall _ _ Hp) as Hpall.
  pose proof (is_perm_Forall _ _ Hq) as Hqall.
  assert (∀ k : list charge, length k = n → length (take_at k p) = n) as Hlen.
  { intros k Hk. rewrite take_at_length, Hplen; [done|]. by rewrite Hk. }
  assert (∀ k : list charge, length k = n →
            take_at (take_at k p) q = take_at k (take_at p q)) as HK.
  { intros k Hk. apply take_at_take_at; [by rewrite Hk|by rewrite Hplen]. }
  eexists. split; [exact Hy|]. clear Hy.
  set (B1 := foldl (rekey_step (λ sb : list charge * block, take_at sb.1 p)
                      (λ sb, Some (b_transpose sb.2 (Some p))))
                   ∅ (map_to_list bs)).
  set (P1 := foldl (rekey_step (λ sb : list charge * block, take_at sb.1 p)
                      (λ sb, transposed_phase ph p sb.1)) ∅ (map_to_list bs)).
  destruct (rekey_sectors_lookup bs (λ _ b, Some (b_transpose b (Some p)))
              p n Hp Hranked) as [HB1a HB1b]. fold B1 in HB1a, HB1b.
  destruct (rekey_sectors_lookup bs (λ s _, transposed_phase ph p s)
              p n Hp Hranked) as [HP1a _]. fold P1 in HP1a.
  assert (∀ s', is_Some (B1 !! s') → length s' = n) as HB1rank.
  { intros s' Hs'. destruct (HB1b s' Hs') as (s & b & Hsb & -> & _).
    apply Hlen, (Hranked s). by eexists. }
  assert (length (take_at ixs p) = n) as Hixs.
  { rewrite take_at_length, Hplen; [done|]. done. }
  rewrite transpose_Ok; cbn [base indices charge_total blocks phases];
    [|unfold ndim; cbn; by rewrite Hixs
     |unfold sectors_ranked, ndim; cbn; by rewrite Hixs
     |done].
  destruct (rekey_sectors_lookup B1 (λ _ b, Some (b_transpose b (Some q)))
              q n Hq HB1rank) as [HB2a HB2b].
  destruct (rekey_sectors_lookup B1 (λ s _, transposed_phase P1 q s)
              q n Hq HB1rank) as [HP2a HP2b].
  destruct (rekey_sectors_lookup bs
              (λ _ b, Some (b_transpose b (Some (take_at p q))))
              (take_at p q) n Hpq Hranked) as [HB3a HB3b].
  destruct (rekey_sectors_lookup bs
              (λ s _, transposed_phase ph (take_at p q) s)
              (take_at p q) n Hpq Hranked) as [HP3a HP3b].
  f_equal. f_equal; [f_equal|].
  - apply take_at_take_at; [done|by rewrite Hplen].
  - apply map_eq.
    apply (lookup_by_keys _ _ (take_at p q) n
             (λ s, (λ b, b_transpose b (Some (take_at p q))) <$> bs !! s)).
    + intros s Hs. rewrite <- (HK s Hs), HB2a, HB1a by auto.
      destruct (bs !! s) as [b|] eqn:Hb; [|done]. cbn. f_equal.
      pose proof (Hbr s b Hb) as Hrank.
      apply b_transpose_compose; by rewrite Hrank.
    + intros s Hs. rewrite HB3a by done. by destruct (bs !! s).
    + intros k Hk. destruct (HB2b k Hk) as (s' & v & Hs' & -> & _).
      destruct (HB1b s') as (s & b & Hsb & -> & _); [by eexists|].
      exists s. assert (length s = n) as Hs by (apply Hranked; by eexists).
      split; [done|by apply HK].
    + intros k Hk. destruct (HB3b k Hk) as (s & v & Hs & -> & _).
      exists s. split; [apply Hranked; by eexists|done].
  - apply map_eq.
    apply (lookup_by_keys _ _ (take_at p q) n
             (λ s, bs !! s ≫= λ _, transposed_phase ph (take_at p q) s)).
    + intros s Hs. rewrite <- (HK s Hs), HP2a, HB1a by auto.
      destruct (bs !! s) as [b|] eqn:Hb; [|done]. cbn.
      assert (phases_get P1 (take_at s p)
              = default 1 (transposed_phase ph p s)) as HP.
      { unfold phases_get. by rewrite (HP1a s Hs), Hb. }
      unfold transposed_phase at 1. rewrite HP.
      rewrite <- take_at_map.
      unfold transposed_phase.
      rewrite (perm_sign_compose (map parity s) p q n)
        by (done || by rewrite length_map).
      assert (phases_get ph s = 1 ∨ phases_get ph s = -1) as Hg.
      { unfold phases_get. destruct (ph !! s) as [v|] eqn:Hv;
          [by eapply Hsigns|by left]. }
      destruct Hg as [-> | ->],
        (perm_sign_cases (map parity s) p) as [-> | ->],
        (perm_sign_cases (take_at (map parity s) p) q) as [-> | ->];
        by repeat case_decide.
    + intros s Hs. by rewrite HP3a.
    + intros k Hk. destruct (HP2b k Hk) as (s' & v & Hs' & -> & _).
      destruct (HB1b s') as (s & b & Hsb & -> & _); [by eexists|].
      exists s. assert (length s = n) as Hs by (apply Hranked; by eexists).
      split; [done|by apply HK].
    + intros k Hk. destruct (HP3b k Hk) as (s & v & Hs & -> & _).
      exists s. split; [apply Hranked; by eexists|done].
Qed.

End Composition.

(** *** The loop of [fuse] over a group led by a dual axis *)

Lemma collect_kets (ixs : list (@BlockIndex charge)) (l acc : list nat) :
  Forall (λ ax, ax < length ixs)%nat l →
  foldM (λ axes_flip ax,
           ix ← getitem ixs ax;
           Ok (if flow ix then axes_flip else axes_flip ++ [ax]))
        acc l
  = Ok (acc ++ filter (λ ax, flow <$> ixs !! ax = Some false) l).
Proof.
  intros Hl. revert acc. induction Hl as [|ax l Hax _ IH]; intros acc.
  - cbn. by rewrite app_nil_r.
  - destruct (getitem_lt ixs ax Hax) as (ix & Hix & Hget).
    cbn [foldM]. rewrite Hget. cbn [mbind result_bind].
    rewrite IH, filter_cons, Hix. cbn [fmap option_fmap option_map].
    destruct (flow ix).
    + by rewrite decide_False by discriminate.
    + rewrite decide_True by done. by rewrite <- app_assoc.
Qed.

Lemma foldM_setitem {A} (l : list (nat * A)) (v : list A) :
  Forall (λ p, p.1 < length v)%nat l →
  foldM (λ vp aa, setitem vp aa.1 aa.2) v l
  = Ok (foldl (λ vp aa, <[aa.1 := aa.2]> vp) v l).
Proof.
  intros Hl. revert v Hl. induction l as [|[i a] l IH]; intros v Hl; [done|].
  apply Forall_cons in Hl as [Hi Hl]. cbn in Hi.
  cbn [foldM foldl fst snd].
  assert (setitem v i a = Ok (<[i := a]> v)) as ->
    by (unfold setitem; by rewrite decide_True).
  cbn [mbind result_bind]. apply IH. by rewrite length_insert.
Qed.

Lemma foldl_setitem_length {A} (l : list (nat * A)) (v : list A) :
  length (foldl (λ vp aa, <[aa.1 := aa.2]> vp) v l) = length v.
Proof.
  revert v. induction l as [|[i a] l IH]; intros v; [done|].
  cbn. by rewrite IH, length_insert.
Qed.

Lemma foldl_setitem_untouched {A} (l : list (nat * A)) (v : list A) (i : nat) :
  i ∉ l.*1 → foldl (λ vp aa, <[aa.1 := aa.2]> vp) v l !! i = v !! i.
Proof.
  revert v. induction l as [|[j a] l IH]; intros v Hi; [done|].
  rewrite fmap_cons, not_elem_of_cons in Hi. destruct Hi as [Hne Hi].
  cbn. rewrite IH by done. by apply list_lookup_insert_ne.
Qed.

Lemma foldl_setitem_touched {A} (l : list (nat * A)) (v : list A) (i : nat)
    (a : A) :
  NoDup l.*1 → (i, a) ∈ l → (i < length v)%nat →
  foldl (λ vp aa, <[aa.1 := aa.2]> vp) v l !! i = Some a.
Proof.
  revert v. induction l as [|[j b] l IH]; intros v Hnd Hin Hi.
  - by apply elem_of_nil in Hin.
  - rewrite fmap_cons, NoDup_cons in Hnd. destruct Hnd as [Hfresh Hnd].
    apply elem_of_cons in Hin as [[= <- <-]|Hin]; cbn.
    + rewrite foldl_setitem_untouched by done.
      by apply list_lookup_insert_eq.
    + apply IH; [done|done|by rewrite length_insert].
Qed.

(** For a group whose leading axis is dual, the loop of [fuse] adds the
    axes of the group that are not dual to the axes to flip, in the order of
    the group, and makes the virtual permutation reverse the group in
    place, every position outside the group staying as it was. *)
Theorem fuse_group_bra_leader x (axes_flip : list nat)
    (vp : option (list nat)) (ax0 : nat) (rest : list nat)
    (ix0 : @BlockIndex charge) :
  let group := ax0 :: rest in
  indices x !! ax0 = Some ix0 → flow ix0 = true →
  Forall (λ ax, ax < ndim x)%nat group → NoDup group →
  (∀ v, vp = Some v → length v = ndim x) →
  ∃ v', fuse_group x (axes_flip, vp) group
        = Ok (axes_flip
                ++ filter (λ ax, flow <$> indices x !! ax = Some false) group,
              Some v')
      ∧ length v' = ndim x
      ∧ (∀ i ax, group !! i = Some ax → v' !! ax = reverse group !! i)
      ∧ (∀ ax, ax ∉ group → v' !! ax = default (seq 0 (ndim x)) vp !! ax).
Proof.
  intros group Hix Hflow Hlt Hnd Hvp.
  set (v0 := default (seq 0 (ndim x)) vp).
  assert (length v0 = ndim x) as Hv0.
  { unfold v0. destruct vp as [v|]; cbn; [by apply Hvp|apply length_seq]. }
  assert ((zip group (reverse group)).*1 = group) as Hkeys.
  { apply fst_zip. by rewrite length_reverse. }
  exists (foldl (λ vp aa, <[aa.1 := aa.2]> vp) v0 (zip group (reverse group))).
  split_and!.
  - subst group. unfold fuse_group.
    rewrite (getitem_Some _ _ _ Hix). cbn [mbind result_bind]. rewrite Hflow.
    rewrite collect_kets by done. cbn [mbind result_bind].
    assert (match vp with Some v => v | None => seq 0 (ndim x) end = v0) as ->
      by (unfold v0; by destruct vp).
    rewrite foldM_setitem; [done|].
    apply Forall_forall. intros [i a] Hin. cbn. rewrite Hv0.
    rewrite Forall_forall in Hlt. apply Hlt. rewrite <- Hkeys.
    by apply (list_elem_of_fmap_2 fst _ (i, a)).
  - by rewrite foldl_setitem_length.
  - intros i ax Hi.
    assert (i < length group)%nat as Hilt by (by eapply lookup_lt_Some).
    destruct (lookup_lt_is_Some_2 (reverse group) i) as [a Ha];
      [by rewrite length_reverse|].
    rewrite Ha. apply foldl_setitem_touched.
    + by rewrite Hkeys.
    + by apply (elem_of_lookup_zip_with_2 pair group (reverse group) ax a
                  (ax, a) i).
    + rewrite Hv0. rewrite Forall_forall in Hlt. apply Hlt.
      by eapply list_elem_of_lookup_2.
  - intros ax Hax. apply foldl_setitem_untouched. by rewrite Hkeys.
Qed.

End PhaseAlgebra.

(** ** The conversion to a dense array *)

Section DenseTheory.
Context {charge : Type} `{Countable charge} {Sym : Symmetry charge}.
Context {block : Type} {BE : Backend block}.
Variable dense : Type.
Variable SymmetricArray_to_dense :
  @SymmetricArray charge _ _ block → result dense.
Implicit Types (x y : @FermionicArray charge _ _ block).

(** The dense array of an array is the dense array of its resolved form,
    whether or not the phases were resolved beforehand; and a buffered -1
    under a sector without a block makes the conversion raise. *)
Theorem to_dense_resolved x :
  (∀ y, phase_resolve x = Ok y →
     to_dense dense SymmetricArray_to_dense y
     = to_dense dense SymmetricArray_to_dense x
     ∧ to_dense dense SymmetricArray_to_dense x
       = SymmetricArray_to_dense (base y))
  ∧ (∀ s, phases x !! s = Some (-1) → blocks x !! s = None →
       to_dense dense SymmetricArray_to_dense x = Raise KeyError).
Proof.
  split.
  - intros y Hy. unfold to_dense. rewrite Hy.
    rewrite (phase_resolve_empty y) by (by eapply phase_resolve_phases). done.
  - intros s Hph Hbs. unfold to_dense.
    by rewrite (phase_resolve_missing x s Hph Hbs).
Qed.

End DenseTheory.

(** ** The reference backend obeys the laws of transposition *)

Module GaussLaws.
Import GaussBackend.

Lemma move_index_length r axes k :
  is_perm axes r → length (move_index r axes k) = length k.
Proof.
  intros Hp. unfold move_index. case_decide as Hk; [|done].
  rewrite take_at_length, (is_perm_length _ _ Hp); [done|].
  rewrite Hk. by apply is_perm_Forall.
Qed.

Lemma move_index_inj r axes : is_perm axes r → Inj (=) (=) (move_index r axes).
Proof.
  intros Hp k k' Heq.
  pose proof (move_index_length r axes k Hp) as Hk.
  pose proof (move_index_length r axes k' Hp) as Hk'.
  rewrite Heq, Hk' in Hk. unfold move_index in Heq.
  destruct (decide (length k = r)) as [Hr|Hr].
  - rewrite decide_True in Heq by congruence.
    eapply take_at_inj; eauto. congruence.
  - rewrite decide_False in Heq by congruence. done.
Qed.

Lemma move_index_inverse r p q k :
  is_perm p r → is_perm q r → (∀ i j, p !! i = Some j → q !! j = Some i) →
  move_index r q (move_index r p k) = k.
Proof.
  intros Hp Hq Hinv.
  pose proof (move_index_length r p k Hp) as Hlen.
  unfold move_index in *. destruct (decide (length k = r)) as [Hr|Hr].
  - rewrite decide_True by congruence.
    apply (take_at_inverse k p q r); auto using is_perm_length.
  - by rewrite decide_False.
Qed.

#[global] Instance gauss_laws : BackendLaws gblock.
Proof.
  split. intros b p q Hp Hq Hinv. cbn in *. unfold g_transpose.
  destruct b as [r m]. cbn in *.
  destruct (decide (p ≡ₚ seq 0 r)); [|done]. cbn.
  destruct (decide (q ≡ₚ seq 0 r)); [|done]. f_equal.
  pose proof (move_index_inj r p Hp) as Hip.
  pose proof (move_index_inj r q Hq) as Hiq.
  apply map_eq. intros k.
  rewrite <- (move_index_inverse r p q k Hp Hq Hinv) at 1.
  by rewrite !lookup_kmap.
Qed.

Lemma reverse_seq_lookup (r i j : nat) :
  reverse (seq 0 r) !! i = Some j ↔ (i < r)%nat ∧ j = (r - 1 - i)%nat.
Proof.
  split.
  - intros Hij. assert (i < r)%nat as Hi.
    { apply lookup_lt_Some in Hij. by rewrite length_reverse, length_seq in Hij. }
    split; [done|].
    rewrite reverse_lookup, length_seq in Hij by (by rewrite length_seq).
    apply lookup_seq in Hij. lia.
  - intros [Hi ->]. rewrite reverse_lookup by (by rewrite length_seq).
    rewrite length_seq. apply lookup_seq. lia.
Qed.

Lemma e_neg_neg (m : gmap (list nat) entry) : e_neg <$> (e_neg <$> m) = m.
Proof.
  rewrite <- map_fmap_compose. rewrite <- (map_fmap_id m) at 2.
  apply map_fmap_ext. intros k [re im] _. unfold e_neg. cbn.
  by rewrite !Z.opp_involutive.
Qed.

Lemma e_conj_conj (m : gmap (list nat) entry) : e_conj <$> (e_conj <$> m) = m.
Proof.
  rewrite <- map_fmap_compose. rewrite <- (map_fmap_id m) at 2.
  apply map_fmap_ext. intros k [re im] _. unfold e_conj. cbn.
  by rewrite Z.opp_involutive.
Qed.

Lemma g_transpose_None (b : gblock) :
  g_transpose b None
  = {| g_rank := g_rank b;
       g_data := kmap (move_index (g_rank b) (reverse (seq 0 (g_rank b))))
                      (g_data b) |}.
Proof.
  unfold g_transpose. by rewrite decide_True by apply reverse_Permutation.
Qed.

#[global] Instance gauss_involutions : InvolutionLaws gblock.
Proof.
  split.
  - intros [r m]. cbn. by rewrite e_neg_neg.
  - intros [r m]. cbn. by rewrite e_conj_conj.
  - intros [r m].
    assert (is_perm (reverse (seq 0 r)) r) as Hp
      by (unfold is_perm; apply reverse_Permutation).
    change (g_transpose
              (b_conj (g_transpose {| g_rank := r; g_data := e_conj <$> m |}
                                   None)) None
            = {| g_rank := r; g_data := m |}).
    rewrite g_transpose_None. cbn [b_conj gauss_backend g_rank g_data].
    rewrite g_transpose_None. cbn [g_rank g_data]. f_equal.
    pose proof (move_index_inj r _ Hp) as Hinj.
    rewrite !kmap_fmap by done. rewrite e_conj_conj.
    apply map_eq. intros k.
    rewrite <- (move_index_inverse r _ _ k Hp Hp) at 1.
    + by rewrite !lookup_kmap.
    + intros i j [Hi ->]%reverse_seq_lookup. apply reverse_seq_lookup. lia.
Qed.

Lemma move_index_compose r p q k :
  is_perm p r → is_perm q r →
  move_index r q (move_index r p k) = move_index r (take_at p q) k.
Proof.
  intros Hp Hq. pose proof (move_index_length r p k Hp) as Hlen.
  unfold move_index in *. destruct (decide (length k = r)) as [Hr|Hr].
  - rewrite decide_True by congruence.
    apply take_at_take_at.
    + rewrite Hr. by apply is_perm_Forall.
    + rewrite (is_perm_length p r Hp). by apply is_perm_Forall.
  - by rewrite decide_False.
Qed.

#[global] Instance gauss_composition : CompositionLaws gblock.
Proof.
  split. intros [r m] p q Hp Hq. cbn in Hp, Hq. cbn. unfold g_transpose.
  cbn [g_rank g_data].
  pose proof (is_perm_compose p q r Hp Hq) as Hpq.
  rewrite (decide_True (P := p ≡ₚ seq 0 r)) by done. cbn [g_rank g_data].
  rewrite (decide_True (P := q ≡ₚ seq 0 r)) by done.
  rewrite (decide_True (P := take_at p q ≡ₚ seq 0 r)) by done. f_equal.
  pose proof (move_index_inj r p Hp) as Hip.
  pose proof (move_index_inj r q Hq) as Hiq.
  pose proof (move_index_inj r _ Hpq) as Hipq.
  pose proof (inverse_perm_is_perm p r Hp) as Hpi.
  pose proof (inverse_perm_is_perm q r Hq) as Hqi.
  apply map_eq. intros k'.
  set (k := move_index r (inverse_perm p) (move_index r (inverse_perm q) k')).
  assert (k' = move_index r q (move_index r p k)) as Hk.
  { unfold k.
    rewrite (move_index_inverse r (inverse_perm p) p) by
      (done || (intros i j Hij; by eapply inverse_perm_lookup_inv)).
    by rewrite (move_index_inverse r (inverse_perm q) q) by
      (done || (intros i j Hij; by eapply inverse_perm_lookup_inv)). }
  rewrite Hk at 1. rewrite !lookup_kmap.
  rewrite Hk, move_index_compose by done. by rewrite lookup_kmap.
  all: assumption.
Qed.

#[global] Instance gauss_linearity : LinearityLaws gblock.
Proof.
  split. intros [r m] axes. cbn. unfold g_transpose. cbn [g_rank g_data].
  set (p := match axes with
            | Some axes0 => axes0
            | None => reverse (seq 0 r)
            end).
  destruct (decide (p ≡ₚ seq 0 r)) as [Hp|Hp]; [|done]. cbn. f_equal.
  pose proof (move_index_inj r p Hp) as Hinj.
  by rewrite kmap_fmap.
Qed.

End GaussLaws.

(** ** The statements evaluated on sample arrays *)

Module Checks.
Import GaussBackend GaussLaws Samples.
#[local] Existing Instance Z2.

Ltac by_computation := apply (bool_decide_unpack _); vm_compute; exact I.

(** [transpose_spec] on the even matrix and the swap of its two axes. *)
Lemma transpose_spec_witness :
  let x := even_matrix false true in
  let axes := [1; 0]%nat in
  is_perm axes (ndim x) ∧ sectors_ranked x
  ∧ ∃ y, transpose x (Some axes) true = Ok y
      ∧ indices y = take_at (indices x) axes
      ∧ charge_total y = charge_total x
      ∧ (∀ s, length s = ndim x →
           blocks y !! take_at s axes
           = (λ b, b_transpose b (Some axes)) <$> blocks x !! s)
      ∧ (∀ k, is_Some (blocks y !! k) →
           ∃ s, is_Some (blocks x !! s) ∧ k = take_at s axes)
      ∧ (∀ s, is_Some (blocks x !! s) →
           ∃ c, calc_phase_permutation (map parity s) (Some axes) = Ok c
              ∧ phases y !! take_at s axes
                = if decide (phases_get (phases x) s * c = -1)
                  then Some (-1) else None)
      ∧ (∀ k, is_Some (phases y !! k) →
           ∃ s, is_Some (blocks x !! s) ∧ k = take_at s axes).
Proof.
  intros x axes.
  assert (is_perm axes (ndim x)) as Hp by (unfold is_perm; by_computation).
  assert (sectors_ranked x) as Hr
    by (apply sectors_ranked_check; by_computation).
  split; [exact Hp|]. split; [exact Hr|].
  apply (transpose_spec x axes true Hp Hr). intros Hfalse. discriminate Hfalse.
Defined.

(** [phase_virtual_transpose_spec] on the same input. *)
Lemma phase_virtual_transpose_spec_witness :
  let x := even_matrix false true in
  let axes := [1; 0]%nat in
  is_perm axes (ndim x) ∧ sectors_ranked x ∧ phases_signs (phases x)
  ∧ ∃ y y', phase_virtual_transpose x (Some axes) = Ok y
      ∧ transpose x (Some axes) true = Ok y'
      ∧ base y = base x
      ∧ ∀ s, is_Some (blocks x !! s) →
          phases y !! s = phases y' !! take_at s axes.
Proof.
  intros x axes.
  assert (is_perm axes (ndim x)) as Hp by (unfold is_perm; by_computation).
  assert (sectors_ranked x) as Hr
    by (apply sectors_ranked_check; by_computation).
  assert (phases_signs (phases x)) as Hs
    by (apply phases_signs_check; by_computation).
  split; [exact Hp|]. split; [exact Hr|]. split; [exact Hs|].
  exact (phase_virtual_transpose_spec x axes Hp Hr Hs).
Defined.

(** [transpose_roundtrip] on the same input, over the reference backend. *)
Lemma transpose_roundtrip_witness :
  let x := even_matrix false true in
  let p := [1; 0]%nat in
  is_perm p (ndim x) ∧ sectors_ranked x ∧ blocks_ranked x ∧ phase_invariant x
  ∧ ∃ y, transpose x (Some p) true = Ok y
      ∧ transpose y (Some (inverse_perm p)) true = Ok x.
Proof.
  intros x p.
  assert (is_perm p (ndim x)) as Hp by (unfold is_perm; by_computation).
  assert (sectors_ranked x) as Hr
    by (apply sectors_ranked_check; by_computation).
  assert (blocks_ranked x) as Hb
    by (apply blocks_ranked_check; by_computation).
  assert (phase_invariant x) as Hi
    by (apply phase_invariant_check; by_computation).
  split; [exact Hp|]. split; [exact Hr|]. split; [exact Hb|]. split; [exact Hi|].
  exact (transpose_roundtrip x p Hp Hr Hb Hi).
Defined.

(** [phase_resolve_spec] on the even matrix, whose sector [(1,1)] carries a
    buffered sign. *)
Lemma phase_resolve_spec_witness :
  let x := even_matrix false true in
  phases_keyed (phases x) (blocks x)
  ∧ ∃ y, phase_resolve x = Ok y
      ∧ indices y = indices x
      ∧ charge_total y = charge_total x
      ∧ (∀ s, blocks y !! s
              = if decide (phases x !! s = Some (-1))
                then b_neg <$> blocks x !! s else blocks x !! s)
      ∧ phases y = ∅
      ∧ phase_resolve y = Ok y.
Proof.
  intros x.
  assert (phases_keyed (phases x) (blocks x)) as Hk
    by (apply phases_keyed_check; by_computation).
  split; [exact Hk|]. exact (phase_resolve_spec x Hk).
Defined.

(** [phase_invariant_preserved] on the even matrix: every operation
    returns on it, with the invariant. *)
Lemma phase_invariant_preserved_witness :
  let x := even_matrix true false in
  phase_invariant x ∧ sectors_ranked x
  ∧ (∃ y, transpose x (Some [1; 0]%nat) false = Ok y ∧ phase_invariant y)
  ∧ (∃ y, phase_flip x [1%nat] = Ok y ∧ phase_invariant y)
  ∧ (∃ y, phase_virtual_transpose x None = Ok y ∧ phase_invariant y)
  ∧ (∃ y, conj x true = Ok y ∧ phase_invariant y)
  ∧ (∃ y, dagger x true = Ok y ∧ phase_invariant y)
  ∧ (∃ y, phase_resolve x = Ok y ∧ phase_invariant y).
Proof.
  intros x.
  assert (phase_invariant x) as Hi
    by (apply phase_invariant_check; by_computation).
  assert (sectors_ranked x) as Hr
    by (apply sectors_ranked_check; by_computation).
  assert (is_perm [1; 0]%nat (ndim x)) as Hp
    by (unfold is_perm; by_computation).
  assert (Forall (λ ax, ax < ndim x)%nat [1%nat]) as Hax
    by by_computation.
  destruct (phase_invariant_preserved x Hi)
    as ((Htr & Hflip & Hvirt & Hconj & Hdag & Hres & _) & Hret).
  destruct (Hret Hr) as (Rtr & Rflip & _ & Rvirt & Rconj & Rdag & Rres).
  split; [exact Hi|]. split; [exact Hr|].
  split.
  { destruct (Rtr [1; 0]%nat false Hp) as [y Hy].
    exists y. split; [exact Hy|exact (Htr _ _ _ Hy)]. }
  split.
  { destruct (Rflip [1%nat] Hax) as [y Hy].
    exists y. split; [exact Hy|exact (Hflip _ _ Hy)]. }
  split.
  { destruct Rvirt as [y Hy].
    exists y. split; [exact Hy|exact (Hvirt _ _ Hy)]. }
  split.
  { destruct (Rconj true) as [y Hy].
    exists y. split; [exact Hy|exact (Hconj _ _ Hy)]. }
  split.
  { destruct (Rdag true) as [y Hy].
    exists y. split; [exact Hy|exact (Hdag _ _ Hy)]. }
  destruct Rres as [y Hy].
  exists y. split; [exact Hy|exact (Hres _ Hy)].
Defined.

(** [tensordot_axes_errors] on two vectors: lists of unequal length are
    refused, the out-of-range axes 5 and -7 are contracted. *)
Lemma tensordot_axes_errors_witness :
  let a := odd_vector false in
  let b := odd_vector true in
  (ndim a ≠ 0%nat ∨ [0; 0] = @nil Z) ∧ (ndim b ≠ 0%nat ∨ [0] = @nil Z)
  ∧ length [0; 0] ≠ length [0]
  ∧ tensordot_fermionic a b (AxesPair [0; 0] [0]) = Raise ValueError
  ∧ sectors_ranked a ∧ sectors_ranked b
  ∧ ∃ c, tensordot_fermionic a b (AxesPair [5] [-7]) = Ok c.
Proof.
  intros a b.
  assert (ndim a ≠ 0%nat ∨ [0; 0] = @nil Z) as Ha by (left; vm_compute; lia).
  assert (ndim b ≠ 0%nat ∨ [0] = @nil Z) as Hb by (left; vm_compute; lia).
  assert (length [0; 0] ≠ length [0]) as Hne by (vm_compute; lia).
  assert (sectors_ranked a) as Hra
    by (apply sectors_ranked_check; by_computation).
  assert (sectors_ranked b) as Hrb
    by (apply sectors_ranked_check; by_computation).
  assert (ndim a ≠ 0%nat ∨ [5] = @nil Z) as Ha' by (left; vm_compute; lia).
  assert (ndim b ≠ 0%nat ∨ [-7] = @nil Z) as Hb' by (left; vm_compute; lia).
  assert (NoDup (map (λ i : Z, i mod Z.of_nat (ndim a)) [5])) as Hnda
    by by_computation.
  assert (NoDup (map (λ i : Z, i mod Z.of_nat (ndim b)) [-7])) as Hndb
    by by_computation.
  split; [exact Ha|]. split; [exact Hb|]. split; [exact Hne|].
  split; [exact (proj1 (tensordot_axes_errors a b [0; 0] [0] Ha Hb) Hne)|].
  split; [exact Hra|]. split; [exact Hrb|].
  exact (proj2 (proj2 (tensordot_axes_errors a b [5] [-7] Ha' Hb') eq_refl)
           Hra Hrb Hnda Hndb).
Defined.

(** [transpose_default_axes] on the even matrix. *)
Lemma transpose_default_axes_witness :
  let x := even_matrix false true in
  (0 < ndim x)%nat
  ∧ transpose x None true = transpose x (Some (reverse (seq 0 (ndim x)))) true
  ∧ reverse (seq 0 (ndim x)) !! 0%nat = Some (ndim x - 1 - 0)%nat.
Proof.
  intros x.
  assert (0 < ndim x)%nat as Hlt by (vm_compute; lia).
  split; [exact Hlt|].
  split; [exact (proj1 (transpose_default_axes x true))|].
  exact (proj2 (transpose_default_axes x true) 0%nat Hlt).
Defined.

(** [tensordot_fermionic_procedure] on a matrix and a vector. *)
Lemma tensordot_fermionic_procedure_witness :
  let a := even_matrix true false in
  let b := odd_vector false in
  let axes := AxesPair [0] [0] in
  sectors_ranked a ∧ sectors_ranked b
  ∧ ∃ c, tensordot_fermionic a b axes = Ok c
       ∧ tensordot_staged false a b axes = Ok c
       ∧ ∃ x y axes_a axes_b,
           phases x = ∅ ∧ phases y = ∅
           ∧ tensordot_symmetric x y axes_a axes_b = Ok (base c).
Proof.
  intros a b axes.
  assert (sectors_ranked a) as Hra
    by (apply sectors_ranked_check; by_computation).
  assert (sectors_ranked b) as Hrb
    by (apply sectors_ranked_check; by_computation).
  assert (length [0] = length [0]) as Hlen by reflexivity.
  assert (NoDup [0]) as Hnd by by_computation.
  assert (Forall (λ i : Z, 0 ≤ i < Z.of_nat (ndim a)) [0]) as Hla
    by by_computation.
  assert (Forall (λ i : Z, 0 ≤ i < Z.of_nat (ndim b)) [0]) as Hlb
    by by_computation.
  destruct (tensordot_fermionic_procedure a b axes)
    as (Heq & _ & _ & Hres & Hret).
  destruct (Hret [0] [0] eq_refl Hra Hrb Hlen Hnd Hnd Hla Hlb) as [c Hc].
  split; [exact Hra|]. split; [exact Hrb|].
  exists c. split; [exact Hc|]. split; [by rewrite <- Heq|].
  exact (Hres c Hc).
Defined.

(** *** Where the code departs from the statements *)

(** C1 as stated fails: when [b] is the smaller operand the code flips its
    contracted axes of flow [False], not the dual ones, and the two
    procedures return opposite blocks. *)
Lemma tensordot_flips_kets_of_b :
  ¬ (∀ (a b : Z2Fermionic) axes,
       tensordot_fermionic a b axes = tensordot_staged_spec a b axes).
Proof.
  intros Hclaim.
  specialize (Hclaim (even_matrix true false) (odd_vector false)
                (AxesPair [0] [0])).
  apply (f_equal observe) in Hclaim. vm_compute in Hclaim. discriminate Hclaim.
Qed.

(** C9 as stated fails: the indices 5 and -7 are out of range for operands
    of rank one, and the contraction returns. *)
Lemma tensordot_wraps_axes :
  ¬ (∀ (a b : Z2Fermionic) la lb,
       length la ≠ length lb
       ∨ ¬ Forall (axis_in_range (ndim a)) la
       ∨ ¬ Forall (axis_in_range (ndim b)) lb →
       tensordot_fermionic a b (AxesPair la lb) = Raise ValueError).
Proof.
  intros Hclaim.
  specialize (Hclaim (odd_vector false) (odd_vector true) [5] [-7]).
  assert (tensordot_fermionic (odd_vector false) (odd_vector true)
            (AxesPair [5] [-7]) ≠ Raise ValueError) as Hok.
  { intros Heq. apply (f_equal observe) in Heq. vm_compute in Heq.
    discriminate Heq. }
  apply Hok, Hclaim. right. left. intros Hall.
  apply Forall_cons in Hall as [[_ Hlt] _]. vm_compute in Hlt. discriminate Hlt.
Qed.

(** C2 on a vector of odd parity: the two orders of contracting the
    conjugate with the vector give 13 and -13. *)
Lemma conj_contraction_odd_parity :
  let x := odd_vector false in
  observe (xc ← conj x true; tensordot_fermionic xc x (AxesInt 1))
  = Ok ([], [([], [([], (13, 0))])], [])
  ∧ observe (xc ← conj x true; tensordot_fermionic x xc (AxesInt 1))
    = Ok ([], [([], [([], (-13, 0))])], []).
Proof. split; vm_compute; reflexivity. Qed.

(** On a matrix of even parity the two orders agree. *)
Lemma conj_contraction_even_parity :
  let x := even_matrix false true in
  observe (xc ← conj x true; tensordot_fermionic xc x (AxesInt 2))
  = Ok ([], [([], [([], (31, 0))])], [])
  ∧ observe (xc ← conj x true; tensordot_fermionic x xc (AxesInt 2))
    = Ok ([], [([], [([], (31, 0))])], []).
Proof. split; vm_compute; reflexivity. Qed.

(** C5 on a matrix whose leading axis is not dual and whose second axis is:
    whichever way the two axes of the group are laid out, the array handed
    to the sign-unaware fuse is the transposed and resolved input, with no
    flip of the dual axis, which would have changed the sign of the sector
    [(1,1)]. *)
Lemma fuse_skips_flip_under_ket_leader :
  let x := even_matrix false true in
  let groups := [[0; 1]%nat] in
  observe (fst <$> fuse_prepare (λ _ _, [0; 1]%nat) x groups)
  = observe (phase_resolve x)
  ∧ observe (phase_resolve x)
    ≠ observe (x' ← phase_flip x [1%nat]; phase_resolve x')
  ∧ observe (fst <$> fuse_prepare (λ _ _, [1; 0]%nat) x groups)
    = observe (x' ← transpose x (Some [1; 0]%nat) true; phase_resolve x')
  ∧ observe (x' ← transpose x (Some [1; 0]%nat) true; phase_resolve x')
    ≠ observe (x' ← transpose x (Some [1; 0]%nat) true;
               x'' ← phase_flip x' [0%nat]; phase_resolve x'').
Proof.
  split; [vm_compute; reflexivity|].
  split; [intros Heq; vm_compute in Heq; discriminate Heq|].
  split; [vm_compute; reflexivity|].
  intros Heq. vm_compute in Heq. discriminate Heq.
Qed.

End Checks.

(** ** The algebra of the signs evaluated on sample arrays *)

Module AlgebraChecks.
Import GaussBackend GaussLaws Samples EdgeSamples.
#[local] Existing Instance Z2.

Ltac by_evaluation := apply (bool_decide_unpack _); vm_compute; exact I.

(** [phase_flip_spec] on the even matrix and its second axis. *)
Lemma phase_flip_spec_witness :
  let x := even_matrix false true in
  let axs := [1%nat] in
  sectors_ranked x ∧ Forall (λ ax, ax < ndim x)%nat axs
  ∧ ∃ y, phase_flip x axs = Ok y
      ∧ base y = base x
      ∧ ∀ s, phases y !! s
          = if decide (is_Some (blocks x !! s) ∧ odd_on s axs = true)
            then (if decide (phases_get (phases x) s = -1) then None
                  else Some (- phases_get (phases x) s))
            else phases x !! s.
Proof.
  intros x axs.
  assert (sectors_ranked x) as Hr
    by (apply sectors_ranked_check; by_evaluation).
  assert (Forall (λ ax, ax < ndim x)%nat axs) as Hax by by_evaluation.
  split; [exact Hr|]. split; [exact Hax|].
  exact (phase_flip_spec x axs Hr Hax).
Defined.

(** [phase_flip_involutive] on the same input. *)
Lemma phase_flip_involutive_witness :
  let x := even_matrix false true in
  let axs := [1%nat] in
  sectors_ranked x ∧ Forall (λ ax, ax < ndim x)%nat axs
  ∧ phases_sparse (phases x)
  ∧ ∃ y, phase_flip x axs = Ok y ∧ phase_flip y axs = Ok x.
Proof.
  intros x axs.
  assert (sectors_ranked x) as Hr
    by (apply sectors_ranked_check; by_evaluation).
  assert (Forall (λ ax, ax < ndim x)%nat axs) as Hax by by_evaluation.
  assert (phases_sparse (phases x)) as Hsp
    by (apply phases_sparse_check; by_evaluation).
  split; [exact Hr|]. split; [exact Hax|]. split; [exact Hsp|].
  exact (phase_flip_involutive x axs Hr Hax Hsp).
Defined.

(** [phase_flip_app] on the even matrix: its second axis, then both. *)
Lemma phase_flip_app_witness :
  let x := even_matrix false true in
  let axs1 := [1%nat] in
  let axs2 := [0; 1]%nat in
  sectors_ranked x ∧ Forall (λ ax, ax < ndim x)%nat axs1
  ∧ Forall (λ ax, ax < ndim x)%nat axs2 ∧ phases_sparse (phases x)
  ∧ ∃ y, phase_flip x axs1 = Ok y
      ∧ phase_flip y axs2 = phase_flip x (axs1 ++ axs2).
Proof.
  intros x axs1 axs2.
  assert (sectors_ranked x) as Hr
    by (apply sectors_ranked_check; by_evaluation).
  assert (Forall (λ ax, ax < ndim x)%nat axs1) as Hax1 by by_evaluation.
  assert (Forall (λ ax, ax < ndim x)%nat axs2) as Hax2 by by_evaluation.
  assert (phases_sparse (phases x)) as Hsp
    by (apply phases_sparse_check; by_evaluation).
  split; [exact Hr|]. split; [exact Hax1|]. split; [exact Hax2|].
  split; [exact Hsp|].
  exact (phase_flip_app x axs1 axs2 Hr Hax1 Hax2 Hsp).
Defined.

(** [phase_flip_IndexError]: the axis 3 of a vector, with and without a
    block to read. *)
Lemma phase_flip_IndexError_witness :
  let x := odd_vector false in
  let axs := [3%nat] in
  blocks empty_vector = ∅
  ∧ phase_flip empty_vector axs = Ok empty_vector
  ∧ blocks x ≠ ∅ ∧ sectors_ranked x ∧ Exists (λ ax, ndim x ≤ ax)%nat axs
  ∧ phase_flip x axs = Raise IndexError.
Proof.
  intros x axs.
  assert (blocks empty_vector = ∅) as Hempty by reflexivity.
  assert (blocks x ≠ ∅) as Hne by by_evaluation.
  assert (sectors_ranked x) as Hr
    by (apply sectors_ranked_check; by_evaluation).
  assert (Exists (λ ax, ndim x ≤ ax)%nat axs) as Hex by by_evaluation.
  split; [exact Hempty|].
  split; [exact (proj1 (phase_flip_IndexError empty_vector axs) Hempty)|].
  split; [exact Hne|]. split; [exact Hr|]. split; [exact Hex|].
  exact (proj2 (phase_flip_IndexError x axs) Hne Hr Hex).
Defined.

(** [phase_resolve_KeyError] on a vector with a buffered -1 under the
    sector [(0,)], which has no block. *)
Lemma phase_resolve_KeyError_witness :
  let x := stale_vector (-1) in
  phases x !! [0] = Some (-1) ∧ blocks x !! [0] = None
  ∧ phase_resolve x = Raise KeyError.
Proof.
  intros x.
  assert (phases x !! [0] = Some (-1)) as Hph by reflexivity.
  assert (blocks x !! [0] = None) as Hbs by reflexivity.
  split; [exact Hph|]. split; [exact Hbs|].
  exact (phase_resolve_KeyError x [0] Hph Hbs).
Defined.

(** [phase_resolve_discards] on the same vector with 5 in place of -1. *)
Lemma phase_resolve_discards_witness :
  let x := stale_vector 5 in
  map_Forall (λ s v, v = -1 → is_Some (blocks x !! s)) (phases x)
  ∧ ∃ y, phase_resolve x = Ok y
      ∧ indices y = indices x
      ∧ charge_total y = charge_total x
      ∧ phases y = ∅
      ∧ ∀ s, blocks y !! s
          = if decide (phases x !! s = Some (-1))
            then b_neg <$> blocks x !! s else blocks x !! s.
Proof.
  intros x.
  assert (map_Forall (λ s v, v = -1 → is_Some (blocks x !! s)) (phases x))
    as Hall by by_evaluation.
  split; [exact Hall|].
  apply (phase_resolve_discards x).
  intros s Hs. exact (Hall s (-1) Hs eq_refl).
Defined.

(** [phase_virtual_transpose_involutive] on the even matrix and the swap
    of its axes. *)
Lemma phase_virtual_transpose_involutive_witness :
  let x := even_matrix false true in
  let axes := [1; 0]%nat in
  sectors_ranked x ∧ Forall (λ a, a < ndim x)%nat axes
  ∧ phases_sparse (phases x)
  ∧ ∃ y, phase_virtual_transpose x (Some axes) = Ok y
      ∧ phase_virtual_transpose y (Some axes) = Ok x.
Proof.
  intros x axes.
  assert (sectors_ranked x) as Hr
    by (apply sectors_ranked_check; by_evaluation).
  assert (Forall (λ a, a < ndim x)%nat axes) as Hax by by_evaluation.
  assert (phases_sparse (phases x)) as Hsp
    by (apply phases_sparse_check; by_evaluation).
  split; [exact Hr|]. split; [exact Hax|]. split; [exact Hsp|].
  exact (phase_virtual_transpose_involutive x (Some axes) Hr Hax Hsp).
Defined.

(** [conj_spec] on the even matrix, with phases. *)
Lemma conj_spec_witness :
  let x := even_matrix false true in
  sectors_ranked x
  ∧ ∃ y, conj x true = Ok y
      ∧ indices y = map ix_conj (indices x)
      ∧ blocks y = b_conj <$> blocks x
      ∧ ∀ s, is_Some (blocks x !! s) →
          ∃ c, calc_phase_permutation (map parity s) None = Ok c
             ∧ phases y !! s
               = let v := phases_get (phases x) s * c
                          * (if odd_on s (flow_axes (indices y)) then -1 else 1)
                 in if decide (v = 1) then None else Some v.
Proof.
  intros x.
  assert (sectors_ranked x) as Hr
    by (apply sectors_ranked_check; by_evaluation).
  split; [exact Hr|].
  destruct (conj_spec x true Hr) as (y & Hy & Hix & _ & Hbs & _ & Hph).
  exists y. split; [exact Hy|]. split; [exact Hix|]. split; [exact Hbs|].
  exact (proj1 (Hph eq_refl)).
Defined.

(** [conj_conj] on the odd vector: conjugating twice changes its sign. *)
Lemma conj_conj_witness :
  let x := odd_vector false in
  sectors_ranked x ∧ phases_sparse (phases x)
  ∧ (∃ y, conj x false = Ok y ∧ conj y false = Ok x)
  ∧ ∃ y, conj x true = Ok y
      ∧ conj y true = phase_flip x (seq 0 (ndim x)).
Proof.
  intros x.
  assert (sectors_ranked x) as Hr
    by (apply sectors_ranked_check; by_evaluation).
  assert (phases_sparse (phases x)) as Hsp
    by (apply phases_sparse_check; by_evaluation).
  split; [exact Hr|]. split; [exact Hsp|].
  split; [exact (proj1 (conj_conj x Hr))|].
  exact (proj2 (conj_conj x Hr) Hsp).
Defined.

(** [dagger_dagger] on the even matrix, whose sectors have an even total
    parity. *)
Lemma dagger_dagger_witness :
  let x := even_matrix false true in
  sectors_ranked x ∧ phase_invariant x
  ∧ (∀ s, is_Some (blocks x !! s) → odd_on s (seq 0 (ndim x)) = false)
  ∧ (∃ y, dagger x false = Ok y ∧ dagger y false = Ok x)
  ∧ (∃ y, dagger x true = Ok y
        ∧ dagger y true = phase_flip x (seq 0 (ndim x)))
  ∧ ∃ y, dagger x true = Ok y ∧ dagger y true = Ok x.
Proof.
  intros x.
  assert (sectors_ranked x) as Hr
    by (apply sectors_ranked_check; by_evaluation).
  assert (phase_invariant x) as Hi
    by (apply phase_invariant_check; by_evaluation).
  assert (∀ s, is_Some (blocks x !! s) → odd_on s (seq 0 (ndim x)) = false)
    as Heven by (apply even_sectors_check; by_evaluation).
  destruct (dagger_dagger x Hr Hi) as (Hfalse & Htrue & Hback).
  split; [exact Hr|]. split; [exact Hi|]. split; [exact Heven|].
  split; [exact Hfalse|]. split; [exact Htrue|]. exact (Hback Heven).
Defined.

(** [phase_flip_resolve] on the even matrix and its second axis. *)
Lemma phase_flip_resolve_witness :
  let x := even_matrix false true in
  let axs := [1%nat] in
  sectors_ranked x ∧ Forall (λ ax, ax < ndim x)%nat axs ∧ phase_invariant x
  ∧ ∃ r y y', phase_resolve x = Ok r
      ∧ phase_flip r axs = Ok y
      ∧ phase_flip x axs = Ok y'
      ∧ phase_resolve y = phase_resolve y'.
Proof.
  intros x axs.
  assert (sectors_ranked x) as Hr
    by (apply sectors_ranked_check; by_evaluation).
  assert (Forall (λ ax, ax < ndim x)%nat axs) as Hax by by_evaluation.
  assert (phase_invariant x) as Hi
    by (apply phase_invariant_check; by_evaluation).
  split; [exact Hr|]. split; [exact Hax|]. split; [exact Hi|].
  exact (phase_flip_resolve x axs Hr Hax Hi).
Defined.

(** [tensordot_int_axes] on two vectors and one contracted axis. *)
Lemma tensordot_int_axes_witness :
  let a := odd_vector false in
  let b := odd_vector true in
  0 ≤ 1 ≤ Z.of_nat (ndim a) ∧ 1 ≤ Z.of_nat (ndim b)
  ∧ tensordot_fermionic a b (AxesInt 1)
    = tensordot_fermionic a b
        (AxesPair (zrange (Z.of_nat (ndim a) - 1) (Z.of_nat (ndim a)))
                  (zrange 0 1)).
Proof.
  intros a b.
  assert (0 ≤ 1 ≤ Z.of_nat (ndim a)) as Ha by (vm_compute; split; discriminate).
  assert (1 ≤ Z.of_nat (ndim b)) as Hb by (vm_compute; discriminate).
  split; [exact Ha|]. split; [exact Hb|].
  exact (tensordot_int_axes a b 1 Ha Hb).
Defined.

(** [tensordot_nonpositive_axes] on the same vectors and the count -3. *)
Lemma tensordot_nonpositive_axes_witness :
  let a := odd_vector false in
  let b := odd_vector true in
  -3 ≤ 0
  ∧ tensordot_fermionic a b (AxesInt (-3))
    = tensordot_fermionic a b (AxesPair [] []).
Proof.
  intros a b.
  assert (-3 ≤ 0) as Hn by lia.
  split; [exact Hn|]. exact (tensordot_nonpositive_axes a b (-3) Hn).
Defined.

(** [tensordot_rank_zero] on the array of rank zero, on either side. *)
Lemma tensordot_rank_zero_witness :
  let v := odd_vector false in
  ndim scalar = 0%nat ∧ [0] ≠ @nil Z ∧ (ndim v ≠ 0%nat ∨ [0] = @nil Z)
  ∧ tensordot_fermionic scalar v (AxesPair [0] [0]) = Raise ZeroDivisionError
  ∧ tensordot_fermionic v scalar (AxesPair [0] [0]) = Raise ZeroDivisionError.
Proof.
  intros v.
  assert (ndim scalar = 0%nat) as Hs by reflexivity.
  assert ([0] ≠ @nil Z) as Hne by discriminate.
  assert (ndim v ≠ 0%nat ∨ [0] = @nil Z) as Hv by (left; vm_compute; lia).
  split; [exact Hs|]. split; [exact Hne|]. split; [exact Hv|].
  split.
  - exact (proj1 (tensordot_rank_zero scalar v [0] [0]) Hs Hne).
  - exact (proj2 (tensordot_rank_zero v scalar [0] [0]) Hv Hs Hne).
Defined.

(** [to_dense_resolved] with the dictionary of blocks standing for the
    dense array. *)
Lemma to_dense_resolved_witness :
  let x := even_matrix false true in
  let stale := stale_vector (-1) in
  let dense_of := λ X : @SymmetricArray Z _ _ gblock, Ok (blocks X) in
  (∃ y, phase_resolve x = Ok y
      ∧ to_dense _ dense_of y = to_dense _ dense_of x
      ∧ to_dense _ dense_of x = dense_of (base y))
  ∧ phases stale !! [0] = Some (-1) ∧ blocks stale !! [0] = None
  ∧ to_dense _ dense_of stale = Raise KeyError.
Proof.
  intros x stale dense_of.
  assert (phases_keyed (phases x) (blocks x)) as Hk
    by (apply phases_keyed_check; by_evaluation).
  assert (phases stale !! [0] = Some (-1)) as Hph by reflexivity.
  assert (blocks stale !! [0] = None) as Hbs by reflexivity.
  split.
  - eexists. split; [exact (phase_resolve_Ok x Hk)|].
    exact (proj1 (to_dense_resolved _ dense_of x) _ (phase_resolve_Ok x Hk)).
  - split; [exact Hph|]. split; [exact Hbs|].
    exact (proj2 (to_dense_resolved _ dense_of stale) [0] Hph Hbs).
Defined.

(** [fuse_group_bra_leader] on a matrix with a dual leading axis: the
    second axis is collected and the two axes are swapped virtually. *)
Lemma fuse_group_bra_leader_witness :
  let x := even_matrix true false in
  let group := [0; 1]%nat in
  indices x !! 0%nat = Some (ix true) ∧ flow (ix true) = true
  ∧ Forall (λ ax, ax < ndim x)%nat group ∧ NoDup group
  ∧ ∃ v', fuse_group x ([], None) group = Ok ([1%nat], Some v')
      ∧ length v' = ndim x
      ∧ (∀ i ax, group !! i = Some ax → v' !! ax = reverse group !! i)
      ∧ (∀ ax, ax ∉ group → v' !! ax = seq 0 (ndim x) !! ax).
Proof.
  intros x group.
  assert (indices x !! 0%nat = Some (ix true)) as Hix by reflexivity.
  assert (flow (ix true) = true) as Hflow by reflexivity.
  assert (Forall (λ ax, ax < ndim x)%nat group) as Hlt by by_evaluation.
  assert (NoDup group) as Hnd by by_evaluation.
  split; [exact Hix|]. split; [exact Hflow|]. split; [exact Hlt|].
  split; [exact Hnd|].
  apply (fuse_group_bra_leader x [] None 0%nat [1%nat] (ix true) Hix Hflow
           Hlt Hnd).
  intros v Hv. discriminate Hv.
Defined.

(** [phase_virtual_transpose_resolve] on the even matrix and the swap of
    its axes. *)
Lemma phase_virtual_transpose_resolve_witness :
  let x := even_matrix false true in
  let axes := [1; 0]%nat in
  sectors_ranked x ∧ phase_invariant x ∧ Forall (λ a, a < ndim x)%nat axes
  ∧ ∃ r y y', phase_resolve x = Ok r
      ∧ phase_virtual_transpose r (Some axes) = Ok y
      ∧ phase_virtual_transpose x (Some axes) = Ok y'
      ∧ phase_resolve y = phase_resolve y'.
Proof.
  intros x axes.
  assert (sectors_ranked x) as Hr
    by (apply sectors_ranked_check; by_evaluation).
  assert (phase_invariant x) as Hi
    by (apply phase_invariant_check; by_evaluation).
  assert (Forall (λ a, a < ndim x)%nat axes) as Hax by by_evaluation.
  split; [exact Hr|]. split; [exact Hi|]. split; [exact Hax|].
  exact (phase_virtual_transpose_resolve x (Some axes) Hr Hi Hax).
Defined.

(** [transpose_resolve] on the same input. *)
Lemma transpose_resolve_witness :
  let x := even_matrix false true in
  let p := [1; 0]%nat in
  is_perm p (ndim x) ∧ sectors_ranked x ∧ phase_invariant x
  ∧ ∃ r y y', phase_resolve x = Ok r
      ∧ transpose r (Some p) true = Ok y
      ∧ transpose x (Some p) true = Ok y'
      ∧ phase_resolve y = phase_resolve y'.
Proof.
  intros x p.
  assert (is_perm p (ndim x)) as Hp by (unfold is_perm; by_evaluation).
  assert (sectors_ranked x) as Hr
    by (apply sectors_ranked_check; by_evaluation).
  assert (phase_invariant x) as Hi
    by (apply phase_invariant_check; by_evaluation).
  split; [exact Hp|]. split; [exact Hr|]. split; [exact Hi|].
  exact (transpose_resolve x p Hp Hr Hi).
Defined.

(** [tensordot_resolved_operands] on the even matrix, which carries a
    buffered sign, and the odd vector. *)
Lemma tensordot_resolved_operands_witness :
  let a := even_matrix true false in
  let b := odd_vector false in
  sectors_ranked a ∧ phase_invariant a ∧ sectors_ranked b ∧ phase_invariant b
  ∧ ∃ ra rb c, phase_resolve a = Ok ra ∧ phase_resolve b = Ok rb
      ∧ tensordot_fermionic a b (AxesPair [1] [0]) = Ok c
      ∧ tensordot_fermionic ra rb (AxesPair [1] [0]) = Ok c
      ∧ tensordot_fermionic ra b (AxesPair [1] [0]) = Ok c
      ∧ tensordot_fermionic a rb (AxesPair [1] [0]) = Ok c.
Proof.
  intros a b.
  assert (sectors_ranked a) as Hra
    by (apply sectors_ranked_check; by_evaluation).
  assert (phase_invariant a) as Hia
    by (apply phase_invariant_check; by_evaluation).
  assert (sectors_ranked b) as Hrb
    by (apply sectors_ranked_check; by_evaluation).
  assert (phase_invariant b) as Hib
    by (apply phase_invariant_check; by_evaluation).
  assert (length [1] = length [0]) as Hlen by reflexivity.
  assert (NoDup [1]) as Hnda by by_evaluation.
  assert (NoDup [0]) as Hndb by by_evaluation.
  assert (Forall (λ i : Z, 0 ≤ i < Z.of_nat (ndim a)) [1]) as Hla
    by by_evaluation.
  assert (Forall (λ i : Z, 0 ≤ i < Z.of_nat (ndim b)) [0]) as Hlb
    by by_evaluation.
  split; [exact Hra|]. split; [exact Hia|]. split; [exact Hrb|].
  split; [exact Hib|].
  exact (tensordot_resolved_operands a b [1] [0] Hra Hia Hrb Hib Hlen
           Hnda Hndb Hla Hlb).
Defined.

(** [transpose_compose] on a matrix: the swap of its axes, twice. *)
Lemma transpose_compose_witness :
  let x := even_matrix false true in
  let p := [1; 0]%nat in
  let q := [1; 0]%nat in
  is_perm p (ndim x) ∧ is_perm q (ndim x) ∧ sectors_ranked x
  ∧ blocks_ranked x ∧ phases_signs (phases x)
  ∧ ∃ y, transpose x (Some p) true = Ok y
      ∧ transpose y (Some q) true = transpose x (Some (take_at p q)) true.
Proof.
  intros x p q.
  assert (is_perm p (ndim x)) as Hp by (unfold is_perm; by_evaluation).
  assert (sectors_ranked x) as Hr
    by (apply sectors_ranked_check; by_evaluation).
  assert (blocks_ranked x) as Hb
    by (apply blocks_ranked_check; by_evaluation).
  assert (phases_signs (phases x)) as Hs
    by (apply phases_signs_check; by_evaluation).
  split; [exact Hp|]. split; [exact Hp|]. split; [exact Hr|].
  split; [exact Hb|]. split; [exact Hs|].
  exact (transpose_compose x p q Hp Hp Hr Hb Hs).
Defined.

End AlgebraChecks.
